(** * Chain Sentinel: the smart-money finder of [scanner.py]

    A shallow embedding of [find_smart_money], [get_top_holders],
    [get_account_owners], [find_intersection] and [calculate_wallet_pnl],
    and the properties of its natural-language specification.

    Conventions of the embedding.
    - Python [float]s.  The trade reconstructor is embedded twice.
      [Double] follows the source in IEEE 754 double precision, with
      [round(x, n)] as CPython computes it; the claims about the reported
      figures (total realized PnL, wins, win rate) are stated over it.
      The first embedding idealises the same code over exact rationals
      ([Qc]); it carries the claims that do not depend on rounding: which
      legs are classified, which feeds give the null result, counting and
      order.
    - A Python [dict] is an insertion-ordered association list with unique
      keys: iteration order is observable in the source (first-seen order of
      wallets, order of the per-token loop).
    - Provider calls are answered by an oracle ([Provider]); every call is
      logged in a writer monad ([Fetched]), so that "no request was issued"
      is a statement about the log.  [asyncio.gather] returns its results in
      argument order; the log records the calls in that order too.
    - An exception inside a [try] block is [None] in the option monad. *)

From Stdlib Require Import QArith Qcanon ZArith Lia List String Sorted Permutation.
From stdpp Require Import base option gmap strings list numbers.
From stdpp Require pretty.
From Stdlib Require Import Lqa.
From Stdlib Require Import Floats.SpecFloat.

Local Open Scope string_scope.
Local Open Scope Z_scope.
Local Open Scope list_scope.

(** Decide a closed decidable proposition by evaluation. *)
Ltac by_compute := apply (bool_decide_unpack _); vm_compute; exact I.

(* ===================================================================== *)
(** * Numbers *)
(* ===================================================================== *)

Module Num.

Definition of_Z (z : Z) : Qc := Q2Qc (inject_Z z).
Definition of_nat (n : nat) : Qc := of_Z (Z.of_nat n).

Definition ltb (x y : Qc) : bool := bool_decide (x < y)%Qc.
Definition geb (x y : Qc) : bool := bool_decide (y <= x)%Qc.
Definition eqb (x y : Qc) : bool := bool_decide (x = y).

(** [abs(x)] *)
Definition abs (x : Qc) : Qc := if ltb x 0%Qc then (- x)%Qc else x.

(** [max(0, x)]: Python returns the second argument only if it is
    strictly greater than the first. *)
Definition max0 (x : Qc) : Qc := if ltb 0%Qc x then x else 0%Qc.

(** Nearest integer to [n/d], ties to the even one. *)
Definition round_half_even (q : Q) : Z :=
  let n := Qnum q in
  let d := Z.pos (Qden q) in
  let f := n / d in
  let r := n mod d in
  match 2 * r ?= d with
  | Lt => f
  | Gt => f + 1
  | Eq => if Z.even f then f else f + 1
  end.

(** [round(x, ndigits)] *)
Definition round (x : Qc) (ndigits : nat) : Qc :=
  let scale := 10 ^ Z.of_nat ndigits in
  Q2Qc (Qmake (round_half_even (Qmult x (inject_Z scale))) (Z.to_pos scale)).

(** lamports to SOL: [n / 1e9] *)
Definition lamports_to_sol (n : Z) : Qc := Q2Qc (Qmake n 1000000000).

End Num.

(* ===================================================================== *)
(** * [sorted(..., key=..., reverse=True)] and [list.sort(key=..., reverse=True)] *)
(* ===================================================================== *)

(** Python's sort is stable, also with [reverse=True]: elements with equal
    keys keep their original relative order.  The model inserts each element
    in front of the first element whose key is not strictly greater. *)

Section SortDesc.
Context {A K : Type} (key : A → K) (ltb : K → K → bool).

Fixpoint insert_desc (x : A) (l : list A) : list A :=
  match l with
  | [] => [x]
  | y :: l' =>
      if ltb (key x) (key y) then y :: insert_desc x l' else x :: y :: l'
  end.

Fixpoint sort_desc (l : list A) : list A :=
  match l with
  | [] => []
  | x :: l' => insert_desc x (sort_desc l')
  end.

(** The two keys compare equal. *)
Definition key_eqb (k1 k2 : K) : bool := negb (ltb k1 k2) && negb (ltb k2 k1).

(** The elements of [l] whose key ties with [k], in list order. *)
Definition ties (k : K) (l : list A) : list A :=
  List.filter (fun x => key_eqb (key x) k) l.

(** [a] may stand before [b] in a descending list. *)
Definition not_below (a b : A) : Prop := ltb (key a) (key b) = false.
End SortDesc.

(** A boolean order suited to [sort_desc]: a strict weak order. *)
Class StrictWeak {K : Type} (ltb : K → K → bool) : Prop := {
  sw_irrefl : ∀ a, ltb a a = false;
  sw_trans : ∀ a b c, ltb a b = true → ltb b c = true → ltb a c = true;
  sw_cotrans : ∀ a b c, ltb a c = true → ltb a b = true ∨ ltb b c = true
}.

(* ===================================================================== *)
(** * Insertion-ordered dictionaries *)
(* ===================================================================== *)

(** The strings of [l], each once, in the order they are first seen. *)
Definition first_seen (l : list string) : list string :=
  fold_left (fun seen w => if bool_decide (w ∈ seen) then seen else (seen ++ [w])%list) l [].

Module Dict.
Section Ops.
Context {V : Type}.

Definition t : Type := list (string * V).

Definition keys (d : t) : list string := map fst d.

(** [d.get(k)] *)
Fixpoint get (k : string) (d : t) : option V :=
  match d with
  | [] => None
  | (k', v) :: d' => if decide (k' = k) then Some v else get k d'
  end.

(** [d.get(k, dflt)] *)
Definition get_or (k : string) (dflt : V) (d : t) : V :=
  default dflt (get k d).

(** [d[k] = v]: an existing key keeps its position, a new key goes last. *)
Fixpoint set (k : string) (v : V) (d : t) : t :=
  match d with
  | [] => [(k, v)]
  | (k', v') :: d' =>
      if decide (k' = k) then (k', v) :: d' else (k', v') :: set k v d'
  end.

(** In-place update of [d[k]] for a [defaultdict] with default [dflt]:
    a missing key is first created with the default value. *)
Definition update (dflt : V) (f : V → V) (k : string) (d : t) : t :=
  set k (f (get_or k dflt d)) d.
End Ops.
Arguments t : clear implicits.

(** The dictionary that groups [xs] by key: the keys in first-seen order,
    each with the default value updated by its items in list order. *)
Definition grouped {X V : Type} (k : X → string) (f : X → V → V) (dflt : V)
    (xs : list X) : t V :=
  map
    (fun key =>
       (key,
        fold_left (fun v x => f x v)
          (List.filter (fun x => bool_decide (k x = key)) xs) dflt))
    (first_seen (map k xs)).
End Dict.

(* ===================================================================== *)
(** * Step 2: [find_intersection] *)
(* ===================================================================== *)

Definition EXCLUDED_PROGRAMS : gset string :=
  {[ "TokenkegQfeZyiNwAJbNbGKPFXCWuBvf9Ss623VQ5DA";
     "11111111111111111111111111111111";
     "TokenzQdBNbLqP5VEhdkAS6EPFLC1PHnBqCXEpPxuEb";
     "ATokenGPvbdGVxr1b2hvZbsiqW5xWH25efTNsLJe1bfE";
     "So11111111111111111111111111111111111111112" ]}.

(** [len(wallet) < 32 or wallet in EXCLUDED_PROGRAMS] *)
Definition skipped (wallet : string) : bool :=
  bool_decide (String.length wallet < 32)%nat
  || bool_decide (wallet ∈ EXCLUDED_PROGRAMS).

(** The inner loop: one token's holder list. *)
Definition scan_holders (mint : string) (holders : list string)
    (wallet_to_mints : Dict.t (list string)) : Dict.t (list string) :=
  fold_left
    (fun d wallet =>
       if skipped wallet then d
       else Dict.update [] (fun held => (held ++ [mint])%list) wallet d)
    holders wallet_to_mints.

(** The outer loop over [zip(mints, holder_lists)]. *)
Definition collect_holders (holder_lists : list (list string)) (mints : list string)
    : Dict.t (list string) :=
  fold_left
    (fun d mh => scan_holders (fst mh) (snd mh) d)
    (zip mints holder_lists) [].

Definition held_count (item : string * list string) : nat := length (snd item).

Definition find_intersection (holder_lists : list (list string)) (mints : list string)
    (min_appearances : Z) : Dict.t (list string) :=
  let common :=
    List.filter
      (fun item => Z.of_nat (held_count item) >=? min_appearances)
      (collect_holders holder_lists mints) in
  sort_desc held_count Nat.ltb common.

(* ===================================================================== *)
(** * Step 3: [calculate_wallet_pnl] *)
(* ===================================================================== *)

(** ** The decoded activity feed *)

(** One entry of [tx["tokenTransfers"]].  [tokenAmount] is the value of
    [float(transfer.get("tokenAmount", 0))]; it is [None] when [float]
    raises on the payload (a string that is not a number, a list, ...). *)
Record TokenTransfer := {
  mint : string;
  fromUserAccount : string;
  toUserAccount : string;
  tokenAmount : option Qc
}.

(** One entry of [tx["accountData"]]; the balance change is in lamports. *)
Record AccountChange := {
  account : string;
  nativeBalanceChange : Z
}.

Record Tx := {
  timestamp : Z;
  accountData : list AccountChange;
  tokenTransfers : list TokenTransfer
}.

(** What [resp.json()] gives: it raises, or the JSON value is not a list,
    or it is a list of transactions. *)
Inductive Body :=
| BodyUndecodable
| BodyNotAList
| BodyList (txs : list Tx).

(** What [session.get] gives: it raises (time-out, connection error), or a
    response with a status code arrives. *)
Inductive Response :=
| NoResponse
| HttpResponse (status : Z) (body : Body).

(** ** The replay state *)

Inductive Side := BUY | SELL.

#[export] Instance Side_eq_dec : EqDecision Side.
Proof. solve_decision. Defined.

Record Trade := {
  side : Side;
  trade_mint : string;
  sol : Qc;
  amount : Qc;
  ts : Z
}.

(** One value of the [token_pnl] defaultdict. *)
Record Ledger := {
  buy_sol : Qc;
  sell_sol : Qc;
  buy_amount : Qc;
  sell_amount : Qc
}.

Definition new_ledger : Ledger :=
  {| buy_sol := 0; sell_sol := 0; buy_amount := 0; sell_amount := 0 |}.

Definition add_buy (cost_sol amt : Qc) (data : Ledger) : Ledger :=
  {| buy_sol := buy_sol data + cost_sol;
     sell_sol := sell_sol data;
     buy_amount := buy_amount data + amt;
     sell_amount := sell_amount data |}.

Definition add_sell (recv_sol amt : Qc) (data : Ledger) : Ledger :=
  {| buy_sol := buy_sol data;
     sell_sol := sell_sol data + recv_sol;
     buy_amount := buy_amount data;
     sell_amount := sell_amount data + amt |}.

(** The three locals the loop over [txs] mutates. *)
Record Replay := {
  trades : list Trade;
  token_pnl : Dict.t Ledger;
  holdings : Dict.t Qc
}.

Definition replay_start : Replay :=
  {| trades := []; token_pnl := []; holdings := [] |}.

(** A loop whose body may raise. *)
Fixpoint for_each {A S : Type} (body : S → A → option S) (l : list A) (s : S)
    : option S :=
  match l with
  | [] => Some s
  | x :: l' => s' ← body s x; for_each body l' s'
  end.

(** [sol_change]: the last [accountData] entry of the wallet wins. *)
Definition sol_change_of (wallet : string) (tx : Tx) : Qc :=
  fold_left
    (fun sol_change change =>
       if decide (account change = wallet)
       then Num.lamports_to_sol (nativeBalanceChange change)
       else sol_change)
    (accountData tx) 0%Qc.

(** The body of the loop over [tx["tokenTransfers"]]. *)
Definition replay_transfer (wallet : string) (sol_change : Qc) (tx_ts : Z)
    (st : Replay) (transfer : TokenTransfer) : option Replay :=
  amt ← tokenAmount transfer;
  let m := mint transfer in
  if bool_decide (m = "") || Num.eqb amt 0%Qc then Some st
  else if bool_decide (toUserAccount transfer = wallet) && Num.ltb sol_change 0%Qc then
    let cost_sol := Num.abs sol_change in
    Some {| trades := trades st ++
              [{| side := BUY; trade_mint := m; sol := cost_sol; amount := amt; ts := tx_ts |}];
            token_pnl := Dict.update new_ledger (add_buy cost_sol amt) m (token_pnl st);
            holdings := Dict.set m (Dict.get_or m 0%Qc (holdings st) + amt)%Qc (holdings st) |}
  else if bool_decide (fromUserAccount transfer = wallet) && Num.ltb 0%Qc sol_change then
    let recv_sol := sol_change in
    Some {| trades := trades st ++
              [{| side := SELL; trade_mint := m; sol := recv_sol; amount := amt; ts := tx_ts |}];
            token_pnl := Dict.update new_ledger (add_sell recv_sol amt) m (token_pnl st);
            holdings :=
              Dict.set m (Num.max0 (Dict.get_or m 0%Qc (holdings st) - amt)%Qc) (holdings st) |}
  else Some st.

(** The body of the loop over [txs]. *)
Definition replay_tx (wallet : string) (st : Replay) (tx : Tx) : option Replay :=
  for_each (replay_transfer wallet (sol_change_of wallet tx) (timestamp tx))
    (tokenTransfers tx) st.

Definition replay (wallet : string) (txs : list Tx) : option Replay :=
  for_each (replay_tx wallet) txs replay_start.

(** ** The per-token report *)

Record TokenReport := {
  report_mint : string;
  bought_sol : Qc;
  sold_sol : Qc;
  pnl_sol : Qc;
  roi_pct : Qc;
  holding : Qc;
  win : bool
}.

(** The locals of the loop over [token_pnl.items()]. *)
Record Tally := {
  token_reports : list TokenReport;
  tally_wins : nat;
  tally_pnl : Qc
}.

Definition tally_start : Tally :=
  {| token_reports := []; tally_wins := 0%nat; tally_pnl := 0%Qc |}.

Definition tally_token (current_holdings : Dict.t Qc) (acc : Tally)
    (item : string * Ledger) : Tally :=
  let data := snd item in
  let bought := buy_sol data in
  let sold := sell_sol data in
  let pnl := (sold - bought)%Qc in
  let total_pnl := (tally_pnl acc + pnl)%Qc in
  if Num.ltb 0%Qc bought then
    let roi := ((sold - bought) / bought * Num.of_Z 100)%Qc in
    let is_win := Num.ltb 0%Qc pnl in
    {| token_reports := token_reports acc ++
         [{| report_mint := fst item;
             bought_sol := Num.round bought 4;
             sold_sol := Num.round sold 4;
             pnl_sol := Num.round pnl 4;
             roi_pct := Num.round roi 1;
             holding := Num.round (Dict.get_or (fst item) 0%Qc current_holdings) 2;
             win := is_win |}];
       tally_wins := if is_win then S (tally_wins acc) else tally_wins acc;
       tally_pnl := total_pnl |}
  else
    {| token_reports := token_reports acc;
       tally_wins := tally_wins acc;
       tally_pnl := total_pnl |}.

(** The dict [calculate_wallet_pnl] returns. *)
Record WalletPnl := {
  total_pnl_sol : Qc;
  win_rate : Qc;
  wins : nat;
  total_positions : nat;
  token_breakdown : list TokenReport;
  current_holdings : Dict.t Qc;
  trade_count : nat
}.

(** Everything after the replay loop. *)
Definition summarise (st : Replay) : option WalletPnl :=
  match trades st with
  | [] => None
  | _ :: _ =>
      let tally := fold_left (tally_token (holdings st)) (token_pnl st) tally_start in
      let total_trades := length (token_pnl st) in
      let rate :=
        if (0 <? total_trades)%nat
        then (Num.of_nat (tally_wins tally) / Num.of_nat total_trades)%Qc
        else 0%Qc in
      Some {| total_pnl_sol := Num.round (tally_pnl tally) 4;
              win_rate := Num.round rate 3;
              wins := tally_wins tally;
              total_positions := total_trades;
              token_breakdown := sort_desc pnl_sol Num.ltb (token_reports tally);
              current_holdings :=
                List.filter (fun kv => Num.ltb 0%Qc (snd kv)) (holdings st);
              trade_count := length (trades st) |}
  end.

(** The body of the [try] block, from the provider's answer on.  The
    [mints] argument is unused, as in the source. *)
Definition wallet_pnl_of (resp : Response) (wallet : string) (mints : list string)
    : option WalletPnl :=
  match resp with
  | NoResponse => None
  | HttpResponse status body =>
      if bool_decide (status ≠ 200) then None
      else match body with
           | BodyUndecodable => None
           | BodyNotAList => None
           | BodyList [] => None
           | BodyList txs => st ← replay wallet txs; summarise st
           end
  end.

(* ===================================================================== *)
(** * The data provider and the request log *)
(* ===================================================================== *)

Inductive Request :=
| ReqTokenLargestAccounts (mint : string)
| ReqMultipleAccounts (token_accounts : list string)
| ReqTransactions (wallet : string).

#[export] Instance Request_eq_dec : EqDecision Request.
Proof. solve_decision. Defined.

(** The answer to a JSON-RPC call: the call or its decoding raised, or the
    [result.value] list arrived. *)
Inductive RpcReply (A : Type) :=
| RpcFailed
| RpcValue (value : A).
Arguments RpcFailed {A}.
Arguments RpcValue {A} value.

(** One entry of [result.value] of [getMultipleAccounts], as the loop of
    [get_account_owners] meets it: a null entry, an account with its
    parsed owner (empty when it has none), or an entry the body of the loop
    raises on (its [data] is not parsed: a list, a string). *)
Inductive AccountEntry :=
| NullAccount
| OwnedBy (owner : string)
| Unparsed.

(** - [largest_accounts mint]: the ["address"] of each entry (empty when
      the entry has none);
    - [multiple_accounts accs]: the entries of [result.value];
    - [transactions wallet]: the enhanced-transactions answer. *)
Record Provider := {
  largest_accounts : string → RpcReply (list string);
  multiple_accounts : list string → RpcReply (list AccountEntry);
  transactions : string → Response
}.

(** A computation that returns a value and the requests it issued. *)
Definition Fetched (A : Type) : Type := A * list Request.

#[export] Instance Fetched_ret : MRet Fetched := λ A a, (a, []).
#[export] Instance Fetched_bind : MBind Fetched := λ A B f m,
  let r := f (fst m) in (fst r, (snd m ++ snd r)%list).

Definition request (r : Request) : Fetched unit := (tt, [r]).

Definition value_of {A} (m : Fetched A) : A := fst m.
Definition requests_of {A} (m : Fetched A) : list Request := snd m.

(** [asyncio.gather] over [task(a) for a in args]: every task runs to
    completion and the results come back in argument order. *)
Fixpoint gather {A B : Type} (task : A → Fetched B) (args : list A)
    : Fetched (list B) :=
  match args with
  | [] => mret []
  | a :: args' => b ← task a; bs ← gather task args'; mret (b :: bs)
  end.

(* ===================================================================== *)
(** * Step 1: [get_top_holders] *)
(* ===================================================================== *)

Definition nonempty (s : string) : bool := negb (bool_decide (s = "")).

(** The loop over [result.value]: [owners] is filled one entry at a time
    and returned as it stands when the body raises, so an entry that
    raises ends the loop and leaves the owners found before it. *)
Fixpoint collect_owners (value : list AccountEntry) : list string :=
  match value with
  | [] => []
  | NullAccount :: rest => collect_owners rest
  | OwnedBy owner :: rest =>
      if nonempty owner then owner :: collect_owners rest else collect_owners rest
  | Unparsed :: _ => []
  end.

Definition get_account_owners (p : Provider) (token_accounts : list string)
    : Fetched (list string) :=
  _ ← request (ReqMultipleAccounts token_accounts);
  match multiple_accounts p token_accounts with
  | RpcFailed => mret []
  | RpcValue value => mret (collect_owners value)
  end.

Definition get_top_holders (p : Provider) (m : string) : Fetched (list string) :=
  _ ← request (ReqTokenLargestAccounts m);
  match largest_accounts p m with
  | RpcFailed => mret []
  | RpcValue accounts =>
      match List.filter nonempty accounts with
      | [] => mret []
      | token_account_addresses => get_account_owners p token_account_addresses
      end
  end.

(** [calculate_wallet_pnl] with its request. *)
Definition calculate_wallet_pnl (p : Provider) (wallet : string) (mints : list string)
    : Fetched (option WalletPnl) :=
  _ ← request (ReqTransactions wallet);
  mret (wallet_pnl_of (transactions p wallet) wallet mints).

(* ===================================================================== *)
(** * Main entry: [find_smart_money] *)
(* ===================================================================== *)

(** A qualified wallet: the PnL dict with its two added keys. *)
Record Qualified := {
  pnl_data : WalletPnl;
  wallet : string;
  tokens_held : list string
}.

Definition qualified_key (q : Qualified) : Qc := total_pnl_sol (pnl_data q).

(** The two dict shapes [find_smart_money] returns. *)
Inductive Result :=
| Error (error : string) (holder_counts : option (list nat))
| Report (mints_analyzed : list string) (total_common_wallets : nat)
    (qualified_wallets : list Qualified) (min_win_rate min_pnl_sol : Qc).

Definition too_few_tokens : Result :=
  Error "Please provide at least 2 contract addresses." None.

Definition no_common_wallets (holder_lists : list (list string)) : Result :=
  Error "No common wallets found across these tokens. Try tokens with more overlap."
    (Some (map length holder_lists)).

(** Step 4, the body of the loop over [zip(common_wallets, pnl_results)].
    [common[wallet]] cannot raise: the wallet is a key of [common]. *)
Definition qualify_step (common : Dict.t (list string)) (min_win_rate min_pnl_sol : Qc)
    (qualified : list Qualified) (item : string * option WalletPnl)
    : list Qualified :=
  match snd item with
  | None => qualified
  | Some data =>
      if Num.geb (win_rate data) min_win_rate && Num.geb (total_pnl_sol data) min_pnl_sol
      then qualified ++
             [{| pnl_data := data;
                 wallet := fst item;
                 tokens_held := Dict.get_or (fst item) [] common |}]
      else qualified
  end.

Definition qualify (common : Dict.t (list string)) (min_win_rate min_pnl_sol : Qc)
    (common_wallets : list string) (pnl_results : list (option WalletPnl))
    : list Qualified :=
  fold_left (qualify_step common min_win_rate min_pnl_sol)
    (zip common_wallets pnl_results) [].

Definition find_smart_money (p : Provider) (mints : list string)
    (min_win_rate min_pnl_sol : Qc) : Fetched Result :=
  if bool_decide (length mints < 2)%nat then mret too_few_tokens
  else
    let mints := if bool_decide (5 < length mints)%nat then take 5 mints else mints in
    holder_lists ← gather (get_top_holders p) mints;
    let common := find_intersection holder_lists mints 2 in
    match common with
    | [] => mret (no_common_wallets holder_lists)
    | _ :: _ =>
        let common_wallets := take 30 (Dict.keys common) in
        pnl_results ← gather (fun w => calculate_wallet_pnl p w mints) common_wallets;
        let qualified :=
          sort_desc qualified_key Num.ltb
            (qualify common min_win_rate min_pnl_sol common_wallets pnl_results) in
        mret (Report mints (length common) (take 10 qualified) min_win_rate min_pnl_sol)
    end.

(* ===================================================================== *)
(** * The specification's vocabulary *)
(* ===================================================================== *)

(** These definitions follow the words of the specification; the theorems
    below compare them with the functions above. *)

(** ** Holder intersection *)

(** The holder lists that have a token, in token order. *)
Definition holder_sets_of (holder_lists : list (list string)) (mints : list string)
    : list (list string) :=
  map snd (zip mints holder_lists).

(** The tokens whose holder list contains [w], in token order. *)
Definition tokens_holding (w : string) (holder_lists : list (list string))
    (mints : list string) : list string :=
  map fst (List.filter (fun mh => bool_decide (w ∈ snd mh)) (zip mints holder_lists)).

(** The wallets the finder may keep: long enough to be an address and not
    an infrastructure account. *)
Definition eligible (w : string) : Prop :=
  (32 ≤ String.length w)%nat ∧ w ∉ EXCLUDED_PROGRAMS.

(** First-seen eligible wallets with their tokens, restricted to those held
    across at least [min_appearances] tokens. *)
Definition candidates (holder_lists : list (list string)) (mints : list string)
    (min_appearances : Z) : list (string * list string) :=
  List.filter
    (fun item => bool_decide (min_appearances ≤ Z.of_nat (length (snd item))))
    (map (fun w => (w, tokens_holding w holder_lists mints))
       (List.filter (fun w => negb (skipped w))
          (first_seen (concat (holder_sets_of holder_lists mints))))).

(** The (wallet, token) pairs the finder records, in scan order. *)
Definition holder_pairs (holder_lists : list (list string)) (mints : list string)
    : list (string * string) :=
  flat_map
    (fun mh => map (fun w => (w, fst mh)) (List.filter (fun w => negb (skipped w)) (snd mh)))
    (zip mints holder_lists).

(** Non-increasing number of held tokens. *)
Definition more_tokens (a b : string * list string) : Prop :=
  (length (snd b) ≤ length (snd a))%nat.

(** ** Trade events *)

(** A leg is a BUY of its token if the wallet receives it and its native
    balance change in the transaction is negative; a SELL if the wallet
    sends it and the change is positive.  Legs without a token or with a
    zero quantity are not classified. *)
Definition leg_of (w : string) (tx : Tx) (transfer : TokenTransfer) : option Trade :=
  let change := sol_change_of w tx in
  let qty := default 0%Qc (tokenAmount transfer) in
  if bool_decide (mint transfer = "") then None
  else if bool_decide (qty = 0%Qc) then None
  else if bool_decide (toUserAccount transfer = w ∧ (change < 0)%Qc) then
    Some {| side := BUY; trade_mint := mint transfer; sol := (- change)%Qc;
            amount := qty; ts := timestamp tx |}
  else if bool_decide (fromUserAccount transfer = w ∧ (0 < change)%Qc) then
    Some {| side := SELL; trade_mint := mint transfer; sol := change;
            amount := qty; ts := timestamp tx |}
  else None.

(** The classified legs of a feed, in feed order. *)
Definition events (w : string) (txs : list Tx) : list Trade :=
  flat_map (fun tx => omap (leg_of w tx) (tokenTransfers tx)) txs.

(** What one classified leg does to a ledger and to a tracked holding. *)
Definition ledger_step (e : Trade) (data : Ledger) : Ledger :=
  match side e with
  | BUY => add_buy (sol e) (amount e) data
  | SELL => add_sell (sol e) (amount e) data
  end.

Definition holding_step (e : Trade) (h : Qc) : Qc :=
  match side e with
  | BUY => (h + amount e)%Qc
  | SELL => Num.max0 (h - amount e)%Qc
  end.

(** What one classified leg does to the replay state. *)
Definition apply_trade (st : Replay) (e : Trade) : Replay :=
  {| trades := trades st ++ [e];
     token_pnl := Dict.update new_ledger (ledger_step e) (trade_mint e) (token_pnl st);
     holdings := Dict.update 0%Qc (holding_step e) (trade_mint e) (holdings st) |}.

(** Every quantity of the feed is a number. *)
Definition decodable (txs : list Tx) : Prop :=
  Forall (fun tx => Forall (fun t => is_Some (tokenAmount t)) (tokenTransfers tx)) txs.

(** Every quantity of the feed is a non-negative number. *)
Definition quantities_nonneg (txs : list Tx) : Prop :=
  Forall (fun tx =>
    Forall (fun t => ∃ q, tokenAmount t = Some q ∧ (0 <= q)%Qc) (tokenTransfers tx)) txs.

Definition total (l : list Qc) : Qc := foldr Qcplus 0%Qc l.

Definition is_buy_of (m : string) (e : Trade) : bool :=
  bool_decide (side e = BUY ∧ trade_mint e = m).
Definition is_sell_of (m : string) (e : Trade) : bool :=
  bool_decide (side e = SELL ∧ trade_mint e = m).

Definition boughtNative (m : string) (evs : list Trade) : Qc :=
  total (map sol (List.filter (is_buy_of m) evs)).
Definition soldNative (m : string) (evs : list Trade) : Qc :=
  total (map sol (List.filter (is_sell_of m) evs)).
Definition realizedPnl (m : string) (evs : list Trade) : Qc :=
  (soldNative m evs - boughtNative m evs)%Qc.

(** The tokens with at least one classified leg, in first-seen order. *)
Definition traded_tokens (evs : list Trade) : list string :=
  first_seen (map trade_mint evs).

Definition has_buy (evs : list Trade) (m : string) : bool :=
  existsb (is_buy_of m) evs.

(** The tokens with at least one BUY leg. *)
Definition bought_tokens (evs : list Trade) : list string :=
  List.filter (has_buy evs) (traded_tokens evs).

(** Sum of the realized PnL of the given tokens. *)
Definition realized_over (tokens : list string) (evs : list Trade) : Qc :=
  total (map (fun m => realizedPnl m evs) tokens).

(** A winning token: bought into, and sold for strictly more. *)
Definition is_win (evs : list Trade) (m : string) : bool :=
  has_buy evs m && bool_decide (0 < realizedPnl m evs)%Qc.

(** The realized PnL a ledger stands for, and whether its token counts as
    bought into and as a win. *)
Definition ledger_pnl (item : string * Ledger) : Qc :=
  (sell_sol (snd item) - buy_sol (snd item))%Qc.
Definition ledger_won (item : string * Ledger) : bool :=
  Num.ltb 0%Qc (buy_sol (snd item)) && Num.ltb 0%Qc (ledger_pnl item).

(** All tracked holdings are non-negative. *)
Definition holdings_nonneg (st : Replay) : Prop :=
  Forall (fun kv => (0 <= snd kv)%Qc) (holdings st).

(** ** The pipeline of [find_smart_money] *)

Definition analysed_tokens (mints : list string) : list string := take 5 mints.

Definition holder_sets (p : Provider) (mints : list string) : list (list string) :=
  map (fun m => value_of (get_top_holders p m)) (analysed_tokens mints).

Definition intersection (p : Provider) (mints : list string) : Dict.t (list string) :=
  find_intersection (holder_sets p mints) (analysed_tokens mints) 2.

(** The candidate wallets whose activity is fetched. *)
Definition analysed_wallets (p : Provider) (mints : list string) : list string :=
  take 30 (Dict.keys (intersection p mints)).

(** The PnL report of one wallet, [None] for the null result. *)
Definition report_of (p : Provider) (mints : list string) (w : string)
    : option WalletPnl :=
  wallet_pnl_of (transactions p w) w (analysed_tokens mints).

Definition meets (min_win_rate min_pnl_sol : Qc) (r : WalletPnl) : Prop :=
  (min_win_rate <= win_rate r)%Qc ∧ (min_pnl_sol <= total_pnl_sol r)%Qc.

(** The analysed wallets with a non-null report that meets both thresholds,
    in the order of the intersection. *)
Definition passing (p : Provider) (mints : list string) (min_win_rate min_pnl_sol : Qc)
    : list Qualified :=
  omap
    (fun w =>
       r ← report_of p mints w;
       if bool_decide (meets min_win_rate min_pnl_sol r)
       then Some {| pnl_data := r; wallet := w;
                    tokens_held := Dict.get_or w [] (intersection p mints) |}
       else None)
    (analysed_wallets p mints).

(** Non-increasing realized PnL. *)
Definition more_pnl (a b : Qualified) : Prop :=
  (total_pnl_sol (pnl_data b) <= total_pnl_sol (pnl_data a))%Qc.

Definition is_activity_request (r : Request) : bool :=
  match r with ReqTransactions _ => true | _ => false end.

(** Two providers that differ at most in the activity feed of [w]. *)
Definition same_except_activity_of (w : string) (p p' : Provider) : Prop :=
  (∀ m, largest_accounts p m = largest_accounts p' m) ∧
  (∀ accs, multiple_accounts p accs = multiple_accounts p' accs) ∧
  (∀ w', w' ≠ w → transactions p w' = transactions p' w').

(** The activity feed of [w] arrives but holds no classifiable trade. *)
Definition no_classifiable_trade (w : string) (resp : Response) : Prop :=
  ∃ status txs, resp = HttpResponse status (BodyList txs) ∧ events w txs = [].

(** The ways the activity fetch of a wallet fails. *)
Inductive provider_failure : Response → Prop :=
| fail_no_response : provider_failure NoResponse
| fail_status status body : status ≠ 200 → provider_failure (HttpResponse status body)
| fail_undecodable status : provider_failure (HttpResponse status BodyUndecodable)
| fail_not_a_list status : provider_failure (HttpResponse status BodyNotAList)
| fail_bad_quantity status txs :
    ¬ decodable txs → provider_failure (HttpResponse status (BodyList txs)).

(* ===================================================================== *)
(** * Sample data *)
(* ===================================================================== *)

Module Sample.
Definition T1 : string := "T1mint".
Definition T2 : string := "T2mint".
Definition T3 : string := "T3mint".

(** Three wallet addresses of 32 characters. *)
Definition W : string := "WWWWWWWWWWWWWWWWWWWWWWWWWWWWWWWW".
Definition X : string := "XXXXXXXXXXXXXXXXXXXXXXXXXXXXXXXX".
Definition Y : string := "YYYYYYYYYYYYYYYYYYYYYYYYYYYYYYYY".

(** An address that is too short to be a wallet. *)
Definition short : string := "ShortAddr".

(** The system program, a member of [EXCLUDED_PROGRAMS]. *)
Definition system_program : string := "11111111111111111111111111111111".

(** A swap in which [w] pays [lamports] and receives [qty] of [m]. *)
Definition buy_tx (w m : string) (lamports qty : Z) : Tx :=
  {| timestamp := 1700000000;
     accountData := [{| account := w; nativeBalanceChange := - lamports |}];
     tokenTransfers :=
       [{| mint := m; fromUserAccount := "pool"; toUserAccount := w;
           tokenAmount := Some (Num.of_Z qty) |}] |}.

(** A swap in which [w] sends [qty] of [m] and receives [lamports]. *)
Definition sell_tx (w m : string) (lamports qty : Z) : Tx :=
  {| timestamp := 1700000060;
     accountData := [{| account := w; nativeBalanceChange := lamports |}];
     tokenTransfers :=
       [{| mint := m; fromUserAccount := w; toUserAccount := "pool";
           tokenAmount := Some (Num.of_Z qty) |}] |}.

(** The scenario of the specification: T1 bought for 2 SOL and sold for
    6 SOL. *)
Definition round_trip : list Tx :=
  [buy_tx W T1 2000000000 50; sell_tx W T1 6000000000 50].

(** T1 bought for 2 SOL and sold for 6.00001 SOL; T2 sold for 3 SOL and
    never bought within the window. *)
Definition with_sell_only : list Tx :=
  [buy_tx W T1 2000000000 50; sell_tx W T1 6000010000 50; sell_tx W T2 3000000000 10].

(** A feed whose BUY leg carries a negative quantity. *)
Definition negative_quantity : list Tx := [buy_tx W T1 2000000000 (-50)].

(** T1 bought (60), then more sold (100) than is tracked. *)
Definition oversold : list Tx :=
  [buy_tx W T1 2000000000 60; sell_tx W T1 6000000000 100].

(** The scenario of the specification: T1 held by W and X, T2 by W and Y. *)
Definition scenario_holders : list (list string) := [[W; X]; [W; Y]].
Definition scenario_mints : list string := [T1; T2].
(** The default thresholds: a win rate of 0.60 and 10 SOL. *)
Definition default_min_win_rate : Qc := Q2Qc (6 # 10).
Definition default_min_pnl_sol : Qc := Num.of_Z 10.

(** A provider with one token account per token, whose owners are
  [holders m], and with the activity feed [activity w] per wallet. *)
Definition provider_of (holders : string → list string) (activity : string → Response)
  : Provider :=
{| largest_accounts := fun m => RpcValue [m];
   multiple_accounts := fun accs =>
     match accs with
     | [m] => RpcValue (map OwnedBy (holders m))
     | _ => RpcFailed
     end;
   transactions := activity |}.

(** A profitable round trip in T1: bought for 2 SOL, sold for [sold] SOL. *)
Definition profit_feed (w : string) (sold : Z) : Response :=
HttpResponse 200
  (BodyList [buy_tx w T1 2000000000 50; sell_tx w T1 (sold * 1000000000) 50]).

(** W, X and Y hold every token; X realizes 20 SOL, W and Y 14 SOL each. *)
Definition market : Provider :=
provider_of (fun _ => [W; X; Y])
  (fun w => if decide (w = X) then profit_feed w 22 else profit_feed w 16).

(** The same market when the activity fetch of X fails. *)
Definition market_x_down : Provider :=
provider_of (fun _ => [W; X; Y])
  (fun w => if decide (w = X) then NoResponse else profit_feed w 16).

(** A provider that knows no holder of any token. *)
Definition silent : Provider :=
{| largest_accounts := fun _ => RpcValue [];
   multiple_accounts := fun _ => RpcValue [];
   transactions := fun _ => NoResponse |}.

Definition six_tokens : list string := ["Ta"; "Tb"; "Tc"; "Td"; "Te"; "Tf"].

(** 31 distinct wallet addresses of 33 characters. *)
Definition crowd : list string :=
map (fun n => String (Ascii.ascii_of_nat (65 + n)) W) (seq 0 31).

(** Every wallet of the crowd holds every token and realizes 14 SOL. *)
Definition crowded : Provider :=
provider_of (fun _ => crowd) (fun w => profit_feed w 16).
End Sample.

(** A crowd in which the wallet listed last also holds a third token. *)
Module Ranked.
Import Sample.

Definition three_tokens : list string := [T1; T2; T3].

Definition keen : string := default W (list.last crowd).

(** Every wallet of the crowd holds T1 and T2; only [keen] holds T3. *)
Definition uneven : Provider :=
provider_of (fun m => if decide (m = T3) then [keen] else crowd)
  (fun w => profit_feed w 16).

End Ranked.

(* ===================================================================== *)
(** * Further vocabulary for the smart-money finder *)
(* ===================================================================== *)

(** The tokens of the holder lists in which [w] occurs, once per
    occurrence, in token order. *)
Definition occurrences (w : string) (holder_lists : list (list string))
    (mints : list string) : list string :=
  flat_map
    (fun mh =>
       repeat (fst mh) (length (List.filter (fun x => bool_decide (x = w)) (snd mh))))
    (zip mints holder_lists).

(** The entry of [token_breakdown] built from one ledger. *)
Definition token_report_of (current : Dict.t Qc) (item : string * Ledger) : TokenReport :=
  {| report_mint := fst item;
     bought_sol := Num.round (buy_sol (snd item)) 4;
     sold_sol := Num.round (sell_sol (snd item)) 4;
     pnl_sol := Num.round (sell_sol (snd item) - buy_sol (snd item))%Qc 4;
     roi_pct :=
       Num.round ((sell_sol (snd item) - buy_sol (snd item)) / buy_sol (snd item)
                  * Num.of_Z 100)%Qc 1;
     holding := Num.round (Dict.get_or (fst item) 0%Qc current) 2;
     win := Num.ltb 0%Qc (sell_sol (snd item) - buy_sol (snd item))%Qc |}.

(** Non-increasing rounded PnL. *)
Definition more_token_pnl (t1 t2 : TokenReport) : Prop := (pnl_sol t2 <= pnl_sol t1)%Qc.

(** The wallet has no entry in the account data of the transaction. *)
Definition untouched (w : string) (tx : Tx) : Prop :=
  Forall (fun change => account change ≠ w) (accountData tx).

Module Fixture.
Import Sample.

(** A transfer of T1 to W in a transaction that only lists the balance
    change of another account. *)
Definition airdrop_tx : Tx :=
  {| timestamp := 1700000000;
     accountData := [{| account := X; nativeBalanceChange := -5000 |}];
     tokenTransfers :=
       [{| mint := T1; fromUserAccount := X; toUserAccount := W;
           tokenAmount := Some (Num.of_Z 1000) |}] |}.

(** Two purchases and no sale. *)
Definition only_buys : list Tx :=
  [buy_tx W T1 2000000000 50; buy_tx W T2 1000000000 10].

(** X occurs twice in the holder list of T1. *)
Definition repeated_holders : list (list string) := [[X; W; X]; [W; Y]].
End Fixture.

(* ===================================================================== *)
(** * The risk scanner: [compute_gini] *)
(* ===================================================================== *)

(** [sum(l)]: a left fold from 0. *)
Definition py_sum (l : list Qc) : Qc := fold_left Qcplus l 0%Qc.

(** [sorted(l)] on numbers: the stable ascending sort. *)
Definition sorted_asc (l : list Qc) : list Qc :=
  sort_desc id (fun a b => Num.ltb b a) l.

(** The coefficient [2*(i+1) - n - 1] of the element at index [i]. *)
Definition gini_weight (n : Z) (i : nat) : Qc :=
  Num.of_Z (2 * (Z.of_nat i + 1) - n - 1).

Definition compute_gini (shares : list Qc) : Qc :=
  match shares with
  | [] => 0%Qc
  | _ :: _ =>
      let n := Z.of_nat (length shares) in
      let s := sorted_asc shares in
      let cumsum := py_sum (imap (fun i x => (gini_weight n i * x)%Qc) s) in
      let total := py_sum s in
      if Num.ltb 0%Qc total then (cumsum / (Num.of_Z n * total))%Qc else 0%Qc
  end.

(** The weighted terms of a list whose first element has index [i]. *)
Definition gini_terms (n : Z) (i : nat) (l : list Qc) : list Qc :=
  imap (fun j x => (gini_weight n (i + j) * x)%Qc) l.

Module GiniFixture.
(** Shares of one half and two quarters. *)
Definition shares : list Qc := [Q2Qc (1 # 2); Q2Qc (1 # 4); Q2Qc (1 # 4)].
Definition shares_reordered : list Qc := [Q2Qc (1 # 4); Q2Qc (1 # 2); Q2Qc (1 # 4)].
End GiniFixture.

(* ===================================================================== *)
(** * Dev alpha: [get_dev_alpha] and its four steps *)
(* ===================================================================== *)

(** The functions of this part talk to three services; [time.time()] is
    the parameter [now]. *)

Module Dev.

Definition TOKEN_PROGRAM : string := "TokenkegQfeZyiNwAJbNbGKPFXCWuBvf9Ss623VQ5DA".

(** What [resp.json()] gives for a REST call: it raises, or the value has
    another shape than the expected one, or the expected value. *)
Inductive JsonBody (A : Type) :=
| BodyRaises
| BodyOther
| BodyOf (a : A).
Arguments BodyRaises {A}.
Arguments BodyOther {A}.
Arguments BodyOf {A} a.

Inductive HttpReply (A : Type) :=
| NoReply
| Reply (status : Z) (body : JsonBody A).
Arguments NoReply {A}.
Arguments Reply {A} status body.

(** One entry of [transaction.message.accountKeys]. *)
Inductive AccountKey :=
| KeyObject (signer writable : bool) (pubkey : option string)
| KeyString (key : string)
| KeyOther.

Record Instruction := {
  programId : string;
  accounts : list string
}.

(** One enhanced transaction of the deployer; [transfer_mints] holds the
    ["mint"] of each token transfer (empty when absent). *)
Record DeployTx := {
  tx_timestamp : Z;
  instructions : list Instruction;
  transfer_mints : list string
}.

Record TokenMint := {
  token_mint : string;
  token_timestamp : Z
}.

(** One DexScreener pair. *)
Record Pair := {
  base_address : string;
  base_name : option string;
  base_symbol : option string;
  fdv : option Qc;
  marketCap : option Qc;
  priceUsd : option string;
  volume_h24 : option Qc;
  priceChange_h24 : option Qc
}.

Record Enriched := {
  e_mint : string;
  e_name : string;
  e_symbol : string;
  market_cap : Qc;
  price_usd : string;
  volume_24h : Qc;
  price_change_24h : Qc;
  e_timestamp : Z;
  on_dex : bool
}.

Inductive DevRequest :=
| ReqAccountInfo (ca : string)
| ReqSignatures (ca : string)
| ReqTransaction (signature : string)
| ReqCreated (deployer : string)
| ReqAllTransactions (deployer : string)
| ReqDexScreener (chunk : list string).

(** - [account_info ca]: the parsed [mintAuthority], [None] for null;
    - [signatures_for ca]: the ["signature"] of each entry, newest first;
    - [transaction_keys sig]: the account keys of the transaction;
    - [created_by d], [all_by d]: the enhanced transactions of [d], with
      and without the CREATE filter;
    - [dexscreener chunk]: the ["pairs"] of the batch, [None] for a pair
      the body of the loop over the pairs raises on (a pair or a base token
      that is not an object). *)
Record DevProvider := {
  account_info : string → RpcReply (option string);
  signatures_for : string → RpcReply (list (option string));
  transaction_keys : string → RpcReply (list AccountKey);
  created_by : string → HttpReply (list DeployTx);
  all_by : string → HttpReply (list DeployTx);
  dexscreener : list string → HttpReply (list (option Pair))
}.

(** A computation with the requests it issued. *)
Definition Logged (A : Type) : Type := A * list DevRequest.

#[export] Instance Logged_ret : MRet Logged := λ A a, (a, []).
#[export] Instance Logged_bind : MBind Logged := λ A B f m,
  let r := f (fst m) in (fst r, (snd m ++ snd r)%list).

Definition ask (r : DevRequest) : Logged unit := (tt, [r]).
Definition result_of {A} (m : Logged A) : A := fst m.
Definition log_of {A} (m : Logged A) : list DevRequest := snd m.

(** ** Step 1: [get_deployer] *)

(** The loop over the account keys: the first signer that is writable, or
    the first key given as a plain string. *)
Fixpoint fee_payer (account_keys : list AccountKey) : option string :=
  match account_keys with
  | [] => None
  | KeyObject signer writable pubkey :: rest =>
      if signer && writable then pubkey else fee_payer rest
  | KeyString key :: _ => Some key
  | KeyOther :: rest => fee_payer rest
  end.

(** The path taken when the mint authority is renounced. *)
Definition deployer_from_history (p : DevProvider) (ca : string) : Logged (option string) :=
  _ ← ask (ReqSignatures ca);
  match signatures_for p ca with
  | RpcFailed => mret None
  | RpcValue signatures =>
      match list.last signatures with
      | None => mret None
      | Some None => mret None
      | Some (Some oldest_sig) =>
          if nonempty oldest_sig then
            _ ← ask (ReqTransaction oldest_sig);
            match transaction_keys p oldest_sig with
            | RpcFailed => mret None
            | RpcValue account_keys => mret (fee_payer account_keys)
            end
          else mret None
      end
  end.

Definition get_deployer (p : DevProvider) (ca : string) : Logged (option string) :=
  _ ← ask (ReqAccountInfo ca);
  match account_info p ca with
  | RpcFailed => mret None
  | RpcValue (Some mint_authority) =>
      if nonempty mint_authority && negb (bool_decide (mint_authority = "null"))
      then mret (Some mint_authority)
      else deployer_from_history p ca
  | RpcValue None => deployer_from_history p ca
  end.

(** ** Step 2: [get_deployed_tokens] *)

(** The locals [seen] and [token_mints]. *)
Definition Found : Type := gset string * list TokenMint.

(** [if m not in seen: seen.add(m); token_mints.append(...)] *)
Definition note_mint (ts : Z) (st : Found) (m : string) : Found :=
  if bool_decide (m ∈ fst st) then st
  else ({[ m ]} ∪ fst st, snd st ++ [{| token_mint := m; token_timestamp := ts |}]).

Definition scan_instruction (ts : Z) (st : Found) (instruction : Instruction) : Found :=
  if bool_decide (programId instruction = TOKEN_PROGRAM) then
    match accounts instruction with
    | [] => st
    | first :: _ => note_mint ts st first
    end
  else st.

Definition scan_transfer (ts : Z) (st : Found) (m : string) : Found :=
  if nonempty m then note_mint ts st m else st.

Definition scan_deploy_tx (cutoff : Qc) (st : Found) (tx : DeployTx) : Found :=
  let ts := tx_timestamp tx in
  if Num.ltb (Num.of_Z ts) cutoff then st
  else fold_left (scan_transfer ts) (transfer_mints tx)
         (fold_left (scan_instruction ts) (instructions tx) st).

(** The window of 60 days. *)
Definition window_start (now : Qc) : Qc := (now - Num.of_Z (60 * 86400))%Qc.

Definition found_tokens (now : Qc) (txs : list DeployTx) : Found :=
  fold_left (scan_deploy_tx (window_start now)) txs (∅, []).

(** The loop and the cap of 20. *)
Definition deployed_tokens (now : Qc) (txs : list DeployTx) : list TokenMint :=
  take 20 (snd (found_tokens now txs)).

Definition tokens_of_body (now : Qc) (body : JsonBody (list DeployTx)) : list TokenMint :=
  match body with
  | BodyRaises => []
  | BodyOther => []
  | BodyOf txs => deployed_tokens now txs
  end.

Definition get_deployed_tokens (p : DevProvider) (now : Qc) (deployer : string)
    : Logged (list TokenMint) :=
  _ ← ask (ReqCreated deployer);
  match created_by p deployer with
  | NoReply => mret []
  | Reply status body =>
      if bool_decide (status ≠ 200) then
        _ ← ask (ReqAllTransactions deployer);
        match all_by p deployer with
        | NoReply => mret []
        | Reply status2 body2 =>
            if bool_decide (status2 = 200) then mret (tokens_of_body now body2)
            else mret []
        end
      else mret (tokens_of_body now body)
  end.

(** ** Step 3: [enrich_with_dexscreener] *)

(** [range(0, stop, step)] *)
Definition py_range_step (stop step : nat) : list nat :=
  map (fun k => (k * step)%nat) (seq 0 ((stop + step - 1) / step)).

(** [[mints[i:i+29] for i in range(0, len(mints), 29)]] *)
Definition chunks_of (mints : list string) : list (list string) :=
  map (fun i => take 29 (drop i mints)) (py_range_step (length mints) 29).

(** [if mint and mint not in dex_data: dex_data[mint] = pair] *)
Definition add_pair (dex_data : gmap string Pair) (pair : Pair) : gmap string Pair :=
  let m := base_address pair in
  if nonempty m && negb (bool_decide (is_Some (dex_data !! m)))
  then <[ m := pair ]> dex_data
  else dex_data.

(** The loop over [result["pairs"]]: the pairs are stored one by one, so
    a pair that raises ends the batch with the pairs before it stored. *)
Fixpoint store_pairs (dex_data : gmap string Pair) (pairs : list (option Pair))
    : gmap string Pair :=
  match pairs with
  | [] => dex_data
  | Some entry :: rest => store_pairs (add_pair dex_data entry) rest
  | None :: _ => dex_data
  end.

(** What one batch reply adds; a batch that fails before its first pair
    adds nothing. *)
Definition absorb (dex_data : gmap string Pair) (reply : HttpReply (list (option Pair)))
    : gmap string Pair :=
  match reply with
  | Reply status (BodyOf pairs) =>
      if bool_decide (status = 200) then store_pairs dex_data pairs else dex_data
  | _ => dex_data
  end.

Fixpoint fetch_chunks (p : DevProvider) (chunks : list (list string))
    (dex_data : gmap string Pair) : Logged (gmap string Pair) :=
  match chunks with
  | [] => mret dex_data
  | chunk :: rest =>
      _ ← ask (ReqDexScreener chunk);
      fetch_chunks p rest (absorb dex_data (dexscreener p chunk))
  end.

(** [a or b] on optional numbers: the first one that is present and not 0. *)
Definition truthy (x : option Qc) : option Qc :=
  match x with
  | Some v => if Num.eqb v 0%Qc then None else Some v
  | None => None
  end.

Definition enrich_token (dex_data : gmap string Pair) (token : TokenMint) : Enriched :=
  match dex_data !! token_mint token with
  | Some entry =>
      {| e_mint := token_mint token;
         e_name := default "Unknown" (base_name entry);
         e_symbol := default "???" (base_symbol entry);
         market_cap :=
           match truthy (fdv entry) with
           | Some v => v
           | None => default 0%Qc (truthy (marketCap entry))
           end;
         price_usd := default "0" (priceUsd entry);
         volume_24h := default 0%Qc (volume_h24 entry);
         price_change_24h := default 0%Qc (priceChange_h24 entry);
         e_timestamp := token_timestamp token;
         on_dex := true |}
  | None =>
      {| e_mint := token_mint token;
         e_name := "Unknown";
         e_symbol := "???";
         market_cap := 0%Qc;
         price_usd := "0";
         volume_24h := 0%Qc;
         price_change_24h := 0%Qc;
         e_timestamp := token_timestamp token;
         on_dex := false |}
  end.

Definition enrich_with_dexscreener (p : DevProvider) (tokens : list TokenMint)
    : Logged (list Enriched) :=
  let mints := map token_mint tokens in
  dex_data ← fetch_chunks p (chunks_of mints) ∅;
  mret (sort_desc market_cap Num.ltb (map (enrich_token dex_data) tokens)).

(** ** Step 4: [build_dev_report] *)

(** [f"{x:.nf}"]: [x] rounded to [nd] decimals, half to even. *)
Definition fmt_fixed (nd : nat) (x : Qc) : string :=
  let scale := 10 ^ Z.of_nat nd in
  let r := Num.round_half_even (Qmult (Num.abs x) (inject_Z scale)) in
  let digits := pretty.pretty (r mod scale) in
  let sign := if Num.ltb x 0%Qc then "-" else "" in
  match nd with
  | O => sign +:+ pretty.pretty r
  | S _ =>
      sign +:+ pretty.pretty (r / scale) +:+ "." +:+
      String.concat "" (repeat "0" (nd - String.length digits)) +:+ digits
  end.

Definition fmt_mc (mc : Qc) : string :=
  if Num.geb mc (Num.of_Z 1000000) then "$" +:+ fmt_fixed 2 (mc / Num.of_Z 1000000)%Qc +:+ "M"
  else if Num.geb mc (Num.of_Z 1000) then "$" +:+ fmt_fixed 1 (mc / Num.of_Z 1000)%Qc +:+ "K"
  else "$" +:+ fmt_fixed 0 mc.

Record DevReport := {
  deployer : string;
  token_count : nat;
  tokens : list Enriched;
  token_lines : list string;
  biggest_launch : option Enriched;
  biggest_mc : Qc;
  dead_count : nat;
  risk : string;
  risk_note : string;
  summary : string
}.

Definition NO_HISTORY : string := "🟡 No history found".
Definition SERIAL_LAUNCHER : string := "🔴 Serial launcher".
Definition PROVEN_DEV : string := "🟢 Proven dev".
Definition SOME_TRACK_RECORD : string := "🟡 Some track record".
Definition LOW_TRACK_RECORD : string := "🟠 Low track record".

Definition token_line (i : nat) (t : Enriched) : string :=
  let mc_str := if Num.ltb 0%Qc (market_cap t) then fmt_mc (market_cap t)
                else "Dead/No data" in
  pretty.pretty (S i) +:+ ". " +:+ e_name t +:+ " ($" +:+ e_symbol t +:+ ") — " +:+ mc_str.

Definition build_dev_report (dev : string) (current_ca : string) (toks : list Enriched)
    : DevReport :=
  let total := length toks in
  let live := List.filter on_dex toks in
  let dead := List.filter (fun t => negb (on_dex t)) toks in
  let biggest := head live in
  let big_mc := match biggest with Some t => market_cap t | None => 0%Qc end in
  let assessment :=
    if bool_decide (total = 0%nat) then (NO_HISTORY, "First launch or wallet is new.")
    else if bool_decide (length live < length dead)%nat && bool_decide (2 < total)%nat then
      (SERIAL_LAUNCHER,
       pretty.pretty (length dead) +:+ "/" +:+ pretty.pretty total +:+
       " previous tokens are dead or untraded.")
    else if Num.ltb (Num.of_Z 1000000) big_mc then
      (PROVEN_DEV, "Has launched a token that hit " +:+ fmt_mc big_mc +:+ ".")
    else if Num.ltb (Num.of_Z 100000) big_mc then
      (SOME_TRACK_RECORD, "Best previous launch peaked at " +:+ fmt_mc big_mc +:+ ".")
    else (LOW_TRACK_RECORD, "No significant previous launches found.") in
  let opening :=
    "This dev has launched " +:+ pretty.pretty total +:+ " token(s) in the last 60 days. " in
  {| deployer := dev;
     token_count := total;
     tokens := toks;
     token_lines := imap token_line (take 5 toks);
     biggest_launch := biggest;
     biggest_mc := big_mc;
     dead_count := length dead;
     risk := fst assessment;
     risk_note := snd assessment;
     summary :=
       match biggest with
       | Some t =>
           opening +:+ "Their biggest success was " +:+ e_name t +:+ " ($" +:+ e_symbol t +:+
           ") which hit " +:+ fmt_mc big_mc +:+ "."
       | None =>
           opening +:+ "None of their previous tokens are currently trading on DEX."
       end |}.

(** ** [get_dev_alpha] *)

(** The three dict shapes [get_dev_alpha] returns. *)
Inductive DevResult :=
| DevError (error : string)
| DevNoTokens (dev : string) (note : string)
| DevHistory (report : DevReport).

(** [s[-n:]] *)
Definition py_suffix (n : nat) (s : string) : string :=
  String.substring (String.length s - n) n s.

Definition no_launch_note (dev : string) : string :=
  "Deployer `" +:+ String.substring 0 6 dev +:+ "..." +:+ py_suffix 4 dev +:+
  "` has no other token launches found in recent history.".

Definition get_dev_alpha (p : DevProvider) (now : Qc) (ca : string) : Logged DevResult :=
  found ← get_deployer p ca;
  match found with
  | None => mret (DevError "Could not identify deployer wallet.")
  | Some dev =>
      if nonempty dev then
        toks ← get_deployed_tokens p now dev;
        match toks with
        | [] => mret (DevNoTokens dev (no_launch_note dev))
        | _ :: _ =>
            enriched ← enrich_with_dexscreener p toks;
            mret (DevHistory (build_dev_report dev ca enriched))
        end
      else mret (DevError "Could not identify deployer wallet.")
  end.

End Dev.

(** ** Vocabulary for the properties of the dev-alpha functions *)

Module DevSpec.
Import Dev.

(** [tx] names [m] as a mint: as the first account of an instruction of the
    Token program, or as the non-empty mint of a token transfer. *)
Definition minted_in (tx : DeployTx) (m : string) : Prop :=
  (∃ instruction, instruction ∈ instructions tx ∧
     programId instruction = TOKEN_PROGRAM ∧ head (accounts instruction) = Some m) ∨
  (m ∈ transfer_mints tx ∧ m ≠ "").

Definition in_window (now : Qc) (ts : Z) : Prop :=
  (window_start now <= Num.of_Z ts)%Qc.

(** The state of the loop of [get_deployed_tokens] is consistent: [seen]
    holds the mints of [token_mints], each once, and every entry
    satisfies [P]. *)
Definition consistent (P : TokenMint → Prop) (st : Found) : Prop :=
  NoDup (map token_mint (snd st)) ∧
  (∀ m, m ∈ fst st ↔ m ∈ map token_mint (snd st)) ∧
  Forall P (snd st).


(** Each token found comes from a transaction of the reply that is inside
    the window and names its mint. *)
Definition traced (now : Qc) (txs : list DeployTx) (t : TokenMint) : Prop :=
  ∃ tx, tx ∈ txs ∧ token_timestamp t = tx_timestamp tx ∧
        in_window now (tx_timestamp tx) ∧ minted_in tx (token_mint t).

(** The invariant alone. *)
Definition sound : Found → Prop := consistent (fun _ => True).


(** The pairs of a batch up to the first one that cannot be read. *)
Fixpoint read_pairs (pairs : list (option Pair)) : list Pair :=
  match pairs with
  | Some entry :: rest => entry :: read_pairs rest
  | _ => []
  end.

(** The pairs of the batches that were answered with status 200 and a
    well-formed body, each batch up to its first pair that cannot be read,
    in the order of the batches. *)
Definition pairs_of_reply (reply : HttpReply (list (option Pair))) : list Pair :=
  match reply with
  | Reply status (BodyOf pairs) =>
      if bool_decide (status = 200) then read_pairs pairs else []
  | _ => []
  end.

Definition answers (p : DevProvider) (chunks : list (list string)) : list Pair :=
  flat_map (fun chunk => pairs_of_reply (dexscreener p chunk)) chunks.

(** The first pair of [pairs] whose base token is [m]. *)
Definition first_pair (m : string) (pairs : list Pair) : option Pair :=
  List.find (fun pr => bool_decide (base_address pr = m)) pairs.

(** What [enrich_with_dexscreener] reports for a token, given the pairs
    that were answered. *)
Definition described_by (answered : list Pair) (e : Enriched) : Prop :=
  match first_pair (e_mint e) answered with
  | Some pr =>
      if nonempty (e_mint e) then
        on_dex e = true ∧
        e_name e = default "Unknown" (base_name pr) ∧
        e_symbol e = default "???" (base_symbol pr) ∧
        price_usd e = default "0" (priceUsd pr)
      else on_dex e = false
  | None => on_dex e = false
  end.

(** The defaults of a token without a pair. *)
Definition blank (e : Enriched) : Prop :=
  e_name e = "Unknown" ∧ e_symbol e = "???" ∧ market_cap e = 0%Qc ∧
  price_usd e = "0" ∧ volume_24h e = 0%Qc ∧ price_change_24h e = 0%Qc.

Definition as_token (e : Enriched) : TokenMint :=
  {| token_mint := e_mint e; token_timestamp := e_timestamp e |}.

Definition by_market_cap (a b : Enriched) : Prop := (market_cap b <= market_cap a)%Qc.



(** No token that trades has a larger market cap than the one reported as
    the biggest launch. *)
Definition tops (r : DevReport) : Prop :=
  Forall (fun t => on_dex t = true → (market_cap t <= biggest_mc r)%Qc) (tokens r).

(** A key that ends the loop over the account keys with [d]. *)
Definition names_payer (d : string) (key : AccountKey) : Prop :=
  key = KeyString d ∨ key = KeyObject true true (Some d).

(** A key the loop steps over. *)
Definition passed_over (key : AccountKey) : Prop :=
  match key with
  | KeyObject signer writable _ => signer && writable = false
  | KeyString _ => False
  | KeyOther => True
  end.

Definition is_dex_request (r : DevRequest) : bool :=
  match r with ReqDexScreener _ => true | _ => false end.
End DevSpec.

Module DevFixture.
Import Dev.

Definition ca : string := "TokenCA".
Definition dev_wallet : string := "DevWallet".
Definition now : Qc := Num.of_Z 1700000000.

Definition launch_tx : DeployTx :=
  {| tx_timestamp := 1699990000;
     instructions := [ {| programId := TOKEN_PROGRAM; accounts := ["MintA"; "Owner"] |};
                       {| programId := "ComputeBudget"; accounts := ["MintZ"] |} ];
     transfer_mints := ["MintB"; ""; "MintA"] |}.

Definition second_tx : DeployTx :=
  {| tx_timestamp := 1699000000;
     instructions := [];
     transfer_mints := ["MintC"; "MintB"] |}.

Definition old_tx : DeployTx :=
  {| tx_timestamp := 1600000000;
     instructions := [ {| programId := TOKEN_PROGRAM; accounts := ["MintOld"] |} ];
     transfer_mints := [] |}.

Definition history : list DeployTx := [launch_tx; second_tx; old_tx].

Definition pair_a : Pair :=
  {| base_address := "MintA"; base_name := Some "Alpha"; base_symbol := Some "ALP";
     fdv := Some (Num.of_Z 2500000); marketCap := Some (Num.of_Z 2400000);
     priceUsd := Some "0.0025"; volume_h24 := Some (Num.of_Z 1000);
     priceChange_h24 := None |}.

Definition pair_c : Pair :=
  {| base_address := "MintC"; base_name := None; base_symbol := None;
     fdv := Some 0%Qc; marketCap := Some (Num.of_Z 5000);
     priceUsd := None; volume_h24 := None; priceChange_h24 := None |}.

(** A renounced mint whose oldest transaction was paid by [dev_wallet]. *)
Definition chain : DevProvider :=
  {| account_info := fun _ => RpcValue None;
     signatures_for := fun _ => RpcValue [Some "sigNew"; Some "sigOld"];
     transaction_keys := fun sig =>
       if bool_decide (sig = "sigOld")
       then RpcValue [KeyObject false true (Some "Program"); KeyOther;
                      KeyObject true true (Some dev_wallet)]
       else RpcFailed;
     created_by := fun _ => Reply 200 (BodyOf history);
     all_by := fun _ => NoReply;
     dexscreener := fun _ => Reply 200 (BodyOf [Some pair_c; Some pair_a; Some pair_c]) |}.

(** The same chain while DexScreener does not answer. *)
Definition chain_dex_down : DevProvider :=
  {| account_info := account_info chain;
     signatures_for := signatures_for chain;
     transaction_keys := transaction_keys chain;
     created_by := created_by chain;
     all_by := all_by chain;
     dexscreener := fun _ => Reply 429 BodyRaises |}.

Definition launches : list TokenMint := deployed_tokens now history.

Definition enriched : list Enriched := result_of (enrich_with_dexscreener chain launches).

End DevFixture.

(* ===================================================================== *)
(** * The risk scan: the four scans and their scores *)
(* ===================================================================== *)

(** The scans read their replies from the provider below; [time.time()] is
    the parameter [now]. *)

Module Risk.

(** A value of a result dict: a number, or the string ["N/A"].
    [isinstance(v, (int, float))] holds for the first only. *)
Inductive Metric :=
| Number (x : Qc)
| NotAvailable.

(** [int(x)]: truncation towards zero. *)
Definition py_int (x : Qc) : Z := Z.quot (Qnum x) (Z.pos (Qden x)).

(** [min(a, b)] and [max(a, b)] *)
Definition py_min (a b : Qc) : Qc := if Num.ltb b a then b else a.
Definition py_max (a b : nat) : nat := if (a <? b)%nat then b else a.

(** One enhanced transaction, as the scans read it. *)
Record ChainTx := {
  feePayer : string;
  timestamp : Z;
  slot : Z
}.

(** [slot_map.setdefault(slot, []).append(fp)] on an insertion-ordered
    dict. *)
Fixpoint append_to (s : Z) (fp : string) (slot_map : list (Z * list string))
    : list (Z * list string) :=
  match slot_map with
  | [] => [(s, [fp])]
  | (s', wallets) :: rest =>
      if decide (s' = s) then (s', wallets ++ [fp]) :: rest
      else (s', wallets) :: append_to s fp rest
  end.

(** ** [scan_wallets] *)

Record WalletData := {
  wallet_count : Metric;
  cluster_pct : Metric;
  fresh_wallet_pct : Metric
}.

Definition _wallet_defaults : WalletData :=
  {| wallet_count := NotAvailable; cluster_pct := NotAvailable;
     fresh_wallet_pct := NotAvailable |}.

(** The locals of the loop of [scan_wallets]. *)
Record WalletLoop := {
  recent_wallets : gset string;
  all_wallets : gset string;
  wallet_slots : list (Z * list string)
}.

Definition wallet_step (cutoff : Qc) (st : WalletLoop) (tx : ChainTx) : WalletLoop :=
  let fp := feePayer tx in
  if nonempty fp then
    {| all_wallets := {[ fp ]} ∪ all_wallets st;
       wallet_slots := append_to (slot tx) fp (wallet_slots st);
       recent_wallets :=
         if Num.ltb cutoff (Num.of_Z (timestamp tx))
         then {[ fp ]} ∪ recent_wallets st
         else recent_wallets st |}
  else st.

(** [len(set(ws)) > 2] *)
Definition is_cluster (ws : list string) : bool :=
  (2 <? size (list_to_set ws : gset string))%nat.

Definition percent (part whole : nat) : Qc :=
  (Num.of_nat part / Num.of_nat (py_max whole 1) * Num.of_Z 100)%Qc.

(** Lines 77-102: the statistics over the transfers. *)
Definition wallet_stats (now : Qc) (accounts : list string) (txs : list ChainTx)
    : WalletData :=
  let cutoff := (now - Num.of_Z 86400)%Qc in
  let st := fold_left (wallet_step cutoff) txs
              {| recent_wallets := ∅; all_wallets := ∅; wallet_slots := [] |} in
  let fresh_pct :=
    Num.round (percent (size (recent_wallets st)) (size (all_wallets st))) 1 in
  let clustered := length (List.filter is_cluster (map snd (wallet_slots st))) in
  let cluster_pct :=
    Num.round (py_min (percent clustered (length (wallet_slots st))) (Num.of_Z 100)) 1 in
  {| wallet_count := Number (Num.of_nat (length accounts));
     cluster_pct := Number cluster_pct;
     fresh_wallet_pct := Number fresh_pct |}.

(** ** [scan_lp] *)

(** The ["data"] of the Birdeye overview. *)
Record Overview := {
  liquidity : option Qc;
  v24hUSD : option Qc;
  ov_price : option Qc;
  mc : option Qc
}.

Record LpData := {
  lp_locked : string;
  lp_lock_duration : string;
  lp_liquidity_usd : Metric;
  volume_24h : Qc;
  price : Qc;
  market_cap : Qc
}.

Definition _lp_defaults : LpData :=
  {| lp_locked := "N/A"; lp_lock_duration := "N/A"; lp_liquidity_usd := Number 0%Qc;
     volume_24h := 0%Qc; price := 0%Qc; market_cap := 0%Qc |}.

(** [float(x or 0)] *)
Definition float_or_0 (x : option Qc) : Qc := default 0%Qc x.

Definition comma : Ascii.ascii := Ascii.ascii_of_nat 44.

(** The digits of a number with a comma before every group of three. *)
Fixpoint group3 (rev_digits : list Ascii.ascii) (k : nat) : list Ascii.ascii :=
  match rev_digits with
  | [] => []
  | d :: rest =>
      match k, rest with
      | 2%nat, _ :: _ => d :: comma :: group3 rest 0
      | _, _ => d :: group3 rest (S k)
      end
  end.

(** [f"{x:,.0f}"] *)
Definition fmt_thousands (x : Qc) : string :=
  let r := Num.round_half_even (this (Num.abs x)) in
  let sign := if Num.ltb x 0%Qc then "-" else "" in
  sign +:+ string_of_list_ascii
             (rev (group3 (rev (list_ascii_of_string (pretty.pretty r))) 0)).

Definition lp_status (liq : Qc) : string :=
  if Num.eqb liq 0%Qc then "⚠ No liquidity data found"
  else if Num.ltb liq (Num.of_Z 1000) then
    "🔴 Very low — $" +:+ fmt_thousands liq +:+ " (high rug risk)"
  else if Num.ltb liq (Num.of_Z 10000) then "🟡 Low — $" +:+ fmt_thousands liq
  else if Num.ltb liq (Num.of_Z 50000) then "🟢 Moderate — $" +:+ fmt_thousands liq
  else "🟢 Strong — $" +:+ fmt_thousands liq.

Definition lp_of (data : Overview) : LpData :=
  let liq := float_or_0 (liquidity data) in
  {| lp_locked := lp_status liq;
     lp_lock_duration := "Verify lock on Raydium/Unicrypt";
     lp_liquidity_usd := Number liq;
     volume_24h := float_or_0 (v24hUSD data);
     price := float_or_0 (ov_price data);
     market_cap := float_or_0 (mc data) |}.

(** ** [scan_supply] and [get_total_supply] *)

(** A token amount of the RPC: [uiAmount] may be null, [amount] and
    [decimals] default to 0. *)
Record TokenAmount := {
  uiAmount : option Qc;
  amount : Z;
  decimals : Z
}.

(** [10 ** dec] *)
Definition pow10 (dec : Z) : Qc :=
  if 0 <=? dec then Num.of_Z (10 ^ dec) else (1 / Num.of_Z (10 ^ (- dec)))%Qc.

(** [ui = item.get("uiAmount")], with the fallback
    [raw_amt / (10 ** dec) if dec else raw_amt]. *)
Definition ui_of (item : TokenAmount) : Qc :=
  match uiAmount item with
  | Some ui => ui
  | None =>
      if decimals item =? 0 then Num.of_Z (amount item)
      else (Num.of_Z (amount item) / pow10 (decimals item))%Qc
  end.

Record SupplyData := {
  top10_pct : Metric;
  top1_pct : Metric;
  gini : Metric;
  holder_count : Metric
}.

Definition _supply_defaults : SupplyData :=
  {| top10_pct := NotAvailable; top1_pct := NotAvailable; gini := NotAvailable;
     holder_count := NotAvailable |}.

(** The body of [getTokenLargestAccounts]: whether ["error"] is set, and
    [result.value]. *)
Record LargestAccounts := {
  rpc_error : bool;
  value : list TokenAmount
}.

(** Lines 190-218: the statistics over the largest accounts. *)
Definition supply_stats (total_supply : Qc) (items : list TokenAmount) : SupplyData :=
  let amounts := map ui_of items in
  let amounts := sort_desc id Num.ltb (List.filter (fun a => Num.ltb 0%Qc a) amounts) in
  match amounts with
  | [] => _supply_defaults
  | _ :: _ =>
      let shares := map (fun a => (a / total_supply)%Qc) amounts in
      {| top10_pct := Number (Num.round (py_sum (take 10 shares) * Num.of_Z 100)%Qc 1);
         top1_pct := Number (Num.round (default 0%Qc (head shares) * Num.of_Z 100)%Qc 2);
         gini := Number (Num.round (compute_gini shares) 2);
         holder_count := Number (Num.of_nat (length amounts)) |}
  end.

(** ** [scan_mev] *)

Record MevData := {
  mev_bots : Metric;
  sandwich_count : Metric
}.

Definition _mev_defaults : MevData :=
  {| mev_bots := NotAvailable; sandwich_count := NotAvailable |}.

(** [len(wallets) >= 3 and wallets[0] == wallets[-1] and wallets[0] != ""] *)
Definition is_sandwich (wallets : list string) : bool :=
  bool_decide (3 ≤ length wallets)%nat &&
  match head wallets, list.last wallets with
  | Some first, Some final => bool_decide (first = final) && nonempty first
  | _, _ => false
  end.

(** [Counter(...)] *)
Definition counter (items : list string) : Dict.t nat :=
  fold_left (fun d x => Dict.update 0%nat S x d) items [].

Definition slot_map_of (txs : list ChainTx) : list (Z * list string) :=
  fold_left (fun m tx => append_to (slot tx) (feePayer tx) m) txs [].

(** Lines 267-284. *)
Definition mev_stats (txs : list ChainTx) : MevData :=
  let slot_map := slot_map_of txs in
  let sandwiches := length (List.filter is_sandwich (map snd slot_map)) in
  let payer_counts := counter (map feePayer txs) in
  let bot_wallets := length (List.filter (fun cnt => (5 <=? cnt)%nat) (map snd payer_counts)) in
  {| mev_bots := Number (Num.of_nat bot_wallets);
     sandwich_count := Number (Num.of_nat sandwiches) |}.

(** ** The services *)

Record ScanProvider := {
  token_accounts : string → Dev.HttpReply (list string);
  transfers : string → Dev.HttpReply (list ChainTx);
  token_overview : string → Dev.HttpReply (option Overview);
  token_supply : string → RpcReply TokenAmount;
  largest_accounts : string → Dev.HttpReply LargestAccounts;
  history : string → Dev.HttpReply (list ChainTx)
}.

Definition scan_wallets (p : ScanProvider) (now : Qc) (ca : string) : WalletData :=
  match token_accounts p ca with
  | Dev.NoReply => _wallet_defaults
  | Dev.Reply status body =>
      if bool_decide (status ≠ 200) then _wallet_defaults
      else
        match body with
        | Dev.BodyOf accounts =>
            if bool_decide (accounts = []) then _wallet_defaults
            else
              match transfers p ca with
              | Dev.NoReply => _wallet_defaults
              | Dev.Reply status2 body2 =>
                  if bool_decide (status2 = 200) then
                    match body2 with
                    | Dev.BodyRaises => _wallet_defaults
                    | Dev.BodyOther => wallet_stats now accounts []
                    | Dev.BodyOf txs => wallet_stats now accounts txs
                    end
                  else wallet_stats now accounts []
              end
        | _ => _wallet_defaults
        end
  end.

(** The body of the overview is [None] when ["data"] is null. *)
Definition scan_lp (p : ScanProvider) (ca : string) : LpData :=
  match token_overview p ca with
  | Dev.Reply status body =>
      if bool_decide (status ≠ 200) then _lp_defaults
      else
        match body with
        | Dev.BodyOf (Some data) => lp_of data
        | _ => _lp_defaults
        end
  | Dev.NoReply => _lp_defaults
  end.

Definition get_total_supply (p : ScanProvider) (ca : string) : Qc :=
  match token_supply p ca with
  | RpcFailed => 0%Qc
  | RpcValue val => ui_of val
  end.

Definition scan_supply (p : ScanProvider) (ca : string) : SupplyData :=
  let total_supply := get_total_supply p ca in
  if Num.eqb total_supply 0%Qc then _supply_defaults
  else
    match largest_accounts p ca with
    | Dev.Reply status (Dev.BodyOf raw) =>
        if bool_decide (status ≠ 200) then _supply_defaults
        else if rpc_error raw then _supply_defaults
        else supply_stats total_supply (value raw)
    | _ => _supply_defaults
    end.

Definition scan_mev (p : ScanProvider) (ca : string) : MevData :=
  match history p ca with
  | Dev.Reply status body =>
      if bool_decide (status ≠ 200) then _mev_defaults
      else
        match body with
        | Dev.BodyOf txs => mev_stats txs
        | _ => _mev_defaults
        end
  | Dev.NoReply => _mev_defaults
  end.

(** ** Scoring *)

Definition score_wallets (d : WalletData) : Z :=
  let score := 0%Qc in
  let score :=
    match cluster_pct d with
    | Number cp => (score + py_min (cp * Q2Qc (4 # 5)) (Num.of_Z 50))%Qc
    | NotAvailable => score
    end in
  let score :=
    match fresh_wallet_pct d with
    | Number fp => (score + py_min (fp * Q2Qc (1 # 2)) (Num.of_Z 50))%Qc
    | NotAvailable => score
    end in
  py_int score.

Definition score_lp (d : LpData) : Z :=
  match lp_liquidity_usd d with
  | Number liq =>
      if Num.eqb liq 0%Qc then 80
      else if Num.ltb liq (Num.of_Z 1000) then 90
      else if Num.ltb liq (Num.of_Z 5000) then 70
      else if Num.ltb liq (Num.of_Z 20000) then 40
      else 20
  | NotAvailable => 50
  end.

Definition score_supply (d : SupplyData) : Z :=
  let score := 0 in
  let score :=
    match top10_pct d with
    | Number top10 =>
        if Num.ltb (Num.of_Z 80) top10 then score + 60
        else if Num.ltb (Num.of_Z 50) top10 then score + 40
        else if Num.ltb (Num.of_Z 30) top10 then score + 20
        else score
    | NotAvailable => score
    end in
  let score :=
    match gini d with
    | Number g => score + py_int (g * Num.of_Z 40)%Qc
    | NotAvailable => score
    end in
  Z.min score 100.

Definition score_mev (d : MevData) : Qc :=
  let score := 0%Qc in
  let score :=
    match sandwich_count d with
    | Number sc => (score + py_min (sc * Num.of_Z 5) (Num.of_Z 60))%Qc
    | NotAvailable => score
    end in
  let score :=
    match mev_bots d with
    | Number bots => (score + py_min (bots * Num.of_Z 20) (Num.of_Z 40))%Qc
    | NotAvailable => score
    end in
  py_min score (Num.of_Z 100).

Definition LOW : string := "🟢 Low".
Definition MEDIUM : string := "🟡 Medium".
Definition HIGH : string := "🟠 High".
Definition CRITICAL : string := "🔴 Critical".

Definition risk_label (score : Qc) : string :=
  if Num.geb (Num.of_Z 30) score then LOW
  else if Num.geb (Num.of_Z 60) score then MEDIUM
  else if Num.geb (Num.of_Z 80) score then HIGH
  else CRITICAL.

(** [int(ws*0.30 + ls*0.25 + ss*0.25 + ms*0.20)], line 38 of [scan_token]. *)
Definition risk_score (ws ls ss ms : Qc) : Z :=
  py_int (ws * Q2Qc (3 # 10) + ls * Q2Qc (1 # 4) + ss * Q2Qc (1 # 4) + ms * Q2Qc (1 # 5))%Qc.

(** Lines 33-42 of [scan_token]: the scores of the four scans, the overall
    score and the four labels. *)
Record Assessment := {
  overall : Z;
  wallet_risk : string;
  lp_risk : string;
  supply_risk : string;
  mev_risk : string
}.

Definition assess (wallet_data : WalletData) (lp_data : LpData)
    (supply_data : SupplyData) (mev_data : MevData) : Assessment :=
  let ws := score_wallets wallet_data in
  let ls := score_lp lp_data in
  let ss := score_supply supply_data in
  let ms := score_mev mev_data in
  {| overall := risk_score (Num.of_Z ws) (Num.of_Z ls) (Num.of_Z ss) ms;
     wallet_risk := risk_label (Num.of_Z ws);
     lp_risk := risk_label (Num.of_Z ls);
     supply_risk := risk_label (Num.of_Z ss);
     mev_risk := risk_label ms |}.

End Risk.

(** ** Vocabulary for the properties of the risk scan *)

Module RiskSpec.
Import Risk.

(** The fee payers of the transactions of slot [s], in order. *)
Definition payers_in (s : Z) (txs : list ChainTx) : list string :=
  map feePayer (List.filter (fun tx => bool_decide (slot tx = s)) txs).

(** How many transactions [w] paid for. *)
Definition paid_by (w : string) (txs : list ChainTx) : nat :=
  length (List.filter (fun tx => bool_decide (feePayer tx = w)) txs).

(** The number inside a metric, as a natural number. *)
Definition counts (m : Metric) (n : nat) : Prop := m = Number (Num.of_nat n).

(** A metric that is a number between [lo] and [hi]. *)
Definition within (lo hi : Z) (m : Metric) : Prop :=
  ∃ x, m = Number x ∧ (Num.of_Z lo <= x)%Qc ∧ (x <= Num.of_Z hi)%Qc.


(** A percentage that is missing or lies between 0 and 100. *)
Definition percentage (m : Metric) : Prop :=
  m = NotAvailable ∨ ∃ x, m = Number x ∧ (Num.of_Z 0 <= x)%Qc ∧ (x <= Num.of_Z 100)%Qc.

End RiskSpec.

Module RiskFixture.
Import Risk.

Definition ca : string := "TokenCA".
Definition now : Qc := Num.of_Z 1700000000.

(** No service answers. *)
Definition offline : ScanProvider :=
  {| token_accounts := fun _ => Dev.NoReply;
     transfers := fun _ => Dev.NoReply;
     token_overview := fun _ => Dev.NoReply;
     token_supply := fun _ => RpcFailed;
     largest_accounts := fun _ => Dev.NoReply;
     history := fun _ => Dev.NoReply |}.

End RiskFixture.

(* ===================================================================== *)
(** * Invites: [src/invites.py] *)
(* ===================================================================== *)

(** The module keeps its state in two JSON files; a file that does not
    exist reads as empty.  [secrets.token_urlsafe(16)] is the parameter
    [token] of [generate_invite]. *)

Module Invites.

Record Invite := {
  used : bool;
  redeemed_by : option Z
}.

(** [invites.json] and [authorized_users.json]; [None] when the file does
    not exist. *)
Record Files := {
  invites_file : option (gmap string Invite);
  users_file : option (list Z)
}.

Definition _load_invites (fs : Files) : gmap string Invite :=
  default ∅ (invites_file fs).

Definition _save_invites (data : gmap string Invite) (fs : Files) : Files :=
  {| invites_file := Some data; users_file := users_file fs |}.

Definition _load_users (fs : Files) : list Z :=
  default [] (users_file fs).

Definition _save_users (data : list Z) (fs : Files) : Files :=
  {| invites_file := invites_file fs; users_file := Some data |}.

Definition generate_invite (token : string) (fs : Files) : string * Files :=
  let invites := _load_invites fs in
  let invites := <[ token := {| used := false; redeemed_by := None |} ]> invites in
  (token, _save_invites invites fs).

Definition use_invite (token : string) (user_id : Z) (fs : Files) : bool * Files :=
  let invites := _load_invites fs in
  match invites !! token with
  | None => (false, fs)
  | Some invite =>
      if used invite then (false, fs)
      else
        let invites := <[ token := {| used := true; redeemed_by := Some user_id |} ]> invites in
        let fs := _save_invites invites fs in
        let users := _load_users fs in
        if bool_decide (user_id ∈ users) then (true, fs)
        else (true, _save_users (users ++ [user_id]) fs)
  end.

Definition is_authorized (user_id : Z) (fs : Files) : bool :=
  bool_decide (user_id ∈ _load_users fs).

Definition authorize_user (user_id : Z) (fs : Files) : Files :=
  let users := _load_users fs in
  if bool_decide (user_id ∈ users) then fs
  else _save_users (users ++ [user_id]) fs.

Definition list_invites (fs : Files) : gmap string Invite := _load_invites fs.

Definition get_authorized_users (fs : Files) : list Z := _load_users fs.

(** ** Runs of the module *)

Inductive Call :=
| Generate (token : string)
| Redeem (token : string) (user_id : Z)
| Authorize (user_id : Z).

(** The calls in order; the result holds what each [use_invite] returned. *)
Fixpoint run (calls : list Call) (fs : Files) : list bool * Files :=
  match calls with
  | [] => ([], fs)
  | Generate token :: rest => run rest (snd (generate_invite token fs))
  | Redeem token user_id :: rest =>
      let r := use_invite token user_id fs in
      let out := run rest (snd r) in
      (fst r :: fst out, snd out)
  | Authorize user_id :: rest => run rest (authorize_user user_id fs)
  end.

Definition is_generate (c : Call) : bool :=
  match c with Generate _ => true | _ => false end.

(** The invites of the file that can still be redeemed. *)
Definition open_invites (fs : Files) : gmap string Invite :=
  filter (fun kv => used (snd kv) = false) (_load_invites fs).

Definition no_files : Files := {| invites_file := None; users_file := None |}.

End Invites.

(* ===================================================================== *)
(** * Double precision *)
(* ===================================================================== *)

(** A Python [float] is an IEEE 754 binary64 number.  [Binary64] gives the
    operations [calculate_wallet_pnl] uses over [spec_float], the standard
    library's executable specification of the format (53 bits of precision,
    round to nearest, ties to even; signed zeros, infinities and NaN).
    The numeric claims about the trade reconstructor are stated over this
    arithmetic: the sums of the source are not associative, [0.1 + 0.2]
    is not [0.3], and a report may hold an infinity or a NaN. *)

Module Binary64.

Definition prec : Z := 53.
Definition emax : Z := 1024.

Definition float : Type := spec_float.

(** [0.0] *)
Definition zero : float := S754_zero false.

(** [x + y], [x - y], [x * y]. *)
Definition add : float → float → float := SFadd prec emax.
Definition sub : float → float → float := SFsub prec emax.
Definition mul : float → float → float := SFmul prec emax.

(** [x / y] for [y != 0]; Python raises [ZeroDivisionError] otherwise, and
    every division of the source has a divisor that is not zero. *)
Definition div : float → float → float := SFdiv prec emax.

(** [x < y] and [x == y]: both are false when an operand is NaN. *)
Definition ltb : float → float → bool := SFltb.
Definition eqb : float → float → bool := SFeqb.

(** [abs(x)] *)
Definition abs : float → float := SFabs.

(** The double nearest to [n / d]: the value of a decimal literal, and of
    the true division of two integers. *)
Definition ratio (n : Z) (d : positive) : float :=
  match n with
  | Z0 => zero
  | Zpos m => div (S754_finite false m 0) (S754_finite false d 0)
  | Zneg m => div (S754_finite true m 0) (S754_finite false d 0)
  end.

(** The conversion of an [int] operand: the nearest double, or
    [OverflowError] when the integer is too large. *)
Definition of_int (n : Z) : option float :=
  match binary_normalize prec emax n 0 false with
  | S754_infinity _ => None
  | x => Some x
  end.

(** lamports to SOL: [n / 1e9] for an [int] [n]. *)
Definition lamports_to_sol (n : Z) : option float :=
  x ← of_int n; Some (div x (ratio 1000000000 1)).

(** [max(0, x)]: Python returns the second argument only if it is
    strictly greater than the first; the [int] 0 it returns otherwise is
    kept as [0.0], which compares, adds and rounds the same. *)
Definition max0 (x : float) : float := if ltb zero x then x else zero.

(** [round(x, ndigits)]: the exact value of [x] is rounded half to even at
    [ndigits] decimals and the double nearest to that decimal is returned;
    an infinity or a NaN is returned as it is. *)
Definition round (x : float) (ndigits : nat) : float :=
  match x with
  | S754_finite s m e =>
      let scale := Z.to_pos (10 ^ Z.of_nat ndigits) in
      let scaled :=
        if 0 <=? e then Qmake (Z.pos m * 2 ^ e * Z.pos scale) 1
        else Qmake (Z.pos m * Z.pos scale) (Z.to_pos (2 ^ (- e))) in
      match Num.round_half_even scaled with
      | Z.pos k => div (S754_finite s k 0) (S754_finite false scale 0)
      | _ => S754_zero s
      end
  | _ => x
  end.

(** [sum] of the source's accumulation loops: [acc = 0.0], then
    [acc += x] for each [x] in list order. *)
Definition sum (l : list float) : float := fold_left add l zero.

(** Strictly above zero: a positive double or the positive infinity; the
    exponent of a double is never below the least one of the format. *)
Definition positive (x : float) : Prop :=
  match x with
  | S754_finite false _ e => emin prec emax ≤ e
  | S754_infinity false => True
  | _ => False
  end.

(** A finite double has an exponent of the format. *)
Definition bounded_below (x : float) : Prop :=
  match x with
  | S754_finite _ _ e => emin prec emax ≤ e
  | _ => True
  end.

End Binary64.

(* ===================================================================== *)
(** * [calculate_wallet_pnl] in double precision *)
(* ===================================================================== *)

(** The same function as in Step 3 above, with every [float] of the source
    a double: the balance change [nativeBalanceChange / 1e9], the
    quantities [float(tokenAmount)], the ledgers, the tracked holdings and
    the figures of the report.  The conversion of a balance change can
    raise ([OverflowError]), like [float] on a quantity. *)

Module Double.
Import Binary64.

(** One entry of [tx["tokenTransfers"]].  [tokenAmount] is the value of
    [float(transfer.get("tokenAmount", 0))], [None] when [float] raises. *)
Record TokenTransfer := {
  mint : string;
  fromUserAccount : string;
  toUserAccount : string;
  tokenAmount : option float
}.

Record Tx := {
  timestamp : Z;
  accountData : list AccountChange;
  tokenTransfers : list TokenTransfer
}.

Inductive Body :=
| BodyUndecodable
| BodyNotAList
| BodyList (txs : list Tx).

Inductive Response :=
| NoResponse
| HttpResponse (status : Z) (body : Body).

Record Trade := {
  side : Side;
  trade_mint : string;
  sol : float;
  amount : float;
  ts : Z
}.

(** One value of the [token_pnl] defaultdict. *)
Record Ledger := {
  buy_sol : float;
  sell_sol : float;
  buy_amount : float;
  sell_amount : float
}.

Definition new_ledger : Ledger :=
  {| buy_sol := zero; sell_sol := zero; buy_amount := zero; sell_amount := zero |}.

Definition add_buy (cost_sol amt : float) (data : Ledger) : Ledger :=
  {| buy_sol := add (buy_sol data) cost_sol;
     sell_sol := sell_sol data;
     buy_amount := add (buy_amount data) amt;
     sell_amount := sell_amount data |}.

Definition add_sell (recv_sol amt : float) (data : Ledger) : Ledger :=
  {| buy_sol := buy_sol data;
     sell_sol := add (sell_sol data) recv_sol;
     buy_amount := buy_amount data;
     sell_amount := add (sell_amount data) amt |}.

Record Replay := {
  trades : list Trade;
  token_pnl : Dict.t Ledger;
  holdings : Dict.t float
}.

Definition replay_start : Replay :=
  {| trades := []; token_pnl := []; holdings := [] |}.

(** [sol_change]: the last [accountData] entry of the wallet wins; every
    entry of the wallet is converted, so any of them can raise. *)
Definition sol_change_of (wallet : string) (tx : Tx) : option float :=
  for_each
    (fun sol_change change =>
       if decide (account change = wallet)
       then lamports_to_sol (nativeBalanceChange change)
       else Some sol_change)
    (accountData tx) zero.

(** The body of the loop over [tx["tokenTransfers"]]. *)
Definition replay_transfer (wallet : string) (sol_change : float) (tx_ts : Z)
    (st : Replay) (transfer : TokenTransfer) : option Replay :=
  amt ← tokenAmount transfer;
  let m := mint transfer in
  if bool_decide (m = "") || eqb amt zero then Some st
  else if bool_decide (toUserAccount transfer = wallet) && ltb sol_change zero then
    let cost_sol := abs sol_change in
    Some {| trades := trades st ++
              [{| side := BUY; trade_mint := m; sol := cost_sol; amount := amt; ts := tx_ts |}];
            token_pnl := Dict.update new_ledger (add_buy cost_sol amt) m (token_pnl st);
            holdings := Dict.set m (add (Dict.get_or m zero (holdings st)) amt) (holdings st) |}
  else if bool_decide (fromUserAccount transfer = wallet) && ltb zero sol_change then
    let recv_sol := sol_change in
    Some {| trades := trades st ++
              [{| side := SELL; trade_mint := m; sol := recv_sol; amount := amt; ts := tx_ts |}];
            token_pnl := Dict.update new_ledger (add_sell recv_sol amt) m (token_pnl st);
            holdings :=
              Dict.set m (max0 (sub (Dict.get_or m zero (holdings st)) amt)) (holdings st) |}
  else Some st.

(** The body of the loop over [txs]. *)
Definition replay_tx (wallet : string) (st : Replay) (tx : Tx) : option Replay :=
  sol_change ← sol_change_of wallet tx;
  for_each (replay_transfer wallet sol_change (timestamp tx)) (tokenTransfers tx) st.

Definition replay (wallet : string) (txs : list Tx) : option Replay :=
  for_each (replay_tx wallet) txs replay_start.

Record TokenReport := {
  report_mint : string;
  bought_sol : float;
  sold_sol : float;
  pnl_sol : float;
  roi_pct : float;
  holding : float;
  win : bool
}.

(** The locals of the loop over [token_pnl.items()]. *)
Record Tally := {
  token_reports : list TokenReport;
  tally_wins : nat;
  tally_pnl : float
}.

Definition tally_start : Tally :=
  {| token_reports := []; tally_wins := 0%nat; tally_pnl := zero |}.

Definition tally_token (current_holdings : Dict.t float) (acc : Tally)
    (item : string * Ledger) : Tally :=
  let data := snd item in
  let bought := buy_sol data in
  let sold := sell_sol data in
  let pnl := sub sold bought in
  let total_pnl := add (tally_pnl acc) pnl in
  if ltb zero bought then
    let roi := mul (div (sub sold bought) bought) (ratio 100 1) in
    let is_win := ltb zero pnl in
    {| token_reports := token_reports acc ++
         [{| report_mint := fst item;
             bought_sol := round bought 4;
             sold_sol := round sold 4;
             pnl_sol := round pnl 4;
             roi_pct := round roi 1;
             holding := round (Dict.get_or (fst item) zero current_holdings) 2;
             win := is_win |}];
       tally_wins := if is_win then S (tally_wins acc) else tally_wins acc;
       tally_pnl := total_pnl |}
  else
    {| token_reports := token_reports acc;
       tally_wins := tally_wins acc;
       tally_pnl := total_pnl |}.

(** The dict [calculate_wallet_pnl] returns. *)
Record WalletPnl := {
  total_pnl_sol : float;
  win_rate : float;
  wins : nat;
  total_positions : nat;
  token_breakdown : list TokenReport;
  current_holdings : Dict.t float;
  trade_count : nat
}.

(** Everything after the replay loop.  The order of [token_breakdown] is
    that of [list.sort] as long as no [pnl_sol] is a NaN; with a NaN among
    the keys the comparisons are not an order and the source leaves the
    list in an order this model does not follow. *)
Definition summarise (st : Replay) : option WalletPnl :=
  match trades st with
  | [] => None
  | _ :: _ =>
      let tally := fold_left (tally_token (holdings st)) (token_pnl st) tally_start in
      let total_trades := length (token_pnl st) in
      let rate :=
        if (0 <? total_trades)%nat
        then ratio (Z.of_nat (tally_wins tally)) (Pos.of_nat total_trades)
        else zero in
      Some {| total_pnl_sol := round (tally_pnl tally) 4;
              win_rate := round rate 3;
              wins := tally_wins tally;
              total_positions := total_trades;
              token_breakdown := sort_desc pnl_sol ltb (token_reports tally);
              current_holdings :=
                List.filter (fun kv => ltb zero (snd kv)) (holdings st);
              trade_count := length (trades st) |}
  end.

(** The body of the [try] block, from the provider's answer on.  The
    [mints] argument is unused, as in the source. *)
Definition wallet_pnl_of (resp : Response) (wallet : string) (mints : list string)
    : option WalletPnl :=
  match resp with
  | NoResponse => None
  | HttpResponse status body =>
      if bool_decide (status ≠ 200) then None
      else match body with
           | BodyUndecodable => None
           | BodyNotAList => None
           | BodyList [] => None
           | BodyList txs => st ← replay wallet txs; summarise st
           end
  end.

(** ** The specification's vocabulary, in double precision *)

(** A leg is a BUY of its token if the wallet receives it and its native
    balance change [change] is negative; a SELL if the wallet sends it and
    the change is positive.  Legs without a token or with a zero quantity
    are not classified. *)
Definition leg_of (w : string) (change : float) (tx_ts : Z) (transfer : TokenTransfer)
    : option Trade :=
  let qty := default zero (tokenAmount transfer) in
  if bool_decide (mint transfer = "") then None
  else if eqb qty zero then None
  else if bool_decide (toUserAccount transfer = w) && ltb change zero then
    Some {| side := BUY; trade_mint := mint transfer; sol := abs change;
            amount := qty; ts := tx_ts |}
  else if bool_decide (fromUserAccount transfer = w) && ltb zero change then
    Some {| side := SELL; trade_mint := mint transfer; sol := change;
            amount := qty; ts := tx_ts |}
  else None.

(** The classified legs of a feed, in feed order. *)
Definition events (w : string) (txs : list Tx) : list Trade :=
  flat_map
    (fun tx =>
       match sol_change_of w tx with
       | Some change => omap (leg_of w change (timestamp tx)) (tokenTransfers tx)
       | None => []
       end)
    txs.

Definition ledger_step (e : Trade) (data : Ledger) : Ledger :=
  match side e with
  | BUY => add_buy (sol e) (amount e) data
  | SELL => add_sell (sol e) (amount e) data
  end.

Definition holding_step (e : Trade) (h : float) : float :=
  match side e with
  | BUY => add h (amount e)
  | SELL => max0 (sub h (amount e))
  end.

Definition apply_trade (st : Replay) (e : Trade) : Replay :=
  {| trades := trades st ++ [e];
     token_pnl := Dict.update new_ledger (ledger_step e) (trade_mint e) (token_pnl st);
     holdings := Dict.update zero (holding_step e) (trade_mint e) (holdings st) |}.

(** Every balance change of the wallet and every quantity of the feed
    converts to a double. *)
Definition decodable (w : string) (txs : list Tx) : Prop :=
  Forall
    (fun tx =>
       is_Some (sol_change_of w tx) ∧
       Forall (fun t => is_Some (tokenAmount t)) (tokenTransfers tx))
    txs.

Definition is_buy_of (m : string) (e : Trade) : bool :=
  bool_decide (side e = BUY ∧ trade_mint e = m).
Definition is_sell_of (m : string) (e : Trade) : bool :=
  bool_decide (side e = SELL ∧ trade_mint e = m).

(** The native amounts of the BUY legs and of the SELL legs of a token,
    added up in feed order. *)
Definition boughtNative (m : string) (evs : list Trade) : float :=
  sum (map sol (List.filter (is_buy_of m) evs)).
Definition soldNative (m : string) (evs : list Trade) : float :=
  sum (map sol (List.filter (is_sell_of m) evs)).
Definition realizedPnl (m : string) (evs : list Trade) : float :=
  sub (soldNative m evs) (boughtNative m evs).

(** The tokens with at least one classified leg, in first-seen order. *)
Definition traded_tokens (evs : list Trade) : list string :=
  first_seen (map trade_mint evs).

Definition has_buy (evs : list Trade) (m : string) : bool :=
  existsb (is_buy_of m) evs.

(** The tokens with at least one BUY leg. *)
Definition bought_tokens (evs : list Trade) : list string :=
  List.filter (has_buy evs) (traded_tokens evs).

(** The realized PnL of the given tokens, added up in list order. *)
Definition realized_over (tokens : list string) (evs : list Trade) : float :=
  sum (map (fun m => realizedPnl m evs) tokens).

(** A winning token: bought into, and sold for strictly more. *)
Definition is_win (evs : list Trade) (m : string) : bool :=
  has_buy evs m && ltb zero (realizedPnl m evs).

Definition ledger_pnl (item : string * Ledger) : float :=
  sub (sell_sol (snd item)) (buy_sol (snd item)).
Definition ledger_won (item : string * Ledger) : bool :=
  ltb zero (buy_sol (snd item)) && ltb zero (ledger_pnl item).

(** ** Sample feeds *)

(** A swap in which [w] pays [lamports] and receives [qty] of [m]. *)
Definition buy_tx (w m : string) (lamports : Z) (qty : float) : Tx :=
  {| timestamp := 1700000000;
     accountData := [{| account := w; nativeBalanceChange := - lamports |}];
     tokenTransfers :=
       [{| mint := m; fromUserAccount := "pool"; toUserAccount := w;
           tokenAmount := Some qty |}] |}.

(** A swap in which [w] sends [qty] of [m] and receives [lamports]. *)
Definition sell_tx (w m : string) (lamports : Z) (qty : float) : Tx :=
  {| timestamp := 1700000060;
     accountData := [{| account := w; nativeBalanceChange := lamports |}];
     tokenTransfers :=
       [{| mint := m; fromUserAccount := w; toUserAccount := "pool";
           tokenAmount := Some qty |}] |}.

(** T1 bought for 2 SOL and sold for 6.00001 SOL; T2 sold for 3 SOL and
    never bought within the window. *)
Definition with_sell_only : list Tx :=
  [buy_tx Sample.W Sample.T1 2000000000 (ratio 50 1);
   sell_tx Sample.W Sample.T1 6000010000 (ratio 50 1);
   sell_tx Sample.W Sample.T2 3000000000 (ratio 10 1)].

(** One purchase for 150000 lamports, 0.00015 SOL. *)
Definition small_buy : list Tx :=
  [buy_tx Sample.W Sample.T1 150000 (ratio 50 1)].

(** T1 bought for 0.3 SOL and sold in two legs, for 0.1 and 0.2 SOL. *)
Definition thirds : list Tx :=
  [buy_tx Sample.W Sample.T1 300000000 (ratio 50 1);
   sell_tx Sample.W Sample.T1 100000000 (ratio 20 1);
   sell_tx Sample.W Sample.T1 200000000 (ratio 30 1)].

End Double.

(* ===================================================================== *)
(** * Facts about the stable descending sort *)
(* ===================================================================== *)

#[export] Instance StrictWeak_nat : StrictWeak Nat.ltb.
Proof.
  split.
  - intros a. apply Nat.ltb_irrefl.
  - intros a b c H1%Nat.ltb_lt H2%Nat.ltb_lt. apply Nat.ltb_lt. lia.
  - intros a b c H%Nat.ltb_lt.
    destruct (Nat.ltb_spec a b); [by left | right; apply Nat.ltb_lt; lia].
Qed.

#[export] Instance StrictWeak_Qc : StrictWeak Num.ltb.
Proof.
  unfold Num.ltb. split.
  - intros a. apply bool_decide_eq_false, (irreflexivity Qclt).
  - intros a b c H1%bool_decide_eq_true H2%bool_decide_eq_true.
    apply bool_decide_eq_true. by eapply Qclt_trans.
  - intros a b c H%bool_decide_eq_true.
    destruct (Qclt_le_dec a b) as [Hab|Hba]; [left | right];
      apply bool_decide_eq_true; [done | by eapply Qcle_lt_trans].
Qed.

Section SortDescFacts.
Context {A K : Type} (key : A → K) (ltb : K → K → bool) `{!StrictWeak ltb}.

Lemma insert_desc_perm x l : Permutation (insert_desc key ltb x l) (x :: l).
Proof.
  induction l as [|y l IH]; simpl; [done|].
  destruct (ltb (key x) (key y)); [|done].
  rewrite IH. apply perm_swap.
Qed.

Lemma sort_desc_perm l : Permutation (sort_desc key ltb l) l.
Proof.
  induction l as [|x l IH]; simpl; [done|].
  rewrite insert_desc_perm. by constructor.
Qed.

Lemma sort_desc_length l : length (sort_desc key ltb l) = length l.
Proof. apply Permutation_length, sort_desc_perm. Qed.

Lemma sort_desc_elem x l : x ∈ sort_desc key ltb l ↔ x ∈ l.
Proof. by rewrite sort_desc_perm. Qed.

Lemma not_below_trans a b c : not_below key ltb a b → not_below key ltb b c → not_below key ltb a c.
Proof.
  unfold not_below. intros Hab Hbc.
  destruct (ltb (key a) (key c)) eqn:Hac; [|done].
  destruct (sw_cotrans _ (key b) _ Hac); congruence.
Qed.

Lemma insert_desc_sorted x l :
  StronglySorted (not_below key ltb) l → StronglySorted (not_below key ltb) (insert_desc key ltb x l).
Proof.
  induction 1 as [|y l Hl IH Hy]; simpl.
  - repeat constructor.
  - destruct (ltb (key x) (key y)) eqn:Hxy.
    + constructor; [done|].
      rewrite Forall_forall. intros z Hz.
      apply list_elem_of_In in Hz. rewrite insert_desc_perm in Hz.
      apply elem_of_cons in Hz as [->|Hz].
      * unfold not_below. destruct (ltb (key y) (key x)) eqn:Hyx; [|done].
        pose proof (sw_trans _ _ _ Hxy Hyx) as Hxx. by rewrite sw_irrefl in Hxx.
      * rewrite Forall_forall in Hy. apply Hy. by apply list_elem_of_In.
    + constructor; [by constructor|].
      constructor; [done|].
      eapply List.Forall_impl; [|exact Hy]. intros z Hz.
      by eapply not_below_trans.
Qed.

Lemma sort_desc_sorted l : StronglySorted (not_below key ltb) (sort_desc key ltb l).
Proof.
  induction l as [|x l IH]; simpl; [constructor|].
  by apply insert_desc_sorted.
Qed.

Lemma key_eqb_lt_excl k a b :
  ltb a b = true → key_eqb ltb a k = true → key_eqb ltb b k = false.
Proof.
  unfold key_eqb. intros Hab Ha.
  apply andb_true_iff in Ha as [Hak%negb_true_iff Hka%negb_true_iff].
  apply andb_false_iff. right. apply negb_false_iff.
  destruct (sw_cotrans _ k _ Hab); congruence.
Qed.

Lemma ties_insert_desc k x l :
  ties key ltb k (insert_desc key ltb x l) = ties key ltb k (x :: l).
Proof.
  induction l as [|y l IH]; [done|].
  simpl insert_desc. destruct (ltb (key x) (key y)) eqn:Hxy; [|done].
  unfold ties in *. simpl in *. rewrite IH.
  destruct (key_eqb ltb (key x) k) eqn:Hx; [|done].
  by rewrite (key_eqb_lt_excl k _ _ Hxy Hx).
Qed.

(** Stability: elements with tied keys keep their input order. *)
Lemma sort_desc_ties k l : ties key ltb k (sort_desc key ltb l) = ties key ltb k l.
Proof.
  induction l as [|x l IH]; [done|].
  simpl sort_desc. rewrite ties_insert_desc.
  unfold ties in *. simpl. by rewrite IH.
Qed.
End SortDescFacts.

(* ===================================================================== *)
(** * Facts about first-seen order and dictionaries *)
(* ===================================================================== *)

Lemma first_seen_snoc l w :
  first_seen (l ++ [w]) =
  if bool_decide (w ∈ first_seen l) then first_seen l else first_seen l ++ [w].
Proof. unfold first_seen. by rewrite fold_left_app. Qed.

Lemma elem_of_first_seen w l : w ∈ first_seen l ↔ w ∈ l.
Proof.
  induction l as [|x l IH] using rev_ind.
  - done.
  - rewrite first_seen_snoc. case_bool_decide as Hx.
    + rewrite elem_of_app, list_elem_of_singleton, <- IH.
      split; [by left | by intros [?| ->]].
    + by rewrite !elem_of_app, IH.
Qed.

Lemma NoDup_first_seen l : NoDup (first_seen l).
Proof.
  induction l as [|x l IH] using rev_ind.
  - constructor.
  - rewrite first_seen_snoc. case_bool_decide as Hx; [done|].
    apply list.NoDup_app. split_and!; [done| |apply NoDup_singleton].
    intros y Hy ->%list_elem_of_singleton. done.
Qed.


Lemma first_seen_filter (P : string → bool) l :
  first_seen (List.filter P l) = List.filter P (first_seen l).
Proof.
  induction l as [|x l IH] using rev_ind; [done|].
  rewrite List.filter_app, first_seen_snoc. simpl.
  destruct (P x) eqn:HP.
  - rewrite first_seen_snoc, IH.
    assert (x ∈ List.filter P (first_seen l) ↔ x ∈ first_seen l) as Hiff.
    { rewrite !list_elem_of_In, filter_In. split; [tauto|]. intros; subst; tauto. }
    case_bool_decide as H1; case_bool_decide as H2; try tauto.
    rewrite List.filter_app. simpl. by rewrite HP.
  - rewrite app_nil_r, IH. case_bool_decide; [done|].
    rewrite List.filter_app. simpl. by rewrite HP, app_nil_r.
Qed.

Lemma filter_none {A : Type} (P : A → bool) (l : list A) :
  (∀ x, In x l → P x = false) → List.filter P l = [].
Proof.
  induction l as [|x l IH]; simpl; [done|].
  intros H. rewrite (H x) by auto. apply IH. auto.
Qed.

Module DictFacts.
Section Facts.
Context {V : Type}.
Implicit Types (d : Dict.t V) (k : string) (v : V).

Lemma keys_set k v d :
  Dict.keys (Dict.set k v d) =
  if bool_decide (k ∈ Dict.keys d) then Dict.keys d else Dict.keys d ++ [k].
Proof.
  induction d as [|[k' v'] d IH]; simpl; [done|].
  destruct (decide (k' = k)) as [->|Hk]; simpl.
  - rewrite bool_decide_eq_true_2; [done | apply elem_of_cons; by left].
  - rewrite IH. case_bool_decide as H1.
    + rewrite bool_decide_eq_true_2; [done | apply elem_of_cons; by right].
    + rewrite bool_decide_eq_false_2; [done|].
      intros [?|?]%elem_of_cons; congruence.
Qed.

Lemma get_tabulate (g : string → V) k ks :
  Dict.get k (map (fun key => (key, g key)) ks) =
  if bool_decide (k ∈ ks) then Some (g k) else None.
Proof.
  induction ks as [|k' ks IH]; simpl; [done|].
  destruct (decide (k' = k)) as [->|Hk].
  - rewrite bool_decide_eq_true_2; [done | apply elem_of_cons; by left].
  - rewrite IH. case_bool_decide as H1.
    + rewrite bool_decide_eq_true_2; [done | apply elem_of_cons; by right].
    + rewrite bool_decide_eq_false_2; [done|].
      intros [?|?]%elem_of_cons; congruence.
Qed.

Lemma set_tabulate_absent (g : string → V) k v ks :
  k ∉ ks →
  Dict.set k v (map (fun key => (key, g key)) ks) =
  map (fun key => (key, g key)) ks ++ [(k, v)].
Proof.
  induction ks as [|k' ks IH]; simpl; [done|].
  intros Hk. apply not_elem_of_cons in Hk as [Hne Hk].
  destruct (decide (k' = k)); [congruence|]. by rewrite IH.
Qed.

Lemma set_tabulate_present (g : string → V) k v ks :
  NoDup ks → k ∈ ks →
  Dict.set k v (map (fun key => (key, g key)) ks) =
  map (fun key => (key, if decide (key = k) then v else g key)) ks.
Proof.
  induction ks as [|k' ks IH]; simpl; [by intros _ ?%elem_of_nil|].
  intros [Hk' Hks]%list.NoDup_cons Hin.
  destruct (decide (k' = k)) as [->|Hk].
  - destruct (decide (k = k)); [|done]. f_equal.
    apply map_ext_in. intros key Hkey%list_elem_of_In.
    destruct (decide (key = k)); [congruence | done].
  - apply elem_of_cons in Hin as [?|Hin]; [congruence|].
    destruct (decide (k' = k)); [done|]. by rewrite IH.
Qed.

(** A loop of in-place updates builds the grouped dictionary. *)
Lemma fold_update_grouped {X : Type} (key_of : X → string) (f : X → V → V)
    (dflt : V) (xs : list X) :
  fold_left (fun d x => Dict.update dflt (f x) (key_of x) d) xs [] =
  Dict.grouped key_of f dflt xs.
Proof.
  induction xs as [|x xs IH] using rev_ind; [done|].
  rewrite fold_left_app. simpl. rewrite IH. clear IH.
  unfold Dict.grouped, Dict.update, Dict.get_or.
  rewrite map_app. change (map key_of [x]) with [key_of x]. rewrite first_seen_snoc.
  rewrite (get_tabulate
    (fun key => fold_left (fun v x => f x v)
       (List.filter (fun x => bool_decide (key_of x = key)) xs) dflt)).
  case_bool_decide as Hin; simpl.
  - rewrite set_tabulate_present by (done || apply NoDup_first_seen).
    apply map_ext. intros key. f_equal.
    rewrite List.filter_app, fold_left_app. simpl.
    case_decide as Hk; subst.
    + by rewrite bool_decide_eq_true_2.
    + rewrite bool_decide_eq_false_2 by done. done.
  - rewrite set_tabulate_absent by done.
    rewrite map_app. simpl. f_equal.
    + apply map_ext_in. intros key Hkey%list_elem_of_In.
      rewrite List.filter_app, fold_left_app. simpl.
      rewrite bool_decide_eq_false_2; [done|]. by intros <-.
    + do 2 f_equal.
      rewrite List.filter_app, fold_left_app. simpl.
      rewrite bool_decide_eq_true_2 by done. simpl. f_equal.
      rewrite filter_none; [done|].
      intros y Hy. apply bool_decide_eq_false. intros Heq. apply Hin.
      apply elem_of_first_seen, list_elem_of_In, in_map_iff. eauto.
Qed.

Lemma keys_grouped {X : Type} (key_of : X → string) (f : X → V → V)
    (dflt : V) (xs : list X) :
  Dict.keys (Dict.grouped key_of f dflt xs) = first_seen (map key_of xs).
Proof.
  unfold Dict.keys, Dict.grouped. rewrite map_map. simpl. apply map_id.
Qed.
End Facts.
End DictFacts.

(* ===================================================================== *)
(** * Facts about [find_intersection] *)
(* ===================================================================== *)

Lemma skipped_false_eligible w : skipped w = false ↔ eligible w.
Proof.
  unfold skipped, eligible. rewrite orb_false_iff, !bool_decide_eq_false.
  split; intros [H1 H2]; (split; [lia | done]).
Qed.

Lemma scan_holders_pairs m hs d :
  scan_holders m hs d =
  fold_left (fun d p => Dict.update [] (fun held => held ++ [snd p]) (fst p) d)
    (map (fun w => (w, m)) (List.filter (fun w => negb (skipped w)) hs)) d.
Proof.
  unfold scan_holders. revert d.
  induction hs as [|w hs IH]; intros d; simpl; [done|].
  destruct (skipped w); simpl; by rewrite IH.
Qed.

Lemma collect_holders_grouped hl mints :
  collect_holders hl mints =
  Dict.grouped fst (fun p held => held ++ [snd p]) [] (holder_pairs hl mints).
Proof.
  rewrite <- DictFacts.fold_update_grouped.
  unfold collect_holders, holder_pairs.
  generalize (@nil (string * list string)) as d.
  induction (zip mints hl) as [|[m hs] mhs IH]; intros d; simpl; [done|].
  by rewrite fold_left_app, IH, scan_holders_pairs.
Qed.

Lemma fold_left_snoc_map {X Y : Type} (g : X → Y) (l : list X) (acc : list Y) :
  fold_left (fun v x => v ++ [g x]) l acc = acc ++ map g l.
Proof.
  revert acc. induction l as [|x l IH]; intros acc; simpl.
  - by rewrite app_nil_r.
  - by rewrite IH, <- app_assoc.
Qed.

Lemma holder_pairs_wallets hl mints :
  map fst (holder_pairs hl mints) =
  List.filter (fun w => negb (skipped w)) (concat (holder_sets_of hl mints)).
Proof.
  unfold holder_pairs, holder_sets_of.
  induction (zip mints hl) as [|[m hs] mhs IH]; simpl; [done|].
  rewrite map_app, IH, List.filter_app, map_map. simpl. by rewrite map_id.
Qed.

Lemma bool_decide_elem_cons (w x : string) (hs : list string) :
  bool_decide (w ∈ x :: hs) = bool_decide (x = w) || bool_decide (w ∈ hs).
Proof.
  apply eq_true_iff_eq.
  rewrite orb_true_iff, !bool_decide_eq_true, elem_of_cons.
  split; (intros [?|?]; [left | right]); done.
Qed.


(** With duplicate-free holder lists, the tokens recorded for an eligible
    wallet are the tokens whose list contains it. *)
Lemma holder_pairs_tokens hl mints w :
  Forall NoDup hl → skipped w = false →
  map snd (List.filter (fun p => bool_decide (fst p = w)) (holder_pairs hl mints)) =
  tokens_holding w hl mints.
Proof.
  intros Hnd Hw. unfold holder_pairs, tokens_holding.
  assert (Forall (fun mh => NoDup (snd mh)) (zip mints hl)) as Hz.
  { rewrite List.Forall_forall in *. intros [m hs] Hin. simpl.
    apply Hnd. apply list_elem_of_In in Hin.
    apply list_elem_of_In. eapply (elem_of_zip_r m hs). exact Hin. }
  clear Hnd. induction Hz as [|[m hs] mhs Hhs Hz IH]; simpl; [done|].
  rewrite List.filter_app, map_app, IH. clear IH.
  assert (map snd
    (List.filter (fun p : string * string => bool_decide (fst p = w))
       (map (fun w0 => (w0, m)) (List.filter (fun w0 => negb (skipped w0)) hs))) =
    if bool_decide (w ∈ hs) then [m] else []) as ->.
  { simpl in Hhs. clear Hz.
    induction Hhs as [|x hs Hx Hnd IH]; [done|].
    rewrite bool_decide_elem_cons. simpl.
    destruct (decide (x = w)) as [->|Hxw].
    - rewrite Hw. simpl. rewrite !(bool_decide_eq_true_2 (w = w)) by done. simpl.
      rewrite IH. rewrite bool_decide_eq_false_2; done.
    - rewrite (bool_decide_eq_false_2 (x = w)) by done. simpl.
      destruct (skipped x); simpl; [done|].
      by rewrite bool_decide_eq_false_2 by done. }
  by case_bool_decide.
Qed.

Lemma collect_holders_spec hl mints :
  Forall NoDup hl →
  collect_holders hl mints =
  map (fun w => (w, tokens_holding w hl mints))
    (List.filter (fun w => negb (skipped w))
       (first_seen (concat (holder_sets_of hl mints)))).
Proof.
  intros Hnd. rewrite collect_holders_grouped. unfold Dict.grouped.
  rewrite holder_pairs_wallets, first_seen_filter.
  apply map_ext_in. intros w [_ Hw%negb_true_iff]%filter_In. f_equal.
  rewrite fold_left_snoc_map. simpl. by apply holder_pairs_tokens.
Qed.

Lemma find_intersection_candidates hl mints k :
  Forall NoDup hl →
  find_intersection hl mints k = sort_desc held_count Nat.ltb (candidates hl mints k).
Proof.
  intros Hnd. unfold find_intersection, candidates.
  rewrite collect_holders_spec by done. f_equal.
  apply filter_ext. intros [w held]. unfold held_count. simpl.
  destruct (Z.geb_spec (Z.of_nat (length held)) k);
    [rewrite bool_decide_eq_true_2 | rewrite bool_decide_eq_false_2]; done || lia.
Qed.

Lemma keys_collect_holders hl mints :
  Dict.keys (collect_holders hl mints) =
  List.filter (fun w => negb (skipped w)) (first_seen (concat (holder_sets_of hl mints))).
Proof.
  rewrite collect_holders_grouped, DictFacts.keys_grouped.
  by rewrite holder_pairs_wallets, first_seen_filter.
Qed.

Lemma NoDup_filter_bool {A : Type} (P : A → bool) (l : list A) :
  NoDup l → NoDup (List.filter P l).
Proof.
  induction 1 as [|x l Hx Hl IH]; simpl; [constructor|].
  destruct (P x); [|done]. constructor; [|done].
  rewrite list_elem_of_In, filter_In, <- list_elem_of_In. tauto.
Qed.

Lemma keys_find_intersection_perm hl mints k :
  Permutation (Dict.keys (find_intersection hl mints k))
    (Dict.keys
       (List.filter (fun item => Z.of_nat (held_count item) >=? k)
          (collect_holders hl mints))).
Proof. unfold find_intersection, Dict.keys. apply Permutation_map, sort_desc_perm. Qed.

Lemma keys_filter_subset {V : Type} (P : string * V → bool) (d : Dict.t V) w :
  w ∈ Dict.keys (List.filter P d) → w ∈ Dict.keys d.
Proof.
  unfold Dict.keys. rewrite !list_elem_of_In, !in_map_iff.
  intros (x & Hx & [Hin _]%filter_In). eauto.
Qed.

Lemma NoDup_keys_filter {V : Type} (P : string * V → bool) (d : Dict.t V) :
  NoDup (Dict.keys d) → NoDup (Dict.keys (List.filter P d)).
Proof.
  unfold Dict.keys. induction d as [|[k v] d IH]; simpl; [done|].
  intros [Hk Hd]%list.NoDup_cons. destruct (P (k, v)); simpl; [|auto].
  apply list.NoDup_cons. split; [|auto].
  intros Hin. apply Hk. by eapply (keys_filter_subset P).
Qed.

Lemma NoDup_keys_find_intersection hl mints k :
  NoDup (Dict.keys (find_intersection hl mints k)).
Proof.
  rewrite keys_find_intersection_perm.
  apply NoDup_keys_filter. rewrite keys_collect_holders.
  apply NoDup_filter_bool, NoDup_first_seen.
Qed.

(** No skipped wallet is a key, whatever the holder lists are. *)
Lemma keys_find_intersection_not_skipped hl mints k w :
  w ∈ Dict.keys (find_intersection hl mints k) → skipped w = false.
Proof.
  rewrite keys_find_intersection_perm. intros Hw%keys_filter_subset.
  rewrite keys_collect_holders in Hw.
  apply list_elem_of_In, filter_In in Hw as [_ Hw]. by apply negb_true_iff.
Qed.

Lemma elem_of_holder_sets w hl mints :
  w ∈ concat (holder_sets_of hl mints) ↔ tokens_holding w hl mints ≠ [].
Proof.
  unfold holder_sets_of, tokens_holding.
  induction (zip mints hl) as [|[m hs] mhs IH]; simpl.
  - split; [by intros ?%elem_of_nil | done].
  - rewrite elem_of_app, IH. case_bool_decide as Hin; simpl.
    + split; [done | by left].
    + split; [by intros [?|?] | by right].
Qed.

Lemma NoDup_tokens_holding w hl mints :
  NoDup mints → NoDup (tokens_holding w hl mints).
Proof.
  intros Hnd. unfold tokens_holding.
  apply (NoDup_keys_filter (V := list string)). unfold Dict.keys.
  revert hl. induction Hnd as [|m mints Hm Hnd IH]; intros [|hs hl]; simpl;
    try constructor; [|by apply IH].
  rewrite list_elem_of_In, in_map_iff. intros ([m' hs'] & Heq & Hin).
  simpl in Heq. subst m'. apply Hm.
  apply list_elem_of_In in Hin. by eapply elem_of_zip_l.
Qed.

Lemma elem_of_candidates hl mints k w held :
  (w, held) ∈ candidates hl mints k ↔
  held = tokens_holding w hl mints ∧ eligible w ∧ held ≠ [] ∧ k ≤ Z.of_nat (length held).
Proof.
  unfold candidates.
  rewrite list_elem_of_In, filter_In, in_map_iff. simpl.
  rewrite bool_decide_eq_true. split.
  - intros [(w' & [= <- <-] & [Hw Hs%negb_true_iff]%filter_In) Hk].
    split_and!; [done | by apply skipped_false_eligible | | done].
    by apply elem_of_holder_sets, elem_of_first_seen, list_elem_of_In.
  - intros (-> & Hw & Hne & Hk). split; [|done].
    exists w. split; [done|]. apply filter_In. split.
    + by apply list_elem_of_In, elem_of_first_seen, elem_of_holder_sets.
    + by apply negb_true_iff, skipped_false_eligible.
Qed.

Lemma StronglySorted_impl {A : Type} (R S : A → A → Prop) (l : list A) :
  (∀ a b, R a b → S a b) → StronglySorted R l → StronglySorted S l.
Proof.
  intros HRS. induction 1 as [|x l Hl IH Hx]; constructor; [done|].
  eapply List.Forall_impl; [|exact Hx]. auto.
Qed.

(* ===================================================================== *)
(** * The holder intersection finder: specification claims *)
(* ===================================================================== *)

Section Intersection.
Import Sample.

(** C3, as stated, fails: a wallet listed by two distinct tokens is not
    kept when its address is shorter than 32 characters. *)
Lemma find_intersection_drops_short_address :
  tokens_holding short [[short; W]; [short]] [T1; T2] = [T1; T2] ∧
  short ∉ Dict.keys (find_intersection [[short; W]; [short]] [T1; T2] 2).
Proof. split; [reflexivity | by_compute]. Qed.

(** The grouping counts occurrences, not lists: a wallet that occurs twice
    in the holder list of a single token is kept with that token twice. *)
Example find_intersection_repeated_holder :
  find_intersection [[X; X]; [Y]] [T1; T2] 2 = [(X, [T1; T1])].
Proof. reflexivity. Qed.

(** The scenario of the specification. *)
Example find_intersection_scenario :
  find_intersection scenario_holders scenario_mints 2 = [(W, [T1; T2])].
Proof. reflexivity. Qed.

(** C3 (amended): for distinct tokens with duplicate-free holder lists,
    [find_intersection] maps each output wallet to exactly the tokens
    whose holder list contains it; its keys are exactly the eligible
    wallets (at least 32 characters, not an excluded program) that occur
    in some list and in at least [min_appearances] of them; the output is
    ordered by number of held tokens, descending; and wallets with the
    same number of tokens stand in first-seen order. *)
Theorem find_intersection_spec (hl : list (list string)) (mints : list string) (k : Z) :
  NoDup mints → Forall NoDup hl →
  let out := find_intersection hl mints k in
  (∀ w held, (w, held) ∈ out → held = tokens_holding w hl mints ∧ NoDup held)
  ∧ NoDup (Dict.keys out)
  ∧ (∀ w, w ∈ Dict.keys out ↔
        eligible w ∧ tokens_holding w hl mints ≠ [] ∧
        k ≤ Z.of_nat (length (tokens_holding w hl mints)))
  ∧ StronglySorted more_tokens out
  ∧ (∀ n, ties held_count Nat.ltb n out = ties held_count Nat.ltb n (candidates hl mints k)).
Proof.
  intros Hmints Hhl out.
  assert (out = sort_desc held_count Nat.ltb (candidates hl mints k)) as Hout
    by by apply find_intersection_candidates.
  assert (∀ w held, (w, held) ∈ out ↔ (w, held) ∈ candidates hl mints k) as Hmem.
  { intros w held. rewrite Hout. apply sort_desc_elem. }
  split_and!.
  - intros w held [-> _]%Hmem%elem_of_candidates.
    split; [done | by apply NoDup_tokens_holding].
  - apply NoDup_keys_find_intersection.
  - intros w. unfold Dict.keys. rewrite list_elem_of_In, in_map_iff. split.
    + intros ([w' held] & <- & Hin%list_elem_of_In%Hmem%elem_of_candidates).
      simpl. destruct Hin as (-> & ? & ? & ?). done.
    + intros (Hw & Hne & Hk). exists (w, tokens_holding w hl mints).
      split; [done|]. apply list_elem_of_In, Hmem, elem_of_candidates. done.
  - rewrite Hout. eapply StronglySorted_impl; [|apply sort_desc_sorted; apply _].
    intros a b Hab%Nat.ltb_ge. exact Hab.
  - intros n. rewrite Hout. apply sort_desc_ties; apply _.
Qed.

Lemma find_intersection_spec_witness :
  NoDup scenario_mints ∧ Forall NoDup scenario_holders ∧
  let out := find_intersection scenario_holders scenario_mints 2 in
  (∀ w held, (w, held) ∈ out →
     held = tokens_holding w scenario_holders scenario_mints ∧ NoDup held)
  ∧ NoDup (Dict.keys out)
  ∧ (∀ w, w ∈ Dict.keys out ↔
        eligible w ∧ tokens_holding w scenario_holders scenario_mints ≠ [] ∧
        2 ≤ Z.of_nat (length (tokens_holding w scenario_holders scenario_mints)))
  ∧ StronglySorted more_tokens out
  ∧ (∀ n, ties held_count Nat.ltb n out =
          ties held_count Nat.ltb n (candidates scenario_holders scenario_mints 2)).
Proof.
  assert (NoDup scenario_mints) as H1 by by_compute.
  assert (Forall NoDup scenario_holders) as H2 by by_compute.
  split_and!; [exact H1 | exact H2 |].
  exact (find_intersection_spec scenario_holders scenario_mints 2 H1 H2).
Defined.

(** C7: no wallet of the static excluded-program set is a key of the
    output of [find_intersection], whatever the holder lists contain. *)
Theorem excluded_never_in_intersection (hl : list (list string)) (mints : list string)
    (k : Z) (w : string) :
  w ∈ EXCLUDED_PROGRAMS → w ∉ Dict.keys (find_intersection hl mints k).
Proof.
  intros Hex Hin. apply keys_find_intersection_not_skipped in Hin.
  unfold skipped in Hin. apply orb_false_iff in Hin as [_ Hin].
  by apply bool_decide_eq_false in Hin.
Qed.

Lemma excluded_never_in_intersection_witness :
  system_program ∈ EXCLUDED_PROGRAMS ∧
  system_program ∉
    Dict.keys (find_intersection [[system_program; W]; [W; system_program]] [T1; T2] 2).
Proof.
  assert (system_program ∈ EXCLUDED_PROGRAMS) as H by by_compute.
  split; [exact H|].
  exact (excluded_never_in_intersection
           [[system_program; W]; [W; system_program]] [T1; T2] 2 system_program H).
Defined.
End Intersection.

(* ===================================================================== *)
(** * Facts about the replay *)
(* ===================================================================== *)

Lemma abs_neg (x : Qc) : (x < 0)%Qc → Num.abs x = (- x)%Qc.
Proof. intros H. unfold Num.abs, Num.ltb. by rewrite bool_decide_eq_true_2. Qed.

Lemma max0_nonneg (x : Qc) : (0 <= Num.max0 x)%Qc.
Proof.
  unfold Num.max0, Num.ltb. case_bool_decide as H.
  - by apply Qclt_le_weak.
  - apply Qcle_refl.
Qed.

Lemma max0_clamps (x : Qc) : (x <= 0)%Qc → Num.max0 x = 0%Qc.
Proof.
  intros H. unfold Num.max0, Num.ltb.
  rewrite bool_decide_eq_false_2; [done|]. exact (Qcle_not_lt _ _ H).
Qed.

(** One transfer either raises (its quantity is not a number) or applies
    the leg it is classified as. *)
Lemma replay_transfer_leg w tx st t :
  replay_transfer w (sol_change_of w tx) (timestamp tx) st t =
  match tokenAmount t with
  | None => None
  | Some _ => Some (from_option (apply_trade st) st (leg_of w tx t))
  end.
Proof.
  unfold replay_transfer, leg_of.
  destruct (tokenAmount t) as [q|]; simpl; [|done].
  unfold Num.eqb, Num.ltb.
  destruct (bool_decide (mint t = "")); simpl; [done|].
  destruct (bool_decide (q = 0%Qc)); simpl; [done|].
  rewrite !bool_decide_and.
  destruct (bool_decide (toUserAccount t = w)); simpl.
  - case_bool_decide as Hneg; simpl.
    + by rewrite abs_neg.
    + by destruct (bool_decide (fromUserAccount t = w) && bool_decide (0 < sol_change_of w tx)%Qc).
  - by destruct (bool_decide (fromUserAccount t = w) && bool_decide (0 < sol_change_of w tx)%Qc).
Qed.

Lemma for_each_transfers w tx ts st :
  for_each (replay_transfer w (sol_change_of w tx) (timestamp tx)) ts st =
  if bool_decide (Forall (fun t => is_Some (tokenAmount t)) ts)
  then Some (fold_left apply_trade (omap (leg_of w tx) ts) st)
  else None.
Proof.
  revert st. induction ts as [|t ts IH]; intros st; [done|].
  rewrite (bool_decide_ext _ _ (list.Forall_cons _ _ _)), bool_decide_and.
  cbn [for_each]. rewrite replay_transfer_leg.
  destruct (tokenAmount t) as [q|] eqn:Hq.
  - rewrite bool_decide_eq_true_2 by done.
    cbn [mbind option_bind andb]. rewrite IH.
    simpl. by destruct (leg_of w tx t).
  - rewrite bool_decide_eq_false_2; [done|]. by intros [? ?].
Qed.

Lemma for_each_txs w txs st :
  for_each (replay_tx w) txs st =
  if bool_decide (decodable txs)
  then Some (fold_left apply_trade (events w txs) st)
  else None.
Proof.
  unfold decodable. revert st.
  induction txs as [|tx txs IH]; intros st; [done|].
  rewrite (bool_decide_ext _ _ (list.Forall_cons _ _ _)), bool_decide_and.
  cbn [for_each].
  rewrite (for_each_transfers w tx (tokenTransfers tx) st : replay_tx w st tx = _).
  destruct (bool_decide (Forall _ (tokenTransfers tx))); [|done].
  cbn [mbind option_bind andb]. rewrite IH.
  simpl. by rewrite fold_left_app.
Qed.

(** The replay of a decodable feed applies its classified legs in order;
    any other feed raises. *)
Lemma replay_events w txs :
  replay w txs =
  if bool_decide (decodable txs)
  then Some (fold_left apply_trade (events w txs) replay_start)
  else None.
Proof. apply for_each_txs. Qed.

Lemma apply_trades_state evs st :
  fold_left apply_trade evs st =
  {| trades := trades st ++ evs;
     token_pnl :=
       fold_left (fun d e => Dict.update new_ledger (ledger_step e) (trade_mint e) d)
         evs (token_pnl st);
     holdings :=
       fold_left (fun d e => Dict.update 0%Qc (holding_step e) (trade_mint e) d)
         evs (holdings st) |}.
Proof.
  revert st. induction evs as [|e evs IH]; intros st; simpl.
  - rewrite app_nil_r. by destruct st.
  - rewrite IH. simpl. by rewrite <- app_assoc.
Qed.

(** The state after replaying the legs [evs] from scratch. *)
Lemma replayed_state evs :
  fold_left apply_trade evs replay_start =
  {| trades := evs;
     token_pnl := Dict.grouped trade_mint ledger_step new_ledger evs;
     holdings := Dict.grouped trade_mint holding_step 0%Qc evs |}.
Proof.
  rewrite apply_trades_state. simpl.
  by rewrite !DictFacts.fold_update_grouped.
Qed.

(* ===================================================================== *)
(** * Facts about the ledgers and the summary *)
(* ===================================================================== *)


Lemma total_pos l : Forall (fun x => (0 < x)%Qc) l → l ≠ [] → (0 < total l)%Qc.
Proof.
  induction 1 as [|x l Hx Hl IH]; [done|]. intros _. simpl.
  destruct l as [|y l].
  - simpl. by rewrite Qcplus_0_r.
  - apply Qcplus_pos_pos; [done | by apply IH].
Qed.

Lemma filter_filter_bool {A : Type} (f g : A → bool) (l : list A) :
  List.filter f (List.filter g l) = List.filter (fun x => g x && f x) l.
Proof.
  induction l as [|x l IH]; simpl; [done|].
  destruct (g x); simpl; [|done]. destruct (f x); by rewrite IH.
Qed.

Lemma fold_ledger_buy_sol l data :
  buy_sol (fold_left (fun v e => ledger_step e v) l data) =
  (buy_sol data + total (map sol (List.filter (fun e => bool_decide (side e = BUY)) l)))%Qc.
Proof.
  revert data. induction l as [|e l IH]; intros data; simpl.
  - ring.
  - rewrite IH. unfold ledger_step. destruct (side e); simpl; ring.
Qed.

Lemma fold_ledger_sell_sol l data :
  sell_sol (fold_left (fun v e => ledger_step e v) l data) =
  (sell_sol data + total (map sol (List.filter (fun e => bool_decide (side e = SELL)) l)))%Qc.
Proof.
  revert data. induction l as [|e l IH]; intros data; simpl.
  - ring.
  - rewrite IH. unfold ledger_step. destruct (side e); simpl; ring.
Qed.

Lemma filter_side_mint s m evs :
  List.filter (fun e => bool_decide (side e = s))
    (List.filter (fun e => bool_decide (trade_mint e = m)) evs) =
  List.filter (fun e => bool_decide (side e = s ∧ trade_mint e = m)) evs.
Proof.
  rewrite filter_filter_bool. apply filter_ext. intros e.
  rewrite bool_decide_and. apply andb_comm.
Qed.

(** The ledger of a token accumulates exactly its BUY costs and SELL
    proceeds. *)
Lemma grouped_ledger_buy_sol m evs :
  buy_sol (fold_left (fun v e => ledger_step e v)
             (List.filter (fun e => bool_decide (trade_mint e = m)) evs) new_ledger) =
  boughtNative m evs.
Proof.
  rewrite fold_ledger_buy_sol, filter_side_mint. unfold boughtNative, is_buy_of.
  simpl. ring.
Qed.

Lemma grouped_ledger_sell_sol m evs :
  sell_sol (fold_left (fun v e => ledger_step e v)
              (List.filter (fun e => bool_decide (trade_mint e = m)) evs) new_ledger) =
  soldNative m evs.
Proof.
  rewrite fold_ledger_sell_sol, filter_side_mint. unfold soldNative, is_sell_of.
  simpl. ring.
Qed.

(** The loop over [token_pnl.items()]: the running total adds the PnL of
    every ledger, the win counter counts the ledgers bought into with a
    positive PnL. *)
Lemma tally_fold current d acc :
  let tally := fold_left (tally_token current) d acc in
  tally_pnl tally = (tally_pnl acc + total (map ledger_pnl d))%Qc ∧
  tally_wins tally = (tally_wins acc + length (List.filter ledger_won d))%nat.
Proof.
  revert acc. induction d as [|item d IH]; intros acc; simpl.
  - split; [ring | lia].
  - destruct (IH (tally_token current acc item)) as [-> ->].
    unfold tally_token, ledger_won, ledger_pnl.
    destruct (Num.ltb 0 (buy_sol (snd item))); simpl.
    + destruct (Num.ltb 0 (sell_sol (snd item) - buy_sol (snd item))); simpl;
        (split; [ring | lia]).
    + split; [ring | lia].
Qed.

Lemma existsb_filter_nonempty {A : Type} (f : A → bool) (l : list A) :
  existsb f l = true ↔ List.filter f l ≠ [].
Proof.
  induction l as [|x l IH]; simpl; [done|].
  destruct (f x); simpl; [done | exact IH].
Qed.

Lemma Forall_filter_bool {A : Type} (P : A → Prop) (f : A → bool) (l : list A) :
  Forall P l → Forall P (List.filter f l).
Proof.
  induction 1 as [|x l Hx Hl IH]; simpl; [constructor|].
  destruct (f x); [by constructor | done].
Qed.

(** When every leg moves a positive native amount, a token has a positive
    purchase cost exactly when it has a BUY leg. *)
Lemma bought_positive_has_buy evs m :
  Forall (fun e => (0 < sol e)%Qc) evs →
  Num.ltb 0%Qc (boughtNative m evs) = has_buy evs m.
Proof.
  intros Hpos. unfold Num.ltb, has_buy, boughtNative.
  destruct (existsb (is_buy_of m) evs) eqn:Hex.
  - apply bool_decide_eq_true. apply total_pos.
    + apply Forall_map, Forall_filter_bool. exact Hpos.
    + apply existsb_filter_nonempty in Hex.
      by destruct (List.filter (is_buy_of m) evs).
  - apply bool_decide_eq_false.
    assert (List.filter (is_buy_of m) evs = []) as ->.
    { destruct (List.filter (is_buy_of m) evs) eqn:Hf; [done|].
      assert (existsb (is_buy_of m) evs = true) as Ht
        by (apply existsb_filter_nonempty; by rewrite Hf).
      congruence. }
    simpl. apply (irreflexivity Qclt).
Qed.

Lemma sol_change_sign_leg w tx t e :
  leg_of w tx t = Some e → (0 < sol e)%Qc.
Proof.
  unfold leg_of.
  destruct (bool_decide (mint t = "")); [done|].
  destruct (bool_decide (default 0%Qc (tokenAmount t) = 0%Qc)); [done|].
  case_bool_decide as Hb.
  - intros [= <-]. simpl. destruct Hb as [_ Hb].
    apply Qclt_minus_iff in Hb. by rewrite Qcplus_0_l in Hb.
  - case_bool_decide as Hs; [|done].
    intros [= <-]. simpl. by destruct Hs.
Qed.

Lemma events_positive w txs : Forall (fun e => (0 < sol e)%Qc) (events w txs).
Proof.
  unfold events. rewrite List.Forall_forall. intros e Hin.
  apply in_flat_map in Hin as (tx & _ & Hin).
  apply list_elem_of_In, list_elem_of_omap in Hin as (t & _ & Hleg).
  by eapply sol_change_sign_leg.
Qed.

Lemma wallet_pnl_of_ok w mints txs :
  wallet_pnl_of (HttpResponse 200 (BodyList txs)) w mints =
  if bool_decide (decodable txs)
  then summarise (fold_left apply_trade (events w txs) replay_start)
  else None.
Proof.
  unfold wallet_pnl_of. rewrite bool_decide_eq_false_2 by (intros H; by apply H).
  destruct txs as [|tx txs].
  - rewrite bool_decide_eq_true_2 by constructor. done.
  - rewrite replay_events. by destruct (bool_decide (decodable (tx :: txs))).
Qed.

Lemma filter_map_bool {A B : Type} (f : B → bool) (g : A → B) (l : list A) :
  List.filter f (map g l) = map g (List.filter (fun x => f (g x)) l).
Proof.
  induction l as [|x l IH]; simpl; [done|].
  destruct (f (g x)); simpl; by rewrite IH.
Qed.

Lemma traded_tokens_nonempty e evs : traded_tokens (e :: evs) ≠ [].
Proof.
  intros H. assert (trade_mint e ∈ traded_tokens (e :: evs)) as Hin.
  { apply elem_of_first_seen. simpl. apply elem_of_cons. by left. }
  rewrite H in Hin. by apply elem_of_nil in Hin.
Qed.

(** What the summary reports, in terms of the classified legs. *)
Lemma summarise_replayed evs r :
  Forall (fun e => (0 < sol e)%Qc) evs →
  summarise (fold_left apply_trade evs replay_start) = Some r →
  evs ≠ [] ∧
  total_pnl_sol r = Num.round (realized_over (traded_tokens evs) evs) 4 ∧
  total_positions r = length (traded_tokens evs) ∧
  wins r = length (List.filter (is_win evs) (traded_tokens evs)) ∧
  win_rate r = Num.round (Num.of_nat (wins r) / Num.of_nat (total_positions r))%Qc 3 ∧
  trade_count r = length evs.
Proof.
  intros Hpos. rewrite replayed_state. unfold summarise.
  cbn [trades token_pnl holdings].
  destruct evs as [|e evs0]; [done|].
  cbv beta iota zeta.
  assert (traded_tokens (e :: evs0) ≠ []) as Hne by apply traded_tokens_nonempty.
  remember (e :: evs0) as evs eqn:Hevs.
  intros [= <-].
  cbn [total_pnl_sol total_positions wins win_rate trade_count].
  destruct (tally_fold (Dict.grouped trade_mint holding_step 0%Qc evs)
              (Dict.grouped trade_mint ledger_step new_ledger evs) tally_start)
    as [Hpnl Hwins].
  cbn [tally_start tally_pnl tally_wins] in Hpnl, Hwins.
  rewrite Hpnl, Hwins. clear Hpnl Hwins.
  assert (length (Dict.grouped trade_mint ledger_step new_ledger evs) =
          length (traded_tokens evs)) as Hlen
    by (unfold Dict.grouped; by rewrite length_map).
  assert (List.filter ledger_won (Dict.grouped trade_mint ledger_step new_ledger evs) =
          map (fun m => (m, fold_left (fun v x => ledger_step x v)
                 (List.filter (fun x => bool_decide (trade_mint x = m)) evs) new_ledger))
            (List.filter (is_win evs) (traded_tokens evs))) as Hwon.
  { unfold Dict.grouped. rewrite filter_map_bool. f_equal.
    apply filter_ext. intros m. unfold ledger_won, ledger_pnl, is_win.
    cbn [fst snd].
    rewrite grouped_ledger_buy_sol, grouped_ledger_sell_sol.
    by rewrite bought_positive_has_buy. }
  split_and!.
  - by subst evs.
  - f_equal. rewrite Qcplus_0_l. unfold realized_over, Dict.grouped.
    rewrite map_map. f_equal. apply map_ext. intros m.
    unfold ledger_pnl, realizedPnl. cbn [fst snd].
    by rewrite grouped_ledger_buy_sol, grouped_ledger_sell_sol.
  - exact Hlen.
  - rewrite Hwon. by rewrite length_map.
  - rewrite Hlen, Hwon, length_map.
    destruct (traded_tokens evs); [done|]. done.
  - done.
Qed.

(* ===================================================================== *)
(** * Facts about the tracked holdings *)
(* ===================================================================== *)

Lemma Forall_dict_set {V : Type} (P : string * V → Prop) k v (d : Dict.t V) :
  Forall P d → P (k, v) → Forall P (Dict.set k v d).
Proof.
  intros Hd Hkv. induction Hd as [|[k' v'] d Hx Hd IH]; simpl.
  - by constructor.
  - destruct (decide (k' = k)) as [->|Hne]; by constructor.
Qed.

Lemma get_set_same {V : Type} k v (d : Dict.t V) :
  Dict.get k (Dict.set k v d) = Some v.
Proof.
  induction d as [|[k' v'] d IH]; simpl.
  - by rewrite decide_True.
  - destruct (decide (k' = k)) as [->|Hne]; simpl.
    + by rewrite decide_True.
    + by rewrite decide_False.
Qed.

Lemma get_or_nonneg k (d : Dict.t Qc) :
  Forall (fun kv => (0 <= snd kv)%Qc) d → (0 <= Dict.get_or k 0%Qc d)%Qc.
Proof.
  unfold Dict.get_or. induction 1 as [|[k' v'] d Hx Hd IH]; simpl.
  - apply Qcle_refl.
  - destruct (decide (k' = k)); [exact Hx | exact IH].
Qed.

Lemma holding_step_nonneg e h :
  (0 <= h)%Qc → (0 <= amount e)%Qc → (0 <= holding_step e h)%Qc.
Proof.
  intros Hh Ha. unfold holding_step. destruct (side e).
  - by apply Qcplus_nonneg_nonneg.
  - apply max0_nonneg.
Qed.

(** One BUY or SELL update keeps every tracked holding non-negative. *)
Lemma apply_trade_nonneg st e :
  holdings_nonneg st → (0 <= amount e)%Qc → holdings_nonneg (apply_trade st e).
Proof.
  unfold holdings_nonneg, apply_trade, Dict.update. simpl. intros Hst Ha.
  apply Forall_dict_set; [done|]. simpl.
  apply holding_step_nonneg; [by apply get_or_nonneg | done].
Qed.

Lemma apply_trades_nonneg evs st :
  holdings_nonneg st → Forall (fun e => (0 <= amount e)%Qc) evs →
  holdings_nonneg (fold_left apply_trade evs st).
Proof.
  intros Hst Hevs. revert st Hst.
  induction Hevs as [|e evs He Hevs IH]; intros st Hst; simpl; [done|].
  apply IH. by apply apply_trade_nonneg.
Qed.

Lemma leg_of_amount w tx t e q :
  tokenAmount t = Some q → leg_of w tx t = Some e → amount e = q.
Proof.
  unfold leg_of. intros ->. simpl.
  repeat (case_bool_decide; try done); by intros [= <-].
Qed.

Lemma events_amounts_nonneg w txs :
  quantities_nonneg txs → Forall (fun e => (0 <= amount e)%Qc) (events w txs).
Proof.
  unfold quantities_nonneg, events. rewrite !List.Forall_forall.
  intros Hq e (tx & Htx & Hin)%in_flat_map.
  apply list_elem_of_In, list_elem_of_omap in Hin as (t & Ht & Hleg).
  specialize (Hq tx Htx). rewrite List.Forall_forall in Hq.
  destruct (Hq t) as (q & Hq1 & Hq2); [by apply list_elem_of_In|].
  by rewrite (leg_of_amount _ _ _ _ _ Hq1 Hleg).
Qed.

Lemma quantities_nonneg_decodable txs : quantities_nonneg txs → decodable txs.
Proof.
  unfold quantities_nonneg, decodable. intros H.
  eapply List.Forall_impl; [|exact H]. intros tx Htx. simpl in Htx.
  eapply List.Forall_impl; [|exact Htx]. intros t (q & -> & _). by eexists.
Qed.

(** The same at the level of the source loop body: whatever the balance
    change, a transfer with a non-negative quantity keeps the invariant. *)
Lemma replay_transfer_nonneg w sol_change tx_ts st t st' q :
  tokenAmount t = Some q → (0 <= q)%Qc → holdings_nonneg st →
  replay_transfer w sol_change tx_ts st t = Some st' → holdings_nonneg st'.
Proof.
  intros Hq Hq0 Hst. unfold replay_transfer. rewrite Hq. simpl.
  destruct (_ || _); [by intros [= <-]|].
  destruct (_ && _).
  { intros [= <-]. unfold holdings_nonneg. simpl.
    apply Forall_dict_set; [done|]. simpl.
    apply Qcplus_nonneg_nonneg; [by apply get_or_nonneg | done]. }
  destruct (_ && _); [|by intros [= <-]].
  intros [= <-]. unfold holdings_nonneg. simpl.
  apply Forall_dict_set; [done|]. apply max0_nonneg.
Qed.

(* ===================================================================== *)
(** * Facts about double precision *)
(* ===================================================================== *)

Section Binary64Facts.
Import Binary64.

Lemma digits2_pos_bound p : 2 ^ (Z.pos (digits2_pos p) - 1) ≤ Z.pos p.
Proof.
  induction p as [p IH|p IH|]; cbn [digits2_pos]; [| |done].
  - rewrite Pos2Z.inj_succ. replace (Z.succ (Z.pos (digits2_pos p)) - 1)
      with (Z.succ (Z.pos (digits2_pos p) - 1)) by lia.
    rewrite Z.pow_succ_r by lia. lia.
  - rewrite Pos2Z.inj_succ. replace (Z.succ (Z.pos (digits2_pos p)) - 1)
      with (Z.succ (Z.pos (digits2_pos p) - 1)) by lia.
    rewrite Z.pow_succ_r by lia. lia.
Qed.

Lemma shr_1_keeps n mrs :
  1 ≤ n → 2 ^ n ≤ shr_m mrs → 2 ^ (n - 1) ≤ shr_m (shr_1 mrs).
Proof.
  intros Hn. replace n with (Z.succ (n - 1)) at 1 by lia.
  rewrite Z.pow_succ_r by lia.
  assert (0 < 2 ^ (n - 1)) by (apply Z.pow_pos_nonneg; lia).
  destruct mrs as [m r s]. destruct m as [|[p|p|]|p]; cbn [shr_1 shr_m]; lia.
Qed.

Lemma iter_shr_1_keeps p : ∀ n mrs,
  Z.pos p ≤ n → 2 ^ n ≤ shr_m mrs → 2 ^ (n - Z.pos p) ≤ shr_m (iter_pos shr_1 p mrs).
Proof.
  induction p as [p IH|p IH|]; intros n mrs Hn Hm; cbn [iter_pos].
  - replace (n - Z.pos p~1) with (n - 1 - Z.pos p - Z.pos p) by lia.
    apply IH; [lia|]. apply IH; [lia|]. apply shr_1_keeps; [lia|done].
  - replace (n - Z.pos p~0) with (n - Z.pos p - Z.pos p) by lia.
    apply IH; [lia|]. apply IH; [lia|done].
  - apply shr_1_keeps; [lia|done].
Qed.

Lemma shr_record_of_loc_m m l : shr_m (shr_record_of_loc m l) = m.
Proof. by destruct l as [|[]]. Qed.

(** Shifting a mantissa to the exponent of the format never goes below
    the least exponent, and leaves a positive mantissa positive when the
    exponent it starts from is one of the format. *)
Lemma shr_fexp_exponent m e l : emin prec emax ≤ snd (shr_fexp prec emax m e l).
Proof.
  unfold shr_fexp, shr, fexp, emin, prec, emax.
  destruct (Z.max (Zdigits2 m + e - 53) (3 - 1024 - 53) - e) eqn:Hn; cbn [snd]; lia.
Qed.

Lemma shr_fexp_positive p e l :
  emin prec emax ≤ e → 0 < shr_m (fst (shr_fexp prec emax (Z.pos p) e l)).
Proof.
  intros He. pose proof (digits2_pos_bound p) as Hd.
  unfold shr_fexp, shr, fexp, emin, prec, emax in *. cbn [Zdigits2].
  destruct (Z.max (Z.pos (digits2_pos p) + e - 53) (3 - 1024 - 53) - e) as [|k|k] eqn:Hn;
    cbn [fst]; rewrite ?shr_record_of_loc_m; [lia| |lia].
  assert (0 < 2 ^ (Z.pos (digits2_pos p) - 1 - Z.pos k)) by (apply Z.pow_pos_nonneg; lia).
  pose proof (iter_shr_1_keeps k (Z.pos (digits2_pos p) - 1)
                (shr_record_of_loc (Z.pos p) l)) as Hk.
  rewrite shr_record_of_loc_m in Hk. lia.
Qed.

Lemma round_nearest_even_positive m l : 0 < m → 0 < round_nearest_even m l.
Proof.
  intros Hm. destruct l as [|[]]; cbn [round_nearest_even]; [lia| |lia|lia].
  destruct (Z.even m); lia.
Qed.

Lemma binary_round_aux_bounded s m e l :
  bounded_below (binary_round_aux prec emax s m e l).
Proof.
  unfold binary_round_aux.
  destruct (shr_fexp prec emax m e l) as [mrs' e'].
  pose proof (shr_fexp_exponent
                (round_nearest_even (shr_m mrs') (loc_of_shr_record mrs')) e' loc_Exact) as He.
  destruct (shr_fexp prec emax _ e' loc_Exact) as [mrs'' e'']. cbn [snd] in He.
  destruct (shr_m mrs''); [done| |done].
  by destruct (e'' <=? emax - prec).
Qed.

Lemma binary_round_aux_positive p e l :
  emin prec emax ≤ e → positive (binary_round_aux prec emax false (Z.pos p) e l).
Proof.
  intros He. unfold binary_round_aux.
  pose proof (shr_fexp_positive p e l He) as Hm.
  pose proof (shr_fexp_exponent (Z.pos p) e l) as He'.
  destruct (shr_fexp prec emax (Z.pos p) e l) as [mrs' e']. cbn [fst snd] in Hm, He'.
  pose proof (round_nearest_even_positive _ (loc_of_shr_record mrs') Hm) as Hr.
  destruct (round_nearest_even (shr_m mrs') (loc_of_shr_record mrs')) as [|r|r]; [lia| |lia].
  pose proof (shr_fexp_positive r e' loc_Exact He') as Hm'.
  pose proof (shr_fexp_exponent (Z.pos r) e' loc_Exact) as He''.
  destruct (shr_fexp prec emax (Z.pos r) e' loc_Exact) as [mrs'' e'']. cbn [fst snd] in Hm', He''.
  destruct (shr_m mrs''); [lia| |lia].
  by destruct (e'' <=? emax - prec).
Qed.

Lemma binary_round_positive p e :
  emin prec emax ≤ e → positive (binary_round prec emax false p e).
Proof.
  intros He. unfold binary_round, shl_align.
  assert (emin prec emax ≤ fexp prec emax (Z.pos (digits2_pos p) + e)) as Hf
    by (unfold fexp; lia).
  destruct (fexp prec emax (Z.pos (digits2_pos p) + e) - e);
    by apply binary_round_aux_positive.
Qed.

(** The sum of two doubles above zero is above zero: it cannot round to
    zero, and an overflow gives the positive infinity. *)
Lemma add_positive x y : positive x → positive y → positive (add x y).
Proof.
  destruct x as [[]|[]| |[] mx ex], y as [[]|[]| |[] my ey]; try done.
  intros Hx Hy. cbn [positive] in Hx, Hy.
  unfold add, SFadd. cbn [cond_Zopp]. rewrite <- Pos2Z.inj_add. cbn [binary_normalize].
  apply binary_round_positive. lia.
Qed.

Lemma sum_positive l : l ≠ [] → Forall positive l → positive (sum l).
Proof.
  destruct l as [|x l]; [done|]. intros _ Hl.
  apply list.Forall_cons in Hl as [Hx Hl]. unfold sum. cbn [fold_left].
  assert (add zero x = x) as -> by (by destruct x as [[]|[]| |[] mx ex]).
  revert x Hx. induction Hl as [|y l Hy Hl IH]; intros x Hx; [done|].
  cbn [fold_left]. apply IH. by apply add_positive.
Qed.

Lemma sub_zero x : sub x zero = x.
Proof. by destruct x as [[]|[]| |[] mx ex]. Qed.

Lemma positive_above_zero x : positive x → ltb zero x = true.
Proof. by destruct x as [[]|[]| |[] mx ex]. Qed.

Lemma div_bounded x y : bounded_below (div x y).
Proof.
  destruct x as [sx|sx| |sx mx ex], y as [sy|sy| |sy my ey]; try done.
  unfold div, SFdiv.
  destruct (SFdiv_core_binary prec emax (Z.pos mx) ex (Z.pos my) ey) as [[mz ez] lz].
  apply binary_round_aux_bounded.
Qed.

Lemma below_zero_abs x : bounded_below x → ltb x zero = true → positive (abs x).
Proof. by destruct x as [[]|[]| |[] mx ex]. Qed.

Lemma above_zero_positive x : bounded_below x → ltb zero x = true → positive x.
Proof. by destruct x as [[]|[]| |[] mx ex]. Qed.

End Binary64Facts.

(* ===================================================================== *)
(** * Facts about the replay in double precision *)
(* ===================================================================== *)

Section DoubleReplay.
Import Binary64 Double.

Lemma double_replay_transfer_leg w change tx_ts st t :
  replay_transfer w change tx_ts st t =
  match tokenAmount t with
  | None => None
  | Some _ => Some (from_option (apply_trade st) st (leg_of w change tx_ts t))
  end.
Proof.
  unfold replay_transfer, leg_of.
  destruct (tokenAmount t) as [q|]; simpl; [|done].
  destruct (bool_decide (mint t = "")); simpl; [done|].
  destruct (eqb q zero); simpl; [done|].
  destruct (bool_decide (toUserAccount t = w) && ltb change zero); [done|].
  by destruct (bool_decide (fromUserAccount t = w) && ltb zero change).
Qed.

Lemma double_for_each_transfers w change tx_ts tts st :
  for_each (replay_transfer w change tx_ts) tts st =
  if bool_decide (Forall (fun t => is_Some (tokenAmount t)) tts)
  then Some (fold_left apply_trade (omap (leg_of w change tx_ts) tts) st)
  else None.
Proof.
  revert st. induction tts as [|t tts IH]; intros st; [done|].
  rewrite (bool_decide_ext _ _ (list.Forall_cons _ _ _)), bool_decide_and.
  cbn [for_each]. rewrite double_replay_transfer_leg.
  destruct (tokenAmount t) as [q|] eqn:Hq.
  - rewrite bool_decide_eq_true_2 by done.
    cbn [mbind option_bind andb]. rewrite IH.
    simpl. by destruct (leg_of w change tx_ts t).
  - rewrite bool_decide_eq_false_2; [done|]. by intros [? ?].
Qed.

Lemma double_replay_tx_legs w st tx :
  replay_tx w st tx =
  match sol_change_of w tx with
  | Some change =>
      if bool_decide (Forall (fun t => is_Some (tokenAmount t)) (tokenTransfers tx))
      then Some (fold_left apply_trade
                   (omap (leg_of w change (timestamp tx)) (tokenTransfers tx)) st)
      else None
  | None => None
  end.
Proof.
  unfold replay_tx. destruct (sol_change_of w tx) as [change|]; [|done].
  cbn [mbind option_bind]. apply double_for_each_transfers.
Qed.

Lemma double_for_each_txs w txs st :
  for_each (replay_tx w) txs st =
  if bool_decide (decodable w txs)
  then Some (fold_left apply_trade (events w txs) st)
  else None.
Proof.
  unfold decodable. revert st.
  induction txs as [|tx txs IH]; intros st; [done|].
  rewrite (bool_decide_ext _ _ (list.Forall_cons _ _ _)), !bool_decide_and.
  cbn [for_each events flat_map]. rewrite double_replay_tx_legs.
  destruct (sol_change_of w tx) as [change|] eqn:Hc.
  - rewrite (bool_decide_eq_true_2 (is_Some (Some change))) by done.
    destruct (bool_decide (Forall _ (tokenTransfers tx))); [|done].
    cbn [mbind option_bind andb]. rewrite IH.
    unfold events. by rewrite fold_left_app.
  - rewrite (bool_decide_eq_false_2 (is_Some None)); [done|]. by intros [? ?].
Qed.

(** The replay of a decodable feed applies its classified legs in order;
    any other feed raises. *)
Lemma double_replay_events w txs :
  replay w txs =
  if bool_decide (decodable w txs)
  then Some (fold_left apply_trade (events w txs) replay_start)
  else None.
Proof. apply double_for_each_txs. Qed.

Lemma double_apply_trades_state evs st :
  fold_left apply_trade evs st =
  {| trades := trades st ++ evs;
     token_pnl :=
       fold_left (fun d e => Dict.update new_ledger (ledger_step e) (trade_mint e) d)
         evs (token_pnl st);
     holdings :=
       fold_left (fun d e => Dict.update zero (holding_step e) (trade_mint e) d)
         evs (holdings st) |}.
Proof.
  revert st. induction evs as [|e evs IH]; intros st; simpl.
  - rewrite app_nil_r. by destruct st.
  - rewrite IH. simpl. by rewrite <- app_assoc.
Qed.

Lemma double_replayed_state evs :
  fold_left apply_trade evs replay_start =
  {| trades := evs;
     token_pnl := Dict.grouped trade_mint ledger_step new_ledger evs;
     holdings := Dict.grouped trade_mint holding_step zero evs |}.
Proof.
  rewrite double_apply_trades_state. simpl.
  by rewrite !DictFacts.fold_update_grouped.
Qed.

Lemma double_fold_ledger_buy_sol l data :
  buy_sol (fold_left (fun v e => ledger_step e v) l data) =
  fold_left add (map sol (List.filter (fun e => bool_decide (side e = BUY)) l))
    (buy_sol data).
Proof.
  revert data. induction l as [|e l IH]; intros data; simpl; [done|].
  rewrite IH. unfold ledger_step. by destruct (side e).
Qed.

Lemma double_fold_ledger_sell_sol l data :
  sell_sol (fold_left (fun v e => ledger_step e v) l data) =
  fold_left add (map sol (List.filter (fun e => bool_decide (side e = SELL)) l))
    (sell_sol data).
Proof.
  revert data. induction l as [|e l IH]; intros data; simpl; [done|].
  rewrite IH. unfold ledger_step. by destruct (side e).
Qed.

Lemma double_filter_side_mint s m evs :
  List.filter (fun e => bool_decide (side e = s))
    (List.filter (fun e => bool_decide (trade_mint e = m)) evs) =
  List.filter (fun e => bool_decide (side e = s ∧ trade_mint e = m)) evs.
Proof.
  rewrite filter_filter_bool. apply filter_ext. intros e.
  rewrite bool_decide_and. apply andb_comm.
Qed.

(** The ledger of a token accumulates its BUY costs and its SELL proceeds
    in feed order. *)
Lemma double_grouped_ledger_buy_sol m evs :
  buy_sol (fold_left (fun v e => ledger_step e v)
             (List.filter (fun e => bool_decide (trade_mint e = m)) evs) new_ledger) =
  boughtNative m evs.
Proof. by rewrite double_fold_ledger_buy_sol, double_filter_side_mint. Qed.

Lemma double_grouped_ledger_sell_sol m evs :
  sell_sol (fold_left (fun v e => ledger_step e v)
              (List.filter (fun e => bool_decide (trade_mint e = m)) evs) new_ledger) =
  soldNative m evs.
Proof. by rewrite double_fold_ledger_sell_sol, double_filter_side_mint. Qed.

(** The loop over [token_pnl.items()]: the running total adds the PnL of
    every ledger in turn, the win counter counts the ledgers bought into
    with a positive PnL. *)
Lemma double_tally_fold current d acc :
  let tally := fold_left (tally_token current) d acc in
  tally_pnl tally = fold_left add (map ledger_pnl d) (tally_pnl acc) ∧
  tally_wins tally = (tally_wins acc + length (List.filter ledger_won d))%nat.
Proof.
  revert acc. induction d as [|item d IH]; intros acc; simpl.
  - split; [done | lia].
  - destruct (IH (tally_token current acc item)) as [-> ->].
    unfold tally_token, ledger_won, ledger_pnl.
    destruct (ltb zero (buy_sol (snd item))); simpl.
    + destruct (ltb zero (sub (sell_sol (snd item)) (buy_sol (snd item)))); simpl;
        (split; [done | lia]).
    + split; [done | lia].
Qed.

Lemma double_wallet_pnl_of_ok w mints txs :
  wallet_pnl_of (HttpResponse 200 (BodyList txs)) w mints =
  if bool_decide (decodable w txs)
  then summarise (fold_left apply_trade (events w txs) replay_start)
  else None.
Proof.
  unfold wallet_pnl_of. rewrite bool_decide_eq_false_2 by (intros H; by apply H).
  destruct txs as [|tx txs].
  - rewrite bool_decide_eq_true_2 by constructor. done.
  - rewrite double_replay_events. by destruct (bool_decide (decodable w (tx :: txs))).
Qed.


Lemma double_sol_change_bounded w tx change :
  sol_change_of w tx = Some change → bounded_below change.
Proof.
  unfold sol_change_of.
  assert (bounded_below zero) as Hz by done. revert Hz.
  generalize zero. induction (accountData tx) as [|c cs IH]; intros acc Hacc; cbn [for_each].
  - by intros [= <-].
  - destruct (decide (account c = w)).
    + unfold lamports_to_sol. destruct (of_int (nativeBalanceChange c)) as [x|]; [|done].
      cbn [mbind option_bind]. apply IH, div_bounded.
    + cbn [mbind option_bind]. by apply IH.
Qed.

Lemma double_leg_positive w change tx_ts t e :
  bounded_below change → leg_of w change tx_ts t = Some e → positive (sol e).
Proof.
  intros Hb. unfold leg_of.
  destruct (bool_decide (mint t = "")); [done|].
  destruct (eqb (default zero (tokenAmount t)) zero); [done|].
  destruct (bool_decide (toUserAccount t = w)); cbn [andb].
  - destruct (ltb change zero) eqn:Hneg.
    + intros [= <-]. cbn [sol]. by apply below_zero_abs.
    + destruct (bool_decide (fromUserAccount t = w)); cbn [andb]; [|done].
      destruct (ltb zero change) eqn:Hpos; [|done].
      intros [= <-]. cbn [sol]. by apply above_zero_positive.
  - destruct (bool_decide (fromUserAccount t = w)); cbn [andb]; [|done].
    destruct (ltb zero change) eqn:Hpos; [|done].
    intros [= <-]. cbn [sol]. by apply above_zero_positive.
Qed.

(** Every classified leg moves a native amount above zero. *)
Lemma double_events_positive w txs : Forall (fun e => positive (sol e)) (events w txs).
Proof.
  unfold events. rewrite List.Forall_forall. intros e Hin.
  apply in_flat_map in Hin as (tx & _ & Hin).
  destruct (sol_change_of w tx) as [change|] eqn:Hc; [|done].
  apply list_elem_of_In, list_elem_of_omap in Hin as (t & _ & Hleg).
  eapply double_leg_positive; [|exact Hleg]. by eapply double_sol_change_bounded.
Qed.

(** When every leg moves an amount above zero, the purchase cost of a
    token is above zero exactly when the token has a BUY leg. *)
Lemma double_bought_positive_has_buy evs m :
  Forall (fun e => positive (sol e)) evs →
  ltb zero (boughtNative m evs) = has_buy evs m.
Proof.
  intros Hpos. unfold has_buy, boughtNative.
  destruct (existsb (is_buy_of m) evs) eqn:Hex.
  - apply positive_above_zero, sum_positive.
    + apply existsb_filter_nonempty in Hex.
      by destruct (List.filter (is_buy_of m) evs).
    + apply Forall_map, Forall_filter_bool. exact Hpos.
  - assert (List.filter (is_buy_of m) evs = []) as ->; [|done].
    destruct (List.filter (is_buy_of m) evs) eqn:Hf; [done|].
    assert (existsb (is_buy_of m) evs = true) as Ht
      by (apply existsb_filter_nonempty; by rewrite Hf).
    congruence.
Qed.

(** A token without a BUY leg has no purchase cost. *)
Lemma double_no_buy_no_cost evs m : has_buy evs m = false → boughtNative m evs = zero.
Proof.
  intros Hex. unfold boughtNative.
  assert (List.filter (is_buy_of m) evs = []) as ->; [|done].
  destruct (List.filter (is_buy_of m) evs) eqn:Hf; [done|].
  assert (existsb (is_buy_of m) evs = true) as Ht
    by (apply existsb_filter_nonempty; by rewrite Hf).
  unfold has_buy in Hex. congruence.
Qed.

Lemma double_traded_tokens_nonempty e evs : traded_tokens (e :: evs) ≠ [].
Proof.
  intros H. assert (trade_mint e ∈ traded_tokens (e :: evs)) as Hin.
  { apply elem_of_first_seen. simpl. apply elem_of_cons. by left. }
  rewrite H in Hin. by apply elem_of_nil in Hin.
Qed.

(** What the summary reports, in terms of the classified legs. *)
Lemma double_summarise_replayed evs r :
  Forall (fun e => positive (sol e)) evs →
  summarise (fold_left apply_trade evs replay_start) = Some r →
  evs ≠ [] ∧
  total_pnl_sol r = round (realized_over (traded_tokens evs) evs) 4 ∧
  total_positions r = length (traded_tokens evs) ∧
  wins r = length (List.filter (is_win evs) (traded_tokens evs)) ∧
  win_rate r =
    round (ratio (Z.of_nat (wins r)) (Pos.of_nat (total_positions r))) 3 ∧
  trade_count r = length evs.
Proof.
  intros Hpos. rewrite double_replayed_state. unfold summarise.
  cbn [trades token_pnl holdings].
  destruct evs as [|e evs0]; [done|].
  cbv beta iota zeta.
  assert (traded_tokens (e :: evs0) ≠ []) as Hne by apply double_traded_tokens_nonempty.
  remember (e :: evs0) as evs eqn:Hevs.
  intros [= <-].
  cbn [total_pnl_sol total_positions wins win_rate trade_count].
  destruct (double_tally_fold (Dict.grouped trade_mint holding_step zero evs)
              (Dict.grouped trade_mint ledger_step new_ledger evs) tally_start)
    as [Hpnl Hwins].
  cbn [tally_start tally_pnl tally_wins] in Hpnl, Hwins.
  rewrite Hpnl, Hwins. clear Hpnl Hwins.
  assert (length (Dict.grouped trade_mint ledger_step new_ledger evs) =
          length (traded_tokens evs)) as Hlen
    by (unfold Dict.grouped; by rewrite length_map).
  assert (List.filter ledger_won (Dict.grouped trade_mint ledger_step new_ledger evs) =
          map (fun m => (m, fold_left (fun v x => ledger_step x v)
                 (List.filter (fun x => bool_decide (trade_mint x = m)) evs) new_ledger))
            (List.filter (is_win evs) (traded_tokens evs))) as Hwon.
  { unfold Dict.grouped. rewrite filter_map_bool. f_equal.
    apply filter_ext. intros m. unfold ledger_won, ledger_pnl, is_win.
    cbn [fst snd].
    rewrite double_grouped_ledger_buy_sol, double_grouped_ledger_sell_sol.
    by rewrite double_bought_positive_has_buy. }
  split_and!.
  - by subst evs.
  - f_equal. unfold realized_over, sum, Dict.grouped.
    rewrite map_map. f_equal. apply map_ext. intros m.
    unfold ledger_pnl, realizedPnl. cbn [fst snd].
    by rewrite double_grouped_ledger_buy_sol, double_grouped_ledger_sell_sol.
  - exact Hlen.
  - rewrite Hwon. by rewrite length_map.
  - rewrite Hlen, Hwon, length_map.
    destruct (traded_tokens evs); [done|]. done.
  - done.
Qed.

End DoubleReplay.

(* ===================================================================== *)
(** * The trade reconstructor: specification claims *)
(* ===================================================================== *)

Section Reconstructor.
Import Sample.

(** The scenario of the specification: one BUY for 2 SOL and one SELL for
    6 SOL give a PnL of 4 SOL, one win out of one position. *)
Example round_trip_report :
  (fun r => (this (total_pnl_sol r), this (win_rate r), wins r, total_positions r,
             map (fun t => (report_mint t, this (bought_sol t), this (sold_sol t),
                            this (pnl_sol t), win t)) (token_breakdown r)))
    <$> wallet_pnl_of (HttpResponse 200 (BodyList round_trip)) W [T1; T2]
  = Some (4%Q, 1%Q, 1%nat, 1%nat, [(T1, 2%Q, 6%Q, 4%Q, true)]).
Proof. reflexivity. Qed.

(** C1, as stated, fails: the proceeds of T2, sold but never bought,
    are part of the reported total (7 SOL), while the sum over the tokens
    with a BUY leg is 4.00001 SOL.  This is so over exact rationals and in
    double precision, where the report holds the double 7.0 and the sum
    over the tokens with a BUY leg is the double nearest to 4.00001. *)
Lemma total_pnl_counts_sell_only_token :
  (let evs := events W with_sell_only in
   bought_tokens evs = [T1] ∧
   this (realized_over (bought_tokens evs) evs) = (400001 # 100000)%Q ∧
   this (realized_over (traded_tokens evs) evs) = (700001 # 100000)%Q ∧
   (fun r => this (total_pnl_sol r))
     <$> wallet_pnl_of (HttpResponse 200 (BodyList with_sell_only)) W [T1; T2]
   = Some 7%Q) ∧
  (let evs := Double.events W Double.with_sell_only in
   Double.bought_tokens evs = [T1] ∧
   Double.traded_tokens evs = [T1; T2] ∧
   Double.realized_over (Double.bought_tokens evs) evs = Binary64.ratio 400001 100000 ∧
   Double.total_pnl_sol
     <$> Double.wallet_pnl_of
           (Double.HttpResponse 200 (Double.BodyList Double.with_sell_only)) W [T1; T2]
   = Some (Binary64.ratio 7 1)).
Proof. split; [repeat split; reflexivity | repeat split; vm_compute; reflexivity]. Qed.

(** One purchase for 150000 lamports: the cost is the double next below
    0.00015, and the reported total is -0.0001, where the half-even
    rounding of the decimal 0.00015 would give -0.0002. *)
Example small_buy_total :
  Double.total_pnl_sol
    <$> Double.wallet_pnl_of
          (Double.HttpResponse 200 (Double.BodyList Double.small_buy)) W [T1; T2]
  = Some (Binary64.ratio (-1) 10000).
Proof. vm_compute. reflexivity. Qed.

(** T1 bought for 0.3 SOL and sold for 0.1 + 0.2 SOL: in double precision
    the proceeds exceed the cost, so the token is a win, with a reported
    PnL of 0.0. *)
Example thirds_is_a_win :
  let evs := Double.events W Double.thirds in
  Binary64.ltb Binary64.zero (Double.realizedPnl T1 evs) = true ∧
  (fun r => (Double.wins r, Double.total_pnl_sol r,
             map (fun t => (Double.pnl_sol t, Double.win t)) (Double.token_breakdown r)))
    <$> Double.wallet_pnl_of
          (Double.HttpResponse 200 (Double.BodyList Double.thirds)) W [T1; T2]
  = Some (1%nat, Binary64.zero, [(Binary64.zero, true)]).
Proof. split; vm_compute; reflexivity. Qed.

(** C1 (amended): the reported total realized PnL is the sum of
    (soldNative - boughtNative) over every token with at least one
    classified leg, BUY or SELL, rounded to 4 decimals.  All of it is in
    the double-precision arithmetic of the program: the legs of a token
    are added in feed order, the tokens in first-seen order, and the
    rounding returns a double.  A token without a BUY leg contributes its
    sale proceeds. *)
Theorem total_pnl_over_traded_tokens (w : string) (mints : list string)
    (txs : list Double.Tx) (r : Double.WalletPnl) :
  Double.wallet_pnl_of (Double.HttpResponse 200 (Double.BodyList txs)) w mints = Some r →
  let evs := Double.events w txs in
  Double.total_pnl_sol r =
    Binary64.round (Double.realized_over (Double.traded_tokens evs) evs) 4 ∧
  ∀ m, Double.has_buy evs m = false →
       Double.realizedPnl m evs = Double.soldNative m evs.
Proof.
  rewrite double_wallet_pnl_of_ok. case_bool_decide; [|done].
  intros Hr evs. split.
  - by apply double_summarise_replayed in Hr as (_ & ? & _);
      [|apply double_events_positive].
  - intros m Hm. unfold Double.realizedPnl.
    rewrite (double_no_buy_no_cost _ _ Hm). apply sub_zero.
Qed.

Lemma total_pnl_over_traded_tokens_witness :
  ∃ r, Double.wallet_pnl_of
         (Double.HttpResponse 200 (Double.BodyList Double.with_sell_only)) W [T1; T2]
       = Some r ∧
       let evs := Double.events W Double.with_sell_only in
       Double.total_pnl_sol r =
         Binary64.round (Double.realized_over (Double.traded_tokens evs) evs) 4 ∧
       ∀ m, Double.has_buy evs m = false →
            Double.realizedPnl m evs = Double.soldNative m evs.
Proof.
  destruct (Double.wallet_pnl_of
              (Double.HttpResponse 200 (Double.BodyList Double.with_sell_only)) W [T1; T2])
    as [r|] eqn:Hr; [|by vm_compute in Hr].
  exists r. split; [reflexivity|].
  exact (total_pnl_over_traded_tokens W [T1; T2] Double.with_sell_only r Hr).
Defined.

(** C2, as stated, fails: T2 has only a SELL leg and still counts in the
    denominator: 2 positions and a win rate of 1/2, where the tokens with
    a BUY leg are 1 and all of them are wins.  This is so over exact
    rationals and in double precision, where the win rate is the double
    0.5. *)
Lemma win_rate_counts_sell_only_token :
  (let evs := events W with_sell_only in
   bought_tokens evs = [T1] ∧
   List.filter (is_win evs) (bought_tokens evs) = [T1] ∧
   (fun r => (wins r, total_positions r, this (win_rate r)))
     <$> wallet_pnl_of (HttpResponse 200 (BodyList with_sell_only)) W [T1; T2]
   = Some (1%nat, 2%nat, (1 # 2)%Q)) ∧
  (let evs := Double.events W Double.with_sell_only in
   Double.bought_tokens evs = [T1] ∧
   List.filter (Double.is_win evs) (Double.bought_tokens evs) = [T1] ∧
   (fun r => (Double.wins r, Double.total_positions r, Double.win_rate r))
     <$> Double.wallet_pnl_of
           (Double.HttpResponse 200 (Double.BodyList Double.with_sell_only)) W [T1; T2]
   = Some (1%nat, 2%nat, Binary64.ratio 1 2)).
Proof. split; [repeat split; reflexivity | repeat split; vm_compute; reflexivity]. Qed.

(** C2 (amended): the win-rate denominator counts every token with at
    least one classified leg, BUY or SELL; a token counts as a win exactly
    when it has a BUY leg and its realized PnL, soldNative - boughtNative
    in the double-precision arithmetic of the program, is strictly
    positive; the win rate is the double nearest to wins over positions,
    rounded to 3 decimals. *)
Theorem win_rate_over_traded_tokens (w : string) (mints : list string)
    (txs : list Double.Tx) (r : Double.WalletPnl) :
  Double.wallet_pnl_of (Double.HttpResponse 200 (Double.BodyList txs)) w mints = Some r →
  let evs := Double.events w txs in
  Double.total_positions r = length (Double.traded_tokens evs) ∧
  Double.wins r = length (List.filter (Double.is_win evs) (Double.traded_tokens evs)) ∧
  Double.win_rate r =
    Binary64.round
      (Binary64.ratio (Z.of_nat (Double.wins r)) (Pos.of_nat (Double.total_positions r))) 3.
Proof.
  rewrite double_wallet_pnl_of_ok. case_bool_decide; [|done].
  intros Hr evs.
  by apply double_summarise_replayed in Hr as (_ & _ & ? & ? & ? & _);
    [|apply double_events_positive].
Qed.

Lemma win_rate_over_traded_tokens_witness :
  ∃ r, Double.wallet_pnl_of
         (Double.HttpResponse 200 (Double.BodyList Double.with_sell_only)) W [T1; T2]
       = Some r ∧
       let evs := Double.events W Double.with_sell_only in
       Double.total_positions r = length (Double.traded_tokens evs) ∧
       Double.wins r =
         length (List.filter (Double.is_win evs) (Double.traded_tokens evs)) ∧
       Double.win_rate r =
         Binary64.round
           (Binary64.ratio (Z.of_nat (Double.wins r))
              (Pos.of_nat (Double.total_positions r))) 3.
Proof.
  destruct (Double.wallet_pnl_of
              (Double.HttpResponse 200 (Double.BodyList Double.with_sell_only)) W [T1; T2])
    as [r|] eqn:Hr; [|by vm_compute in Hr].
  exists r. split; [reflexivity|].
  exact (win_rate_over_traded_tokens W [T1; T2] Double.with_sell_only r Hr).
Defined.
End Reconstructor.


Section Holdings.
Import Sample.

(** C8, as stated, fails: a BUY leg whose quantity is negative drives the
  tracked holding of its token below zero; only SELL updates clamp. *)
Lemma negative_quantity_breaks_invariant :
∃ st, replay W negative_quantity = Some st ∧
      map (fun kv => (fst kv, this (snd kv))) (holdings st) = [(T1, (-50)%Q)] ∧
      ¬ holdings_nonneg st.
Proof.
eexists. split; [reflexivity|]. split; [reflexivity|].
intros H. apply Forall_inv in H. revert H. by_compute.
Qed.

(** C8 (amended): when every token quantity of the feed is non-negative,
  the replay succeeds, and after every BUY and SELL update, that is after
  every prefix of the classified legs, every tracked holding is greater
  than or equal to zero; a SELL of at least the tracked holding leaves
  the holding at exactly zero. *)
Theorem holdings_stay_nonneg (w : string) (txs : list Tx) :
quantities_nonneg txs →
replay w txs = Some (fold_left apply_trade (events w txs) replay_start)
∧ (∀ evs, evs `prefix_of` events w txs →
     holdings_nonneg (fold_left apply_trade evs replay_start))
∧ (∀ evs e, (evs ++ [e]) `prefix_of` events w txs → side e = SELL →
     (Dict.get_or (trade_mint e) 0%Qc
        (holdings (fold_left apply_trade evs replay_start)) <= amount e)%Qc →
     Dict.get (trade_mint e)
       (holdings (fold_left apply_trade (evs ++ [e]) replay_start)) = Some 0%Qc).
Proof.
intros Hq. split_and!.
- rewrite replay_events.
  by rewrite bool_decide_eq_true_2 by by apply quantities_nonneg_decodable.
- intros evs [rest Hrest].
  apply apply_trades_nonneg; [constructor|].
  pose proof (events_amounts_nonneg w txs Hq) as Hall.
  rewrite Hrest in Hall. by apply Forall_app in Hall as [? _].
- intros evs e _ Hside Hle.
  rewrite fold_left_app. simpl. unfold apply_trade at 1, Dict.update. simpl.
  rewrite get_set_same. f_equal.
  unfold holding_step. rewrite Hside. apply max0_clamps.
  apply Qcle_minus_iff in Hle. apply Qcopp_le_compat in Hle.
  replace (- (amount e + - Dict.get_or (trade_mint e) 0
                 (holdings (fold_left apply_trade evs replay_start))))%Qc
    with (Dict.get_or (trade_mint e) 0
            (holdings (fold_left apply_trade evs replay_start)) - amount e)%Qc
    in Hle by ring.
  exact Hle.
Qed.

Lemma oversold_quantities_nonneg : quantities_nonneg oversold.
Proof.
repeat constructor; (eexists; split; [reflexivity | by_compute]).
Defined.

Lemma holdings_stay_nonneg_witness :
quantities_nonneg oversold ∧
replay W oversold = Some (fold_left apply_trade (events W oversold) replay_start)
∧ (∀ evs, evs `prefix_of` events W oversold →
     holdings_nonneg (fold_left apply_trade evs replay_start))
∧ (∀ evs e, (evs ++ [e]) `prefix_of` events W oversold → side e = SELL →
     (Dict.get_or (trade_mint e) 0%Qc
        (holdings (fold_left apply_trade evs replay_start)) <= amount e)%Qc →
     Dict.get (trade_mint e)
       (holdings (fold_left apply_trade (evs ++ [e]) replay_start)) = Some 0%Qc).
Proof.
split; [exact oversold_quantities_nonneg|].
exact (holdings_stay_nonneg W oversold oversold_quantities_nonneg).
Defined.

(** The oversold feed ends with a holding of zero, not of -40. *)
Example oversold_clamps :
(fun st => map (fun kv => (fst kv, this (snd kv))) (holdings st)) <$> replay W oversold
= Some [(T1, 0%Q)].
Proof. reflexivity. Qed.
End Holdings.

(* ===================================================================== *)
(** * Facts about the request log and [find_smart_money] *)
(* ===================================================================== *)

Lemma value_bind {A B : Type} (m : Fetched A) (f : A → Fetched B) :
  value_of (m ≫= f) = value_of (f (value_of m)).
Proof. done. Qed.

Lemma requests_bind {A B : Type} (m : Fetched A) (f : A → Fetched B) :
  requests_of (m ≫= f) = requests_of m ++ requests_of (f (value_of m)).
Proof. done. Qed.

Lemma value_gather {A B : Type} (task : A → Fetched B) (args : list A) :
  value_of (gather task args) = map (fun a => value_of (task a)) args.
Proof.
  induction args as [|a args IH]; [done|].
  cbn [gather]. rewrite !value_bind. cbn [map]. by rewrite <- IH.
Qed.

Lemma requests_gather {A B : Type} (task : A → Fetched B) (args : list A) :
  requests_of (gather task args) = flat_map (fun a => requests_of (task a)) args.
Proof.
  induction args as [|a args IH]; [done|].
  cbn [gather flat_map]. rewrite !requests_bind, IH.
  unfold requests_of at 4. simpl. by rewrite app_nil_r.
Qed.

Lemma truncate_mints (mints : list string) :
  (if bool_decide (5 < length mints)%nat then take 5 mints else mints) =
  analysed_tokens mints.
Proof.
  unfold analysed_tokens. case_bool_decide; [done|].
  symmetry. apply take_ge. lia.
Qed.

Lemma qualify_fold common a b (ws : list string) (f : string → option WalletPnl) acc :
  fold_left (qualify_step common a b) (zip ws (map f ws)) acc =
  acc ++ omap
    (fun w =>
       r ← f w;
       if bool_decide (meets a b r)
       then Some {| pnl_data := r; wallet := w; tokens_held := Dict.get_or w [] common |}
       else None) ws.
Proof.
  revert acc. induction ws as [|w ws IH]; intros acc; simpl.
  - by rewrite app_nil_r.
  - rewrite IH. unfold qualify_step. simpl.
    destruct (f w) as [r|]; simpl; [|done].
    unfold meets, Num.geb. rewrite bool_decide_and.
    destruct (_ && _); [|done]. by rewrite <- app_assoc.
Qed.

(** The candidate wallets are analysed through [report_of]. *)
Lemma pnl_results_reports p mints :
  value_of (gather (fun w => calculate_wallet_pnl p w (analysed_tokens mints))
              (analysed_wallets p mints)) =
  map (report_of p mints) (analysed_wallets p mints).
Proof. by rewrite value_gather. Qed.

(** The value [find_smart_money] returns. *)
Lemma find_smart_money_value p mints a b :
  value_of (find_smart_money p mints a b) =
  if bool_decide (length mints < 2)%nat then too_few_tokens
  else match intersection p mints with
       | [] => no_common_wallets (holder_sets p mints)
       | _ :: _ =>
           Report (analysed_tokens mints) (length (intersection p mints))
             (take 10 (sort_desc qualified_key Num.ltb (passing p mints a b))) a b
       end.
Proof.
  unfold find_smart_money. case_bool_decide as Hlen; [done|].
  rewrite truncate_mints, value_bind, value_gather.
  fold (holder_sets p mints). fold (intersection p mints).
  destruct (intersection p mints) as [|item rest] eqn:Hcommon; [done|].
  rewrite value_bind. rewrite <- Hcommon. fold (analysed_wallets p mints).
  rewrite pnl_results_reports. unfold qualify. rewrite qualify_fold. done.
Qed.

(** The requests [find_smart_money] issues, in order. *)
Lemma find_smart_money_requests p mints a b :
  requests_of (find_smart_money p mints a b) =
  if bool_decide (length mints < 2)%nat then []
  else flat_map (fun m => requests_of (get_top_holders p m)) (analysed_tokens mints) ++
       match intersection p mints with
       | [] => []
       | _ :: _ => map ReqTransactions (analysed_wallets p mints)
       end.
Proof.
  unfold find_smart_money. case_bool_decide as Hlen; [done|].
  rewrite truncate_mints, requests_bind, requests_gather, value_gather.
  fold (holder_sets p mints). fold (intersection p mints).
  f_equal.
  destruct (intersection p mints) as [|item rest] eqn:Hcommon; [done|].
  rewrite requests_bind, requests_gather. rewrite <- Hcommon.
  fold (analysed_wallets p mints).
  unfold requests_of at 2. simpl. rewrite app_nil_r.
  induction (analysed_wallets p mints) as [|w ws IH]; [done|].
  simpl. by rewrite IH.
Qed.

Lemma holder_requests_not_activity p m :
  List.filter is_activity_request (requests_of (get_top_holders p m)) = [].
Proof.
  unfold get_top_holders, get_account_owners.
  destruct (largest_accounts p m) as [|accounts]; [done|].
  destruct (List.filter nonempty accounts) as [|acc accs]; [done|].
  by destruct (multiple_accounts p (acc :: accs)).
Qed.

Lemma elem_of_passing p mints a b q :
  q ∈ passing p mints a b ↔
  wallet q ∈ analysed_wallets p mints ∧
  report_of p mints (wallet q) = Some (pnl_data q) ∧
  meets a b (pnl_data q) ∧
  tokens_held q = Dict.get_or (wallet q) [] (intersection p mints).
Proof.
  unfold passing. rewrite list_elem_of_omap. split.
  - intros (w & Hw & Hq).
    destruct (report_of p mints w) as [r|] eqn:Hr; simpl in Hq; [|done].
    case_bool_decide as Hm; [|done]. injection Hq as <-. simpl. done.
  - intros (Hw & Hr & Hm & Ht). exists (wallet q). split; [done|].
    rewrite Hr. simpl. rewrite bool_decide_eq_true_2 by done.
    destruct q as [r w held]. simpl in *. by subst.
Qed.

Lemma summarise_none_iff evs :
  summarise (fold_left apply_trade evs replay_start) = None ↔ evs = [].
Proof.
  rewrite replayed_state. unfold summarise. simpl. by destruct evs.
Qed.

(** The null result arises exactly from a provider failure or from a feed
    without classifiable trades. *)
Lemma wallet_pnl_of_none_iff resp w mints :
  wallet_pnl_of resp w mints = None ↔
  provider_failure resp ∨ no_classifiable_trade w resp.
Proof.
  unfold no_classifiable_trade. split.
  - destruct resp as [|status body]; [intros _; left; constructor|].
    destruct (decide (status = 200)) as [->|Hst]; [|intros _; left; by apply fail_status].
    destruct body as [| |txs].
    + intros _. left. apply fail_undecodable.
    + intros _. left. apply fail_not_a_list.
    + rewrite wallet_pnl_of_ok. case_bool_decide as Hdec.
      * intros Hnone%summarise_none_iff. right. by exists 200, txs.
      * intros _. left. by apply fail_bad_quantity.
  - intros [Hfail|(status & txs & -> & Hev)].
    + destruct Hfail as [|status body Hst|status|status|status txs Hdec].
      * done.
      * simpl. by rewrite bool_decide_eq_true_2.
      * simpl. by case_bool_decide.
      * simpl. by case_bool_decide.
      * destruct (decide (status = 200)) as [->|Hst].
        -- rewrite wallet_pnl_of_ok. by rewrite bool_decide_eq_false_2.
        -- simpl. by rewrite bool_decide_eq_true_2.
    + destruct (decide (status = 200)) as [->|Hst].
      * rewrite wallet_pnl_of_ok, Hev. by case_bool_decide.
      * simpl. by rewrite bool_decide_eq_true_2.
Qed.

Lemma get_top_holders_same w p p' m :
  same_except_activity_of w p p' → get_top_holders p m = get_top_holders p' m.
Proof.
  intros (Hl & Hm & _). unfold get_top_holders, get_account_owners.
  rewrite Hl. destruct (largest_accounts p' m) as [|accounts]; [done|].
  destruct (List.filter nonempty accounts) as [|acc accs]; [done|].
  by rewrite Hm.
Qed.

Lemma intersection_same w p p' mints :
  same_except_activity_of w p p' → intersection p mints = intersection p' mints.
Proof.
  intros Hsame. unfold intersection. f_equal. unfold holder_sets.
  apply map_ext. intros m. by rewrite (get_top_holders_same w p p').
Qed.

Lemma omap_silenced {A : Type} (w : string) (key : A → string)
    (g g' : string → option A) (ws : list string) :
  g' w = None →
  (∀ w', w' ≠ w → g' w' = g w') →
  (∀ w' x, g w' = Some x → key x = w') →
  omap g' ws = List.filter (fun x => negb (bool_decide (key x = w))) (omap g ws).
Proof.
  intros Hw Hother Hkey. induction ws as [|w' ws IH]; [done|].
  cbn [omap list_omap]. rewrite IH.
  destruct (decide (w' = w)) as [->|Hne].
  - rewrite Hw. destruct (g w) as [x|] eqn:Hg; [|done].
    cbn [List.filter]. by rewrite (Hkey _ _ Hg), bool_decide_eq_true_2.
  - rewrite Hother by done. destruct (g w') as [x|] eqn:Hg; [|done].
    cbn [List.filter]. by rewrite (Hkey _ _ Hg), bool_decide_eq_false_2.
Qed.

Lemma elem_of_take_inv {A : Type} (x : A) (n : nat) (l : list A) :
  x ∈ take n l → x ∈ l.
Proof. intros H. rewrite <- (take_drop n l). apply elem_of_app. by left. Qed.

Lemma passing_silenced w p p' mints a b :
  same_except_activity_of w p p' →
  report_of p' mints w = None →
  passing p' mints a b =
  List.filter (fun q => negb (bool_decide (wallet q = w))) (passing p mints a b).
Proof.
  intros Hsame Hnone. unfold passing, analysed_wallets.
  rewrite <- (intersection_same w p p' mints Hsame).
  apply omap_silenced.
  - by rewrite Hnone.
  - intros w' Hne. unfold report_of.
    destruct Hsame as (_ & _ & Hact). by rewrite (Hact w' Hne).
  - intros w' q Hq. destruct (report_of p mints w'); simpl in Hq; [|done].
    case_bool_decide; [|done]. by injection Hq as <-.
Qed.

(** What a report holds. *)
Lemma find_smart_money_report p mints a b ms n qs a' b' :
  value_of (find_smart_money p mints a b) = Report ms n qs a' b' →
  (2 ≤ length mints)%nat ∧ intersection p mints ≠ [] ∧
  ms = analysed_tokens mints ∧ n = length (intersection p mints) ∧
  qs = take 10 (sort_desc qualified_key Num.ltb (passing p mints a b)) ∧
  a' = a ∧ b' = b.
Proof.
  rewrite find_smart_money_value. case_bool_decide as Hlen; [done|].
  remember (intersection p mints) as common eqn:Hcommon.
  destruct common as [|item rest]; [done|].
  intros [= <- <- <- <- <-]. split_and!; done || lia.
Qed.

(** A report is returned whenever the input is accepted and the
    intersection is not empty. *)
Lemma find_smart_money_reports p mints a b :
  (2 ≤ length mints)%nat → intersection p mints ≠ [] →
  value_of (find_smart_money p mints a b) =
  Report (analysed_tokens mints) (length (intersection p mints))
    (take 10 (sort_desc qualified_key Num.ltb (passing p mints a b))) a b.
Proof.
  intros Hlen Hne. rewrite find_smart_money_value.
  rewrite bool_decide_eq_false_2 by lia.
  remember (intersection p mints) as common eqn:Hcommon.
  by destruct common.
Qed.

Lemma Fetched_eq {A : Type} (x y : Fetched A) :
  value_of x = value_of y → requests_of x = requests_of y → x = y.
Proof. destruct x, y. simpl. congruence. Qed.

Lemma analysed_tokens_idem mints :
  analysed_tokens (analysed_tokens mints) = analysed_tokens mints.
Proof. unfold analysed_tokens. rewrite take_take. f_equal. Qed.

Lemma intersection_truncated p mints :
  intersection p (analysed_tokens mints) = intersection p mints.
Proof. unfold intersection, holder_sets. by rewrite analysed_tokens_idem. Qed.

Lemma passing_truncated p mints a b :
  passing p (analysed_tokens mints) a b = passing p mints a b.
Proof.
  unfold passing, analysed_wallets, report_of.
  by rewrite intersection_truncated, analysed_tokens_idem.
Qed.

Lemma filter_holder_requests p ms :
  List.filter is_activity_request
    (flat_map (fun m => requests_of (get_top_holders p m)) ms) = [].
Proof.
  induction ms as [|m ms IH]; [done|].
  cbn [flat_map]. by rewrite List.filter_app, holder_requests_not_activity, IH.
Qed.

Lemma filter_activity_requests ws :
  List.filter is_activity_request (map ReqTransactions ws) = map ReqTransactions ws.
Proof. induction ws as [|w ws IH]; [done|]. simpl. by rewrite IH. Qed.

Lemma same_except_activity_market :
  same_except_activity_of Sample.X Sample.market Sample.market_x_down.
Proof.
  split_and!; [done | done |].
  intros w' Hne. simpl. by rewrite !decide_False.
Defined.

(* ===================================================================== *)
(** * The pipeline: specification claims *)
(* ===================================================================== *)

Lemma StronglySorted_cut {A : Type} (R : A → A → Prop) (l1 l2 : list A) :
  StronglySorted R (l1 ++ l2) → ∀ x y, x ∈ l1 → y ∈ l2 → R x y.
Proof.
  induction l1 as [|a l1 IH]; intros Hs x y Hx Hy.
  - by apply elem_of_nil in Hx.
  - cbn [app] in Hs. apply StronglySorted_inv in Hs as [Hs Ha].
    apply elem_of_cons in Hx as [->|Hx]; [|by apply IH].
    rewrite List.Forall_forall in Ha. apply Ha, in_or_app. right.
    by apply list_elem_of_In.
Qed.

Section Pipeline.
Import Sample Ranked.

(** The market scenario: X first with 20 SOL, then W and Y, tied at
  14 SOL, in the order of the intersection. *)
Example market_ranking :
match value_of (find_smart_money market [T1; T2] default_min_win_rate default_min_pnl_sol) with
| Report ms n qs _ _ =>
    Some (ms, n, map (fun q => (wallet q, this (total_pnl_sol (pnl_data q)))) qs)
| Error _ _ => None
end = Some ([T1; T2], 3%nat, [(X, 20%Q); (W, 14%Q); (Y, 14%Q)]).
Proof. reflexivity. Qed.

(** C4: the qualified-wallet list of a report is the first 10 entries of a
  ranking that holds exactly the analysed wallets with a non-null PnL
  report whose win rate and realized PnL meet the thresholds, sorted by
  realized PnL, descending, with ties in the order of the input. *)
Theorem qualified_wallets_ranked (p : Provider) (mints : list string) (a b : Qc)
  (ms : list string) (n : nat) (qs : list Qualified) (a' b' : Qc) :
value_of (find_smart_money p mints a b) = Report ms n qs a' b' →
∃ ranked,
  qs = take 10 ranked
  ∧ Permutation ranked (passing p mints a b)
  ∧ (∀ q, q ∈ ranked ↔
       wallet q ∈ analysed_wallets p mints ∧
       report_of p mints (wallet q) = Some (pnl_data q) ∧
       meets a b (pnl_data q) ∧
       tokens_held q = Dict.get_or (wallet q) [] (intersection p mints))
  ∧ StronglySorted more_pnl ranked
  ∧ (∀ k, ties qualified_key Num.ltb k ranked =
          ties qualified_key Num.ltb k (passing p mints a b)).
Proof.
intros (_ & _ & _ & _ & -> & _ & _)%find_smart_money_report.
exists (sort_desc qualified_key Num.ltb (passing p mints a b)). split_and!.
- done.
- apply sort_desc_perm.
- intros q. rewrite sort_desc_elem. apply elem_of_passing.
- eapply StronglySorted_impl; [|apply sort_desc_sorted; apply _].
  intros x y Hxy. unfold not_below, Num.ltb in Hxy.
  apply bool_decide_eq_false in Hxy. by apply Qcnot_lt_le.
- intros k. apply sort_desc_ties; apply _.
Qed.

Lemma qualified_wallets_ranked_witness :
∃ ms n qs a' b',
  value_of (find_smart_money market [T1; T2] default_min_win_rate default_min_pnl_sol)
  = Report ms n qs a' b' ∧
  ∃ ranked,
    qs = take 10 ranked
    ∧ Permutation ranked (passing market [T1; T2] default_min_win_rate default_min_pnl_sol)
    ∧ (∀ q, q ∈ ranked ↔
         wallet q ∈ analysed_wallets market [T1; T2] ∧
         report_of market [T1; T2] (wallet q) = Some (pnl_data q) ∧
         meets default_min_win_rate default_min_pnl_sol (pnl_data q) ∧
         tokens_held q = Dict.get_or (wallet q) [] (intersection market [T1; T2]))
    ∧ StronglySorted more_pnl ranked
    ∧ (∀ k, ties qualified_key Num.ltb k ranked =
            ties qualified_key Num.ltb k
              (passing market [T1; T2] default_min_win_rate default_min_pnl_sol)).
Proof.
destruct (value_of (find_smart_money market [T1; T2]
                      default_min_win_rate default_min_pnl_sol))
  as [e c|ms n qs a' b'] eqn:Hv; [by vm_compute in Hv|].
exists ms, n, qs, a', b'. split; [reflexivity|].
exact (qualified_wallets_ranked market [T1; T2] default_min_win_rate
         default_min_pnl_sol ms n qs a' b' Hv).
Defined.

(** C5: with fewer than 2 tokens [find_smart_money] returns the input
  error and issues no request at all. *)
Theorem too_few_tokens_no_fetch (p : Provider) (mints : list string) (a b : Qc) :
(length mints < 2)%nat →
value_of (find_smart_money p mints a b) = too_few_tokens ∧
requests_of (find_smart_money p mints a b) = [].
Proof.
intros Hlen. unfold find_smart_money. by rewrite bool_decide_eq_true_2.
Qed.

Lemma too_few_tokens_no_fetch_witness :
(length [T1] < 2)%nat ∧
value_of (find_smart_money market [T1] default_min_win_rate default_min_pnl_sol)
= too_few_tokens ∧
requests_of (find_smart_money market [T1] default_min_win_rate default_min_pnl_sol) = [].
Proof.
assert (length [T1] < 2)%nat as H by (simpl; lia).
split; [exact H|].
exact (too_few_tokens_no_fetch market [T1] default_min_win_rate default_min_pnl_sol H).
Defined.

(** C6: when the activity fetch of one wallet fails (no response, a status
  other than 200, an undecodable or non-list payload, a quantity that is
  not a number), or its feed holds no classifiable trade, that wallet
  gets the null result and nothing else changes: in any batch the other
  wallets keep their results, the wallets that pass the filter are the
  same ones without the failed wallet, and a request that produced a
  report still produces one, ranked from the remaining wallets. *)
Theorem failed_wallet_isolated (p p' : Provider) (w : string) (mints : list string)
  (a b : Qc) :
same_except_activity_of w p p' →
provider_failure (transactions p' w) ∨ no_classifiable_trade w (transactions p' w) →
value_of (calculate_wallet_pnl p' w (analysed_tokens mints)) = None
∧ (∀ ws,
     value_of (gather (fun w' => calculate_wallet_pnl p' w' (analysed_tokens mints)) ws) =
     map (fun w' => if decide (w' = w) then None
                    else value_of (calculate_wallet_pnl p w' (analysed_tokens mints))) ws)
∧ passing p' mints a b =
  List.filter (fun q => negb (bool_decide (wallet q = w))) (passing p mints a b)
∧ (∀ ms n qs a0 b0,
     value_of (find_smart_money p mints a b) = Report ms n qs a0 b0 →
     value_of (find_smart_money p' mints a b) =
     Report ms n
       (take 10 (sort_desc qualified_key Num.ltb
          (List.filter (fun q => negb (bool_decide (wallet q = w)))
             (passing p mints a b)))) a0 b0).
Proof.
intros Hsame Hfail.
assert (report_of p' mints w = None) as Hnone
  by by apply wallet_pnl_of_none_iff.
pose proof (passing_silenced w p p' mints a b Hsame Hnone) as Hpass.
split_and!.
- exact Hnone.
- intros ws. rewrite value_gather. apply map_ext. intros w'.
  destruct (decide (w' = w)) as [->|Hne]; [exact Hnone|].
  destruct Hsame as (_ & _ & Hact). unfold calculate_wallet_pnl.
  rewrite !value_bind. simpl. by rewrite (Hact w' Hne).
- exact Hpass.
- intros ms n qs a0 b0 (Hlen & Hne & -> & -> & _ & -> & ->)%find_smart_money_report.
  rewrite find_smart_money_reports;
    [|done | by rewrite <- (intersection_same w p p' mints Hsame)].
  by rewrite <- (intersection_same w p p' mints Hsame), Hpass.
Qed.

Lemma failed_wallet_isolated_witness :
same_except_activity_of X market market_x_down ∧
provider_failure (transactions market_x_down X) ∧
value_of (calculate_wallet_pnl market_x_down X (analysed_tokens [T1; T2])) = None
∧ (∀ ws,
     value_of (gather (fun w' => calculate_wallet_pnl market_x_down w'
                                   (analysed_tokens [T1; T2])) ws) =
     map (fun w' => if decide (w' = X) then None
                    else value_of (calculate_wallet_pnl market w'
                                     (analysed_tokens [T1; T2]))) ws)
∧ passing market_x_down [T1; T2] default_min_win_rate default_min_pnl_sol =
  List.filter (fun q => negb (bool_decide (wallet q = X)))
    (passing market [T1; T2] default_min_win_rate default_min_pnl_sol)
∧ (∀ ms n qs a0 b0,
     value_of (find_smart_money market [T1; T2] default_min_win_rate default_min_pnl_sol)
     = Report ms n qs a0 b0 →
     value_of (find_smart_money market_x_down [T1; T2]
                 default_min_win_rate default_min_pnl_sol) =
     Report ms n
       (take 10 (sort_desc qualified_key Num.ltb
          (List.filter (fun q => negb (bool_decide (wallet q = X)))
             (passing market [T1; T2] default_min_win_rate default_min_pnl_sol))))
       a0 b0).
Proof.
assert (provider_failure (transactions market_x_down X)) as Hfail
  by (vm_compute; constructor).
split; [exact same_except_activity_market|].
split; [exact Hfail|].
exact (failed_wallet_isolated market market_x_down X [T1; T2]
         default_min_win_rate default_min_pnl_sol
         same_except_activity_market (or_introl Hfail)).
Defined.

(** The failure of X leaves W and Y in the report. *)
Example market_x_down_ranking :
match value_of (find_smart_money market_x_down [T1; T2]
                  default_min_win_rate default_min_pnl_sol) with
| Report ms n qs _ _ =>
    Some (ms, n, map (fun q => (wallet q, this (total_pnl_sol (pnl_data q)))) qs)
| Error _ _ => None
end = Some ([T1; T2], 3%nat, [(W, 14%Q); (Y, 14%Q)]).
Proof. reflexivity. Qed.

(** C9: when the intersection holds more than 30 wallets, the activity of
  exactly its first 30 wallets is requested; every qualified wallet of
  the report is one of these 30, so no wallet beyond them is ever
  reported, whatever its activity; the counter of common wallets is the
  size of the whole intersection; and the intersection stands in
  token-count-descending order, so that each of the first 30 holds at
  least as many tokens as each wallet beyond them. *)
Theorem only_first_thirty_analysed (p : Provider) (mints : list string) (a b : Qc) :
(2 ≤ length mints)%nat →
(30 < length (intersection p mints))%nat →
∃ qs,
  value_of (find_smart_money p mints a b) =
  Report (analysed_tokens mints) (length (intersection p mints)) qs a b
  ∧ (∀ q, q ∈ qs → wallet q ∈ take 30 (Dict.keys (intersection p mints)))
  ∧ (∀ q w', q ∈ qs → w' ∈ drop 30 (Dict.keys (intersection p mints)) → wallet q ≠ w')
  ∧ List.filter is_activity_request (requests_of (find_smart_money p mints a b)) =
    map ReqTransactions (take 30 (Dict.keys (intersection p mints)))
  ∧ length (take 30 (Dict.keys (intersection p mints))) = 30%nat
  ∧ StronglySorted more_tokens (intersection p mints)
  ∧ (∀ x y, x ∈ take 30 (intersection p mints) → y ∈ drop 30 (intersection p mints) →
       more_tokens x y).
Proof.
intros Hlen Hbig.
assert (StronglySorted more_tokens (intersection p mints)) as Hsorted.
{ unfold intersection, find_intersection. cbv zeta.
  eapply StronglySorted_impl; [|apply sort_desc_sorted; apply _].
  intros x y Hxy%Nat.ltb_ge. exact Hxy. }
assert (intersection p mints ≠ []) as Hne.
{ intros Heq. rewrite Heq in Hbig. simpl in Hbig. lia. }
exists (take 10 (sort_desc qualified_key Num.ltb (passing p mints a b))).
assert (∀ q, q ∈ take 10 (sort_desc qualified_key Num.ltb (passing p mints a b)) →
             wallet q ∈ take 30 (Dict.keys (intersection p mints))) as Hin.
{ intros q Hq%elem_of_take_inv. apply sort_desc_elem in Hq.
  by apply elem_of_passing in Hq as [? _]. }
split_and!.
- by apply find_smart_money_reports.
- exact Hin.
- intros q w' Hq Hw' Heq. apply Hin in Hq. rewrite Heq in Hq.
  pose proof (NoDup_keys_find_intersection (holder_sets p mints)
                (analysed_tokens mints) 2) as Hnd.
  fold (intersection p mints) in Hnd.
  rewrite <- (take_drop 30 (Dict.keys (intersection p mints))) in Hnd.
  apply list.NoDup_app in Hnd as (_ & Hdisj & _). by apply (Hdisj w').
- rewrite find_smart_money_requests. rewrite bool_decide_eq_false_2 by lia.
  rewrite List.filter_app, filter_holder_requests. simpl.
  remember (intersection p mints) as common eqn:Hcommon.
  destruct common as [|item rest]; [done|].
  rewrite filter_activity_requests. unfold analysed_wallets. by rewrite <- Hcommon.
- apply length_take_le. unfold Dict.keys. rewrite length_map. lia.
- exact Hsorted.
- intros x y Hx Hy. rewrite <- (take_drop 30 (intersection p mints)) in Hsorted.
  exact (StronglySorted_cut _ _ _ Hsorted x y Hx Hy).
Qed.

Lemma only_first_thirty_analysed_witness :
(2 ≤ length three_tokens)%nat ∧
(30 < length (intersection uneven three_tokens))%nat ∧
∃ qs,
  value_of (find_smart_money uneven three_tokens default_min_win_rate default_min_pnl_sol) =
  Report (analysed_tokens three_tokens) (length (intersection uneven three_tokens)) qs
    default_min_win_rate default_min_pnl_sol
  ∧ (∀ q, q ∈ qs → wallet q ∈ take 30 (Dict.keys (intersection uneven three_tokens)))
  ∧ (∀ q w', q ∈ qs → w' ∈ drop 30 (Dict.keys (intersection uneven three_tokens)) →
       wallet q ≠ w')
  ∧ List.filter is_activity_request
      (requests_of (find_smart_money uneven three_tokens
                      default_min_win_rate default_min_pnl_sol)) =
    map ReqTransactions (take 30 (Dict.keys (intersection uneven three_tokens)))
  ∧ length (take 30 (Dict.keys (intersection uneven three_tokens))) = 30%nat
  ∧ StronglySorted more_tokens (intersection uneven three_tokens)
  ∧ (∀ x y, x ∈ take 30 (intersection uneven three_tokens) →
       y ∈ drop 30 (intersection uneven three_tokens) → more_tokens x y).
Proof.
assert (2 ≤ length three_tokens)%nat as H1 by (simpl; lia).
assert (30 < length (intersection uneven three_tokens))%nat as H2 by by_compute.
split; [exact H1|]. split; [exact H2|].
exact (only_first_thirty_analysed uneven three_tokens default_min_win_rate
         default_min_pnl_sol H1 H2).
Defined.

(** The uneven crowd: [keen], listed last by every token, holds three
  tokens and is analysed first; the wallet left out is the one that was
  listed 30th, a holder of two tokens. *)
Example keen_wallet_first :
length (intersection uneven three_tokens) = 31%nat ∧
head (intersection uneven three_tokens) = Some (keen, three_tokens) ∧
list.last crowd = Some keen ∧
map fst (drop 30 (intersection uneven three_tokens)) = take 1 (drop 29 crowd).
Proof. split_and!; reflexivity. Qed.

(** The crowd: 31 common wallets are counted, 30 are analysed, and the
  31st, as profitable as the others, is not among the requests. *)
Example crowd_beyond_thirty :
length (intersection crowded [T1; T2]) = 31%nat ∧
drop 30 (Dict.keys (intersection crowded [T1; T2])) = ["_" +:+ W] ∧
ReqTransactions ("_" +:+ W) ∉
  requests_of (find_smart_money crowded [T1; T2] default_min_win_rate default_min_pnl_sol).
Proof. split_and!; [reflexivity | reflexivity | by_compute]. Qed.

(** C10, as stated, fails: six tokens without any common holder give an
  error result, the one for an empty intersection. *)
Lemma six_tokens_without_overlap_error :
value_of (find_smart_money silent six_tokens default_min_win_rate default_min_pnl_sol) =
Error "No common wallets found across these tokens. Try tokens with more overlap."
  (Some [0; 0; 0; 0; 0]%nat).
Proof. reflexivity. Qed.

(** C10 (amended): a list of more than 5 tokens is never rejected as an
  input error; [find_smart_money] behaves on it exactly as on its first 5
  tokens, in value and in requests; when these 5 have common wallets the
  result is a report whose analysed tokens are exactly those 5, and
  otherwise it is the no-common-wallets error. *)
Theorem more_than_five_tokens_truncated (p : Provider) (mints : list string) (a b : Qc) :
(5 < length mints)%nat →
find_smart_money p mints a b = find_smart_money p (take 5 mints) a b
∧ value_of (find_smart_money p mints a b) ≠ too_few_tokens
∧ (∀ ms n qs a' b',
     value_of (find_smart_money p mints a b) = Report ms n qs a' b' → ms = take 5 mints)
∧ (intersection p mints ≠ [] →
   ∃ qs, value_of (find_smart_money p mints a b) =
         Report (take 5 mints) (length (intersection p mints)) qs a b)
∧ (intersection p mints = [] →
   value_of (find_smart_money p mints a b) = no_common_wallets (holder_sets p mints)).
Proof.
intros Hlen.
assert (length (take 5 mints) = 5%nat) as Hlen5 by (apply length_take_le; lia).
split_and!.
- apply Fetched_eq.
  + rewrite !find_smart_money_value.
    rewrite !bool_decide_eq_false_2 by lia.
    change (take 5 mints) with (analysed_tokens mints).
    rewrite intersection_truncated, passing_truncated, analysed_tokens_idem.
    unfold holder_sets. by rewrite analysed_tokens_idem.
  + rewrite !find_smart_money_requests.
    rewrite !bool_decide_eq_false_2 by lia.
    change (take 5 mints) with (analysed_tokens mints).
    unfold analysed_wallets.
    by rewrite intersection_truncated, analysed_tokens_idem.
- rewrite find_smart_money_value. rewrite bool_decide_eq_false_2 by lia.
  by destruct (intersection p mints).
- by intros ms n qs a' b' (_ & _ & -> & _)%find_smart_money_report.
- intros Hne. eexists. apply find_smart_money_reports; [lia | done].
- intros Heq. rewrite find_smart_money_value.
  rewrite bool_decide_eq_false_2 by lia. by rewrite Heq.
Qed.

Lemma more_than_five_tokens_truncated_witness :
(5 < length six_tokens)%nat ∧
find_smart_money market six_tokens default_min_win_rate default_min_pnl_sol =
find_smart_money market (take 5 six_tokens) default_min_win_rate default_min_pnl_sol
∧ value_of (find_smart_money market six_tokens default_min_win_rate default_min_pnl_sol)
  ≠ too_few_tokens
∧ (∀ ms n qs a' b',
     value_of (find_smart_money market six_tokens default_min_win_rate default_min_pnl_sol)
     = Report ms n qs a' b' → ms = take 5 six_tokens)
∧ (intersection market six_tokens ≠ [] →
   ∃ qs, value_of (find_smart_money market six_tokens
                     default_min_win_rate default_min_pnl_sol) =
         Report (take 5 six_tokens) (length (intersection market six_tokens)) qs
           default_min_win_rate default_min_pnl_sol)
∧ (intersection market six_tokens = [] →
   value_of (find_smart_money market six_tokens default_min_win_rate default_min_pnl_sol)
   = no_common_wallets (holder_sets market six_tokens)).
Proof.
assert (5 < length six_tokens)%nat as H by (simpl; lia).
split; [exact H|].
exact (more_than_five_tokens_truncated market six_tokens default_min_win_rate
         default_min_pnl_sol H).
Defined.

(** Six tokens on the market: the report lists the first five. *)
Example six_tokens_report :
match value_of (find_smart_money market six_tokens
                  default_min_win_rate default_min_pnl_sol) with
| Report ms n qs _ _ => Some (ms, n, map wallet qs)
| Error _ _ => None
end = Some (["Ta"; "Tb"; "Tc"; "Td"; "Te"], 3%nat, [X; W; Y]).
Proof. reflexivity. Qed.
End Pipeline.

(* ===================================================================== *)
(** * Rounding keeps integer bounds *)
(* ===================================================================== *)

Lemma round_half_even_ge (q : Q) (k : Z) :
  (inject_Z k <= q)%Q → k ≤ Num.round_half_even q.
Proof.
  destruct q as [n d]. unfold Qle, Num.round_half_even. simpl.
  intros H. rewrite Z.mul_1_r in H.
  assert (k ≤ n / Z.pos d) as Hf by (apply Z.div_le_lower_bound; lia).
  destruct (2 * (n mod Z.pos d) ?= Z.pos d); [destruct (Z.even _)|..]; lia.
Qed.

Lemma round_half_even_le (q : Q) (k : Z) :
  (q <= inject_Z k)%Q → Num.round_half_even q ≤ k.
Proof.
  destruct q as [n d]. unfold Qle, Num.round_half_even. simpl.
  intros H. rewrite Z.mul_1_r in H.
  pose proof (Z.div_mod n (Z.pos d) ltac:(lia)) as Hdm.
  pose proof (Z.mod_pos_bound n (Z.pos d) ltac:(lia)) as Hr.
  assert (n / Z.pos d ≤ k) as Hf by (apply Z.div_le_upper_bound; lia).
  destruct (Z.eq_dec (n mod Z.pos d) 0) as [H0|H0].
  - rewrite H0. simpl. lia.
  - assert (n / Z.pos d < k) by nia.
    destruct (2 * (n mod Z.pos d) ?= Z.pos d); [destruct (Z.even _)|..]; lia.
Qed.

(** [round(x, nd)] stays between any two integers that enclose [x]. *)
Lemma round_between (x : Qc) (nd : nat) (lo hi : Z) :
  (Num.of_Z lo <= x)%Qc → (x <= Num.of_Z hi)%Qc →
  (Num.of_Z lo <= Num.round x nd)%Qc ∧ (Num.round x nd <= Num.of_Z hi)%Qc.
Proof.
  unfold Num.of_Z, Num.round, Qcle. simpl. rewrite !Qred_correct.
  intros Hlo Hhi.
  set (scale := 10 ^ Z.of_nat nd).
  assert (0 < scale) as Hs by (apply Z.pow_pos_nonneg; lia).
  assert (inject_Z (lo * scale) <= this x * inject_Z scale)%Q as H1.
  { rewrite inject_Z_mult. apply Qmult_le_compat_r; [done|].
    change 0%Q with (inject_Z 0). rewrite <- Zle_Qle. lia. }
  assert (this x * inject_Z scale <= inject_Z (hi * scale))%Q as H2.
  { rewrite inject_Z_mult. apply Qmult_le_compat_r; [done|].
    change 0%Q with (inject_Z 0). rewrite <- Zle_Qle. lia. }
  apply round_half_even_ge in H1. apply round_half_even_le in H2.
  unfold Qle. simpl. rewrite Z2Pos.id by done. split; nia.
Qed.

Lemma round_nonneg (x : Qc) (nd : nat) : (0 <= x)%Qc → (0 <= Num.round x nd)%Qc.
Proof.
  unfold Num.round, Qcle. simpl. rewrite !Qred_correct. intros H.
  set (scale := 10 ^ Z.of_nat nd).
  assert (0 < scale) as Hs by (apply Z.pow_pos_nonneg; lia).
  assert (inject_Z 0 <= this x * inject_Z scale)%Q as H1.
  { apply Qmult_le_0_compat; [done|].
    change 0%Q with (inject_Z 0). rewrite <- Zle_Qle. lia. }
  apply round_half_even_ge in H1.
  unfold Qle. simpl. rewrite ?Z2Pos.id by done. nia.
Qed.

Lemma round_nonpos (x : Qc) (nd : nat) : (x <= 0)%Qc → (Num.round x nd <= 0)%Qc.
Proof.
  unfold Num.round, Qcle. simpl. rewrite !Qred_correct. intros H.
  set (scale := 10 ^ Z.of_nat nd).
  assert (0 < scale) as Hs by (apply Z.pow_pos_nonneg; lia).
  assert (this x * inject_Z scale <= inject_Z 0)%Q as H1.
  { apply Qle_trans with (0 * inject_Z scale)%Q.
    - apply Qmult_le_compat_r; [done|].
      change 0%Q with (inject_Z 0). rewrite <- Zle_Qle. lia.
    - rewrite Qmult_0_l. apply Qle_refl. }
  apply round_half_even_le in H1.
  unfold Qle. simpl. rewrite ?Z2Pos.id by done. nia.
Qed.

Lemma round_zero (nd : nat) : Num.round 0%Qc nd = 0%Qc.
Proof.
  apply Qcle_antisym; [by apply round_nonpos | by apply round_nonneg].
Qed.

(* ===================================================================== *)
(** * More on the trade reconstructor *)
(* ===================================================================== *)

Lemma tally_reports current d acc :
  token_reports (fold_left (tally_token current) d acc) =
  token_reports acc ++
  map (token_report_of current)
    (List.filter (fun item => Num.ltb 0%Qc (buy_sol (snd item))) d).
Proof.
  revert acc. induction d as [|item d IH]; intros acc; simpl.
  - by rewrite app_nil_r.
  - rewrite IH. unfold tally_token.
    destruct (Num.ltb 0 (buy_sol (snd item))); simpl; [|done].
    by rewrite <- app_assoc.
Qed.

Lemma length_first_seen l : (length (first_seen l) ≤ length l)%nat.
Proof.
  induction l as [|x l IH] using rev_ind; [done|].
  rewrite first_seen_snoc, length_app. simpl.
  case_bool_decide; [lia|]. rewrite length_app. simpl. lia.
Qed.

Lemma length_filter_le {A : Type} (f : A → bool) (l : list A) :
  (length (List.filter f l) ≤ length l)%nat.
Proof.
  induction l as [|x l IH]; simpl; [done|]. destruct (f x); simpl; lia.
Qed.

Lemma length_filter_impl {A : Type} (f g : A → bool) (l : list A) :
  (∀ x, f x = true → g x = true) →
  (length (List.filter f l) ≤ length (List.filter g l))%nat.
Proof.
  intros Hfg. induction l as [|x l IH]; simpl; [done|].
  destruct (f x) eqn:Hf.
  - rewrite (Hfg x Hf). simpl. lia.
  - destruct (g x); simpl; lia.
Qed.

(** The ledger of token [m] after replaying the legs [evs]. *)
Lemma bought_ledgers evs :
  Forall (fun e => (0 < sol e)%Qc) evs →
  List.filter (fun item => Num.ltb 0%Qc (buy_sol (snd item)))
    (Dict.grouped trade_mint ledger_step new_ledger evs) =
  map (fun m => (m, fold_left (fun v x => ledger_step x v)
                      (List.filter (fun x => bool_decide (trade_mint x = m)) evs)
                      new_ledger))
    (bought_tokens evs).
Proof.
  intros Hpos. unfold Dict.grouped, bought_tokens. rewrite filter_map_bool. f_equal.
  apply filter_ext. intros m. cbn [fst snd].
  by rewrite grouped_ledger_buy_sol, bought_positive_has_buy.
Qed.

(** The token breakdown and the holdings of a report, from the legs. *)
Lemma summarise_breakdown evs r :
  Forall (fun e => (0 < sol e)%Qc) evs →
  summarise (fold_left apply_trade evs replay_start) = Some r →
  token_breakdown r =
    sort_desc pnl_sol Num.ltb
      (map (fun m =>
              token_report_of (Dict.grouped trade_mint holding_step 0%Qc evs)
                (m, fold_left (fun v x => ledger_step x v)
                      (List.filter (fun x => bool_decide (trade_mint x = m)) evs)
                      new_ledger))
         (bought_tokens evs))
  ∧ current_holdings r =
    List.filter (fun kv => Num.ltb 0%Qc (snd kv))
      (Dict.grouped trade_mint holding_step 0%Qc evs).
Proof.
  intros Hpos. rewrite replayed_state. unfold summarise.
  cbn [trades token_pnl holdings].
  destruct evs as [|e evs0]; [done|]. cbv beta iota zeta.
  remember (e :: evs0) as evs eqn:Hevs.
  intros [= <-]. cbn [token_breakdown current_holdings]. split; [|done].
  rewrite tally_reports. cbn [tally_start token_reports app].
  by rewrite bought_ledgers, map_map.
Qed.

Lemma is_win_has_buy evs m : is_win evs m = true → has_buy evs m = true.
Proof. unfold is_win. by intros [? _]%andb_true_iff. Qed.

Lemma sort_desc_filter_length {A K : Type} (key : A → K) (ltb : K → K → bool)
    (f : A → bool) (l : list A) :
  length (List.filter f (sort_desc key ltb l)) = length (List.filter f l).
Proof.
  assert (∀ x l', length (List.filter f (insert_desc key ltb x l')) =
                  length (List.filter f (x :: l'))) as Hins.
  { intros x l'. induction l' as [|y l' IH]; [done|]. simpl.
    destruct (ltb (key x) (key y)); [|done]. simpl in *.
    destruct (f y); simpl; rewrite IH; destruct (f x); simpl; lia. }
  induction l as [|x l IH]; [done|].
  simpl sort_desc. rewrite Hins. simpl. destruct (f x); simpl; by rewrite IH.
Qed.

Section ReconstructorShape.
Import Sample Fixture.


End ReconstructorShape.

Lemma of_Z_le (a b : Z) : a ≤ b → (Num.of_Z a <= Num.of_Z b)%Qc.
Proof.
  intros H. unfold Num.of_Z, Qcle. simpl. rewrite !Qred_correct.
  by rewrite <- Zle_Qle.
Qed.

Lemma of_Z_lt (a b : Z) : a < b → (Num.of_Z a < Num.of_Z b)%Qc.
Proof.
  intros H. unfold Num.of_Z, Qclt. simpl. rewrite !Qred_correct.
  by rewrite <- Zlt_Qlt.
Qed.

Lemma of_Z_0 : Num.of_Z 0 = 0%Qc.
Proof. by apply Qc_is_canon. Qed.

Lemma of_Z_1 : Num.of_Z 1 = 1%Qc.
Proof. by apply Qc_is_canon. Qed.

(** A ratio of two counts, the first at most the second, is in [0, 1]. *)
Lemma ratio_between (a b : nat) :
  (a ≤ b)%nat → (0 < b)%nat →
  (0 <= Num.of_nat a / Num.of_nat b)%Qc ∧ (Num.of_nat a / Num.of_nat b <= 1)%Qc.
Proof.
  intros Hab Hb. unfold Num.of_nat.
  assert (0 <= Num.of_Z (Z.of_nat a))%Qc as Ha
    by (rewrite <- of_Z_0; apply of_Z_le; lia).
  assert (0 < Num.of_Z (Z.of_nat b))%Qc as Hb'
    by (rewrite <- of_Z_0; apply of_Z_lt; lia).
  assert (Num.of_Z (Z.of_nat b) ≠ 0%Qc) as Hne.
  { intros Heq. rewrite Heq in Hb'. by apply (irreflexivity Qclt) in Hb'. }
  split.
  - unfold Qcdiv. apply Qcmult_nonneg_nonneg; [done|].
    apply Qclt_le_weak. by apply Qcinv_pos.
  - apply (Qcmult_le_mono_pos_r _ _ (Num.of_Z (Z.of_nat b))); [done|].
    replace (Num.of_Z (Z.of_nat a) / Num.of_Z (Z.of_nat b) * Num.of_Z (Z.of_nat b))%Qc
      with (Num.of_Z (Z.of_nat a)) by (field; done).
    rewrite Qcmult_1_l. apply of_Z_le. lia.
Qed.

Lemma total_nonneg l : Forall (fun x => (0 <= x)%Qc) l → (0 <= total l)%Qc.
Proof.
  induction 1 as [|x l Hx Hl IH]; simpl; [apply Qcle_refl|].
  by apply Qcplus_nonneg_nonneg.
Qed.

Lemma total_nonpos l : Forall (fun x => (x <= 0)%Qc) l → (total l <= 0)%Qc.
Proof.
  induction 1 as [|x l Hx Hl IH]; simpl; [apply Qcle_refl|].
  by apply Qcplus_nonpos_nonpos.
Qed.

Lemma boughtNative_nonneg evs m :
  Forall (fun e => (0 < sol e)%Qc) evs → (0 <= boughtNative m evs)%Qc.
Proof.
  intros Hpos. unfold boughtNative. apply total_nonneg.
  apply Forall_map, Forall_filter_bool.
  eapply List.Forall_impl; [|exact Hpos]. intros e He. by apply Qclt_le_weak.
Qed.

Lemma soldNative_only_buys evs m :
  Forall (fun e => side e = BUY) evs → soldNative m evs = 0%Qc.
Proof.
  intros Hb. unfold soldNative. rewrite filter_none; [done|].
  intros e He. rewrite List.Forall_forall in Hb.
  unfold is_sell_of. apply bool_decide_eq_false. intros [Hs _].
  rewrite (Hb e He) in Hs. done.
Qed.

Lemma untouched_sol_change w tx : untouched w tx → sol_change_of w tx = 0%Qc.
Proof.
  unfold untouched, sol_change_of. generalize 0%Qc as acc.
  induction (accountData tx) as [|c cs IH]; intros acc Hcs; [done|].
  apply list.Forall_cons in Hcs as [Hc Hcs]. simpl.
  rewrite decide_False by done. by apply IH.
Qed.

Lemma untouched_no_leg w tx t : untouched w tx → leg_of w tx t = None.
Proof.
  intros Hu. unfold leg_of. rewrite (untouched_sol_change w tx Hu).
  repeat case_bool_decide; try done.
  - destruct H1 as [_ H1]. by apply (irreflexivity Qclt) in H1.
  - destruct H2 as [_ H2]. by apply (irreflexivity Qclt) in H2.
Qed.

Section ReconstructorEdges.
Import Sample Fixture.

(** X2: in every non-null report the win rate lies between 0 and 1, and
    the wins never exceed the positions. *)
Theorem win_rate_between_0_and_1 (w : string) (mints : list string) (txs : list Tx)
    (r : WalletPnl) :
  wallet_pnl_of (HttpResponse 200 (BodyList txs)) w mints = Some r →
  (0 <= win_rate r)%Qc ∧ (win_rate r <= 1)%Qc ∧
  (wins r ≤ total_positions r)%nat ∧ (1 ≤ total_positions r)%nat.
Proof.
  rewrite wallet_pnl_of_ok. case_bool_decide; [|done]. intros Hr.
  pose proof (events_positive w txs) as Hpos.
  destruct (summarise_replayed _ r Hpos Hr) as (Hne & _ & Hpositions & Hwins & Hrate & _).
  assert (wins r ≤ total_positions r)%nat as Hle.
  { rewrite Hwins, Hpositions. apply length_filter_le. }
  assert (1 ≤ total_positions r)%nat as Hpos1.
  { rewrite Hpositions. destruct (events w txs) as [|e evs]; [done|].
    pose proof (traded_tokens_nonempty e evs).
    destruct (traded_tokens (e :: evs)); [done | simpl; lia]. }
  destruct (ratio_between (wins r) (total_positions r) Hle ltac:(lia)) as [H0 H1].
  rewrite <- of_Z_0 in H0. rewrite <- of_Z_1 in H1.
  destruct (round_between _ 3 0 1 H0 H1) as [R0 R1].
  rewrite of_Z_0 in R0. rewrite of_Z_1 in R1.
  rewrite Hrate. done.
Qed.

Lemma win_rate_between_0_and_1_witness :
  ∃ r, wallet_pnl_of (HttpResponse 200 (BodyList with_sell_only)) W [T1; T2] = Some r ∧
       (0 <= win_rate r)%Qc ∧ (win_rate r <= 1)%Qc ∧
       (wins r ≤ total_positions r)%nat ∧ (1 ≤ total_positions r)%nat.
Proof.
  destruct (wallet_pnl_of (HttpResponse 200 (BodyList with_sell_only)) W [T1; T2])
    as [r|] eqn:Hr; [|by vm_compute in Hr].
  exists r. split; [reflexivity|].
  exact (win_rate_between_0_and_1 W [T1; T2] with_sell_only r Hr).
Defined.

(** X3: a wallet whose classified legs are all BUYs gets a report without
    a win: the win counter and the win rate are zero and the total realized
    PnL is not positive, so a position that was never sold counts as a
    loss. *)
Theorem only_buys_count_as_losses (w : string) (mints : list string) (txs : list Tx)
    (r : WalletPnl) :
  wallet_pnl_of (HttpResponse 200 (BodyList txs)) w mints = Some r →
  Forall (fun e => side e = BUY) (events w txs) →
  wins r = 0%nat ∧ win_rate r = 0%Qc ∧ (total_pnl_sol r <= 0)%Qc.
Proof.
  intros Hr Hbuys.
  revert Hr. rewrite wallet_pnl_of_ok. case_bool_decide; [|done]. intros Hr.
  pose proof (events_positive w txs) as Hpos.
  destruct (summarise_replayed _ r Hpos Hr) as (_ & Htotal & _ & Hwins & Hrate & _).
  assert (∀ m, (realizedPnl m (events w txs) <= 0)%Qc) as Hloss.
  { intros m. unfold realizedPnl. rewrite soldNative_only_buys by done.
    pose proof (boughtNative_nonneg (events w txs) m Hpos) as Hb.
    apply Qcopp_le_compat in Hb.
    replace (0 - boughtNative m (events w txs))%Qc
      with (- boughtNative m (events w txs))%Qc by ring.
    exact Hb. }
  assert (∀ m, is_win (events w txs) m = false) as Hnowin.
  { intros m. unfold is_win. apply andb_false_iff. right.
    apply bool_decide_eq_false. apply Qcle_not_lt, Hloss. }
  assert (wins r = 0%nat) as Hw0.
  { rewrite Hwins. rewrite filter_none; [done|]. intros m _. apply Hnowin. }
  split_and!.
  - exact Hw0.
  - rewrite Hrate, Hw0.
    replace (Num.of_nat 0 / Num.of_nat (total_positions r))%Qc with 0%Qc.
    + apply round_zero.
    + change (Num.of_nat 0) with (Num.of_Z 0). rewrite of_Z_0. unfold Qcdiv. ring.
  - rewrite Htotal. apply round_nonpos. unfold realized_over.
    apply total_nonpos. apply Forall_map.
    rewrite List.Forall_forall. intros m _. apply Hloss.
Qed.

Lemma only_buys_legs : Forall (fun e => side e = BUY) (events W only_buys).
Proof. repeat constructor. Defined.

Lemma only_buys_count_as_losses_witness :
  ∃ r, wallet_pnl_of (HttpResponse 200 (BodyList only_buys)) W [T1; T2] = Some r ∧
       Forall (fun e => side e = BUY) (events W only_buys) ∧
       wins r = 0%nat ∧ win_rate r = 0%Qc ∧ (total_pnl_sol r <= 0)%Qc.
Proof.
  destruct (wallet_pnl_of (HttpResponse 200 (BodyList only_buys)) W [T1; T2])
    as [r|] eqn:Hr; [|by vm_compute in Hr].
  exists r. split; [reflexivity|]. split; [exact only_buys_legs|].
  exact (only_buys_count_as_losses W [T1; T2] only_buys r Hr only_buys_legs).
Defined.

(** X4: when no transaction of the feed lists a balance change of the
    wallet, no leg is classified, whatever tokens the wallet sent or
    received, and the wallet gets the null result. *)
Theorem untouched_wallet_null (w : string) (mints : list string) (status : Z)
    (txs : list Tx) :
  Forall (untouched w) txs →
  events w txs = [] ∧
  wallet_pnl_of (HttpResponse status (BodyList txs)) w mints = None.
Proof.
  intros Hu.
  assert (events w txs = []) as Hev.
  { unfold events. induction Hu as [|tx txs Htx Hu IH]; simpl; [done|].
    rewrite IH, app_nil_r.
    induction (tokenTransfers tx) as [|t ts IHt]; [done|].
    cbn [omap list_omap]. by rewrite (untouched_no_leg w tx t Htx), IHt. }
  split; [done|].
  apply wallet_pnl_of_none_iff. right. by exists status, txs.
Qed.

Lemma airdrop_untouched : Forall (untouched W) [airdrop_tx].
Proof. repeat constructor. by_compute. Defined.

Lemma untouched_wallet_null_witness :
  Forall (untouched W) [airdrop_tx] ∧
  events W [airdrop_tx] = [] ∧
  wallet_pnl_of (HttpResponse 200 (BodyList [airdrop_tx])) W [T1; T2] = None.
Proof.
  split; [exact airdrop_untouched|].
  exact (untouched_wallet_null W [T1; T2] 200 [airdrop_tx] airdrop_untouched).
Defined.
End ReconstructorEdges.

(* ===================================================================== *)
(** * More on the holder fetch and the intersection *)
(* ===================================================================== *)

Lemma holder_pairs_occurrences hl mints w :
  skipped w = false →
  map snd (List.filter (fun p => bool_decide (fst p = w)) (holder_pairs hl mints)) =
  occurrences w hl mints.
Proof.
  intros Hw. unfold holder_pairs, occurrences.
  induction (zip mints hl) as [|[m hs] mhs IH]; [done|].
  cbn [flat_map fst snd]. rewrite List.filter_app, map_app, IH. f_equal.
  clear IH. induction hs as [|x hs IHhs]; [done|].
  cbn [List.filter]. destruct (decide (x = w)) as [->|Hne].
  - rewrite Hw. cbn [negb map List.filter fst].
    rewrite !bool_decide_eq_true_2 by done. cbn [map snd length repeat].
    by rewrite IHhs.
  - rewrite (bool_decide_eq_false_2 (x = w)) by done.
    destruct (skipped x); cbn [negb map List.filter fst]; [done|].
    by rewrite (bool_decide_eq_false_2 (x = w)) by done.
Qed.

(** Without any assumption on the holder lists: the dictionary built by
    the two loops lists the eligible wallets in first-seen order, each with
    one token per occurrence. *)
Lemma collect_holders_occurrences hl mints :
  collect_holders hl mints =
  map (fun w => (w, occurrences w hl mints))
    (List.filter (fun w => negb (skipped w))
       (first_seen (concat (holder_sets_of hl mints)))).
Proof.
  rewrite collect_holders_grouped. unfold Dict.grouped.
  rewrite holder_pairs_wallets, first_seen_filter.
  apply map_ext_in. intros w [_ Hw%negb_true_iff]%filter_In. f_equal.
  rewrite fold_left_snoc_map. simpl. by apply holder_pairs_occurrences.
Qed.

Lemma occurrences_nonempty w hl mints :
  w ∈ concat (holder_sets_of hl mints) ↔ occurrences w hl mints ≠ [].
Proof.
  unfold holder_sets_of, occurrences.
  induction (zip mints hl) as [|[m hs] mhs IH]; simpl.
  - split; [by intros ?%elem_of_nil | done].
  - rewrite elem_of_app, IH.
    assert (w ∈ hs ↔ List.filter (fun x => bool_decide (x = w)) hs ≠ []) as Hhs.
    { rewrite <- existsb_filter_nonempty, existsb_exists. split.
      - intros Hin. exists w. split; [by apply list_elem_of_In|].
        by apply bool_decide_eq_true.
      - intros (x & Hx & ->%bool_decide_eq_true). by apply list_elem_of_In. }
    rewrite Hhs. clear Hhs IH.
    destruct (List.filter (fun x => bool_decide (x = w)) hs) as [|y ys]; simpl.
    + split; [by intros [?|?] | by right].
    + split; [done | by left].
Qed.

Lemma occurrences_mints w hl mints :
  Forall (fun m => m ∈ mints) (occurrences w hl mints).
Proof.
  unfold occurrences. rewrite List.Forall_forall. intros m Hin.
  apply in_flat_map in Hin as ([m' hs] & Hzip & Hrep).
  apply repeat_spec in Hrep. simpl in Hrep. subst m.
  apply list_elem_of_In in Hzip. by eapply elem_of_zip_l.
Qed.

Lemma elem_of_find_intersection hl mints k w held :
  (w, held) ∈ find_intersection hl mints k ↔
  held = occurrences w hl mints ∧ eligible w ∧ held ≠ [] ∧ k ≤ Z.of_nat (length held).
Proof.
  unfold find_intersection. rewrite sort_desc_elem, collect_holders_occurrences.
  rewrite list_elem_of_In, filter_In, in_map_iff. unfold held_count. simpl.
  rewrite Z.geb_le. split.
  - intros [(w' & [= <- <-] & [Hw Hs%negb_true_iff]%filter_In) Hk].
    split_and!; [done | by apply skipped_false_eligible | | done].
    by apply occurrences_nonempty, elem_of_first_seen, list_elem_of_In.
  - intros (-> & Hw & Hne & Hk). split; [|done].
    exists w. split; [done|]. apply filter_In. split.
    + by apply list_elem_of_In, elem_of_first_seen, occurrences_nonempty.
    + by apply negb_true_iff, skipped_false_eligible.
Qed.

Lemma elem_of_keys {V : Type} (d : Dict.t V) w :
  w ∈ Dict.keys d ↔ ∃ v, (w, v) ∈ d.
Proof.
  unfold Dict.keys. rewrite list_elem_of_In, in_map_iff. split.
  - intros ([w' v] & <- & Hin). exists v. by apply list_elem_of_In.
  - intros (v & Hin). exists (w, v). split; [done | by apply list_elem_of_In].
Qed.

Lemma get_elem_of {V : Type} (d : Dict.t V) w v :
  Dict.get w d = Some v → (w, v) ∈ d.
Proof.
  induction d as [|[k x] d IH]; simpl; [done|].
  destruct (decide (k = w)) as [->|Hne].
  - intros [= ->]. apply elem_of_cons. by left.
  - intros H. apply elem_of_cons. right. by apply IH.
Qed.

Lemma get_is_Some {V : Type} (d : Dict.t V) w :
  w ∈ Dict.keys d → is_Some (Dict.get w d).
Proof.
  unfold Dict.keys. induction d as [|[k x] d IH]; simpl.
  - by intros ?%elem_of_nil.
  - intros [->|Hin]%elem_of_cons.
    + rewrite decide_True by done. by eexists.
    + destruct (decide (k = w)); [by eexists | by apply IH].
Qed.

Section IntersectionEdges.
Import Sample Fixture.

(** X5: whatever the holder lists are, also with repeated entries, every
    output wallet of [find_intersection] is mapped to the tokens of the
    lists it occurs in, once per occurrence; the keys are distinct and are
    exactly the eligible wallets whose number of occurrences reaches
    [min_appearances]; every listed token is one of the given tokens. *)
Theorem find_intersection_counts_occurrences (hl : list (list string))
    (mints : list string) (k : Z) :
  (∀ w held, (w, held) ∈ find_intersection hl mints k →
     held = occurrences w hl mints ∧ k ≤ Z.of_nat (length held) ∧
     (1 ≤ length held)%nat ∧ Forall (fun m => m ∈ mints) held)
  ∧ (∀ w, w ∈ Dict.keys (find_intersection hl mints k) ↔
       eligible w ∧ occurrences w hl mints ≠ [] ∧
       k ≤ Z.of_nat (length (occurrences w hl mints)))
  ∧ NoDup (Dict.keys (find_intersection hl mints k)).
Proof.
  split_and!.
  - intros w held (-> & _ & Hne & Hk)%elem_of_find_intersection.
    split_and!; [done | done | | apply occurrences_mints].
    destruct (occurrences w hl mints); [done | simpl; lia].
  - intros w. rewrite elem_of_keys. split.
    + intros (held & (-> & ? & ? & ?)%elem_of_find_intersection). done.
    + intros (? & ? & ?). exists (occurrences w hl mints).
      by apply elem_of_find_intersection.
  - apply NoDup_keys_find_intersection.
Qed.

(** X with two entries in one list reaches two occurrences. *)
Example repeated_holder_occurrences :
  occurrences X repeated_holders [T1; T2] = [T1; T1] ∧
  find_intersection repeated_holders [T1; T2] 2 = [(X, [T1; T1]); (W, [T1; T2])].
Proof. split; reflexivity. Qed.

(** X6: when every holder list is empty, or no token is given, the
    intersection is empty, for every [min_appearances]. *)
Theorem find_intersection_of_nothing (hl : list (list string)) (mints : list string)
    (k : Z) :
  mints = [] ∨ Forall (fun hs => hs = []) hl →
  find_intersection hl mints k = [].
Proof.
  intros Hempty.
  assert (Dict.keys (find_intersection hl mints k) = []) as Hkeys.
  { destruct (Dict.keys (find_intersection hl mints k)) as [|w ws] eqn:Hk; [done|].
    assert (w ∈ Dict.keys (find_intersection hl mints k)) as Hin
      by (rewrite Hk; apply elem_of_cons; by left).
    apply elem_of_keys in Hin as (held & (-> & _ & Hocc & _)%elem_of_find_intersection).
    exfalso. apply Hocc. unfold occurrences.
    destruct Hempty as [->|Hall]; [done|].
    assert (Forall (fun mh : string * list string => snd mh = []) (zip mints hl)) as Hz.
    { rewrite List.Forall_forall in *. intros [m hs] Hin. simpl.
      apply Hall. apply list_elem_of_In in Hin.
      apply list_elem_of_In. by eapply (elem_of_zip_r m hs). }
    induction Hz as [|[m hs] mhs Hhs Hz IH]; [done|].
    simpl in *. by rewrite Hhs, IH. }
  unfold Dict.keys in Hkeys. by destruct (find_intersection hl mints k).
Qed.

Lemma find_intersection_of_nothing_witness :
  ([T1; T2] = [] ∨ Forall (fun hs : list string => hs = []) [[]; []]) ∧
  find_intersection [[]; []] [T1; T2] 2 = [].
Proof.
  assert ([T1; T2] = [] ∨ Forall (fun hs : list string => hs = []) [[]; []]) as H
    by (right; repeat constructor).
  split; [exact H|].
  exact (find_intersection_of_nothing [[]; []] [T1; T2] 2 H).
Defined.
End IntersectionEdges.

Lemma filter_nonempty_spec (l : list string) :
  Forall (fun s => s ≠ "") (List.filter nonempty l).
Proof.
  rewrite List.Forall_forall. intros s [_ Hs]%filter_In.
  unfold nonempty in Hs. apply negb_true_iff in Hs.
  by apply bool_decide_eq_false in Hs.
Qed.

Lemma get_top_holders_requests_le p m :
  (length (requests_of (get_top_holders p m)) ≤ 2)%nat.
Proof.
  unfold get_top_holders, get_account_owners.
  destruct (largest_accounts p m) as [|accounts]; [simpl; lia|].
  destruct (List.filter nonempty accounts) as [|acc accs]; [simpl; lia|].
  destruct (multiple_accounts p (acc :: accs)); simpl; lia.
Qed.

Lemma length_flat_map_le {A B : Type} (f : A → list B) (n : nat) (l : list A) :
  (∀ a, length (f a) ≤ n)%nat → (length (flat_map f l) ≤ n * length l)%nat.
Proof.
  intros Hf. induction l as [|a l IH]; simpl; [lia|].
  rewrite length_app. specialize (Hf a). lia.
Qed.

Lemma NoDup_map_inj {A B : Type} (f : A → B) (l : list A) :
  (∀ x y, f x = f y → x = y) → NoDup l → NoDup (map f l).
Proof.
  intros Hinj. induction 1 as [|x l Hx Hl IH]; simpl; constructor; [|done].
  rewrite list_elem_of_In, in_map_iff. intros (y & Hy%Hinj & Hin). subst y.
  by apply Hx, list_elem_of_In.
Qed.

Lemma NoDup_analysed_wallets p mints : NoDup (analysed_wallets p mints).
Proof.
  unfold analysed_wallets, intersection.
  eapply sublist_NoDup; [apply NoDup_keys_find_intersection | apply sublist_take].
Qed.

(** The wallets of the passing entries are a sublist of the analysed
    wallets. *)
Lemma passing_wallets_sublist p mints a b :
  sublist (map wallet (passing p mints a b)) (analysed_wallets p mints).
Proof.
  unfold passing. induction (analysed_wallets p mints) as [|w ws IH]; [done|].
  cbn [omap list_omap].
  destruct (report_of p mints w) as [r|]; simpl; [|by constructor].
  case_bool_decide; simpl; by constructor.
Qed.

Lemma sublist_take_map {A B : Type} (f : A → B) (n : nat) (l : list A) :
  sublist (map f (take n l)) (map f l).
Proof.
  revert n. induction l as [|x l IH]; intros [|n]; simpl;
    try constructor; try done.
  apply sublist_nil_l.
Qed.

Lemma collect_owners_nonempty value :
  Forall (fun owner => owner ≠ "") (collect_owners value).
Proof.
  induction value as [|[|owner|] value IH]; cbn [collect_owners]; try done.
  destruct (nonempty owner) eqn:Hne; [|done].
  constructor; [|done]. unfold nonempty in Hne. apply negb_true_iff in Hne.
  by apply bool_decide_eq_false in Hne.
Qed.

Lemma collect_owners_cut before after :
  collect_owners (before ++ Unparsed :: after) = collect_owners before.
Proof.
  induction before as [|[|owner|] before IH]; cbn [collect_owners app]; try done.
  destruct (nonempty owner); by rewrite IH.
Qed.

Section PipelineEdges.
Import Sample Fixture.

(** X7: [get_top_holders] never returns an empty owner string; it issues
    the largest-accounts request and, only when that reply holds at least
    one non-empty account address, one owners request for exactly those
    addresses; when the first request fails it returns no holder; when
    the owners request fails it returns no holder either, and when an
    entry of its reply cannot be read it returns the owners found before
    that entry. *)
Theorem get_top_holders_contract (p : Provider) (m : string) :
  Forall (fun owner => owner ≠ "") (value_of (get_top_holders p m))
  ∧ (requests_of (get_top_holders p m) = [ReqTokenLargestAccounts m]
       ∧ value_of (get_top_holders p m) = []
     ∨ ∃ accounts addresses,
         largest_accounts p m = RpcValue accounts ∧
         addresses = List.filter nonempty accounts ∧ addresses ≠ [] ∧
         requests_of (get_top_holders p m) =
           [ReqTokenLargestAccounts m; ReqMultipleAccounts addresses] ∧
         (multiple_accounts p addresses = RpcFailed →
          value_of (get_top_holders p m) = []) ∧
         (∀ before after,
            multiple_accounts p addresses = RpcValue (before ++ Unparsed :: after) →
            value_of (get_top_holders p m) = collect_owners before))
  ∧ (largest_accounts p m = RpcFailed → value_of (get_top_holders p m) = []).
Proof.
  unfold get_top_holders, get_account_owners.
  destruct (largest_accounts p m) as [|accounts] eqn:Hl.
  { split_and!; [constructor | by left | done]. }
  destruct (List.filter nonempty accounts) as [|acc accs] eqn:Hf.
  { split_and!; [constructor | by left | done]. }
  destruct (multiple_accounts p (acc :: accs)) as [|owners] eqn:Hm.
  - split_and!; [constructor | | done].
    right. exists accounts, (acc :: accs). rewrite Hf, Hm. by split_and!.
  - split_and!; [apply collect_owners_nonempty | | done].
    right. exists accounts, (acc :: accs). rewrite Hf, Hm. split_and!; try done.
    intros before after [= ->]. apply collect_owners_cut.
Qed.

(** A reply whose second entry cannot be read: the owner before it is
    kept, the owner after it is lost. *)
Example get_top_holders_partial :
  let p := {| largest_accounts := fun _ => RpcValue ["acc1"; "acc2"; "acc3"];
              multiple_accounts := fun _ => RpcValue [OwnedBy W; Unparsed; OwnedBy X];
              transactions := fun _ => NoResponse |} in
  value_of (get_top_holders p T1) = [W].
Proof. reflexivity. Qed.

(** X8: one call of [find_smart_money] issues all its holder requests
    before any activity request, at most 10 holder requests and at most 30
    activity requests, and never asks twice for the activity of a wallet. *)
Theorem request_budget (p : Provider) (mints : list string) (a b : Qc) :
  ∃ holder_requests activity_requests,
    requests_of (find_smart_money p mints a b) = holder_requests ++ activity_requests
    ∧ Forall (fun r => is_activity_request r = false) holder_requests
    ∧ Forall (fun r => is_activity_request r = true) activity_requests
    ∧ (length holder_requests ≤ 10)%nat
    ∧ (length activity_requests ≤ 30)%nat
    ∧ NoDup activity_requests.
Proof.
  rewrite find_smart_money_requests. case_bool_decide as Hlen.
  { exists [], [].
    split_and!; [done | constructor | constructor | simpl; lia | simpl; lia | constructor]. }
  exists (flat_map (fun m => requests_of (get_top_holders p m)) (analysed_tokens mints)),
    (match intersection p mints with
     | [] => []
     | _ :: _ => map ReqTransactions (analysed_wallets p mints)
     end).
  assert (length (analysed_wallets p mints) ≤ 30)%nat as H30.
  { unfold analysed_wallets. rewrite length_take. lia. }
  split_and!.
  - done.
  - rewrite List.Forall_forall. intros r Hr.
    destruct (is_activity_request r) eqn:Har; [|done].
    assert (In r (List.filter is_activity_request
                    (flat_map (fun m => requests_of (get_top_holders p m))
                       (analysed_tokens mints)))) as Hin
      by (apply filter_In; done).
    by rewrite filter_holder_requests in Hin.
  - destruct (intersection p mints); [constructor|].
    rewrite List.Forall_forall. by intros r (w & <- & _)%in_map_iff.
  - etrans; [apply (length_flat_map_le _ 2), get_top_holders_requests_le|].
    unfold analysed_tokens. rewrite length_take. lia.
  - destruct (intersection p mints); [simpl; lia|]. by rewrite length_map.
  - destruct (intersection p mints); [constructor|].
    apply NoDup_map_inj; [by intros x y [= ->] | apply NoDup_analysed_wallets].
Qed.

(** X9: every report lists between 2 and 5 analysed tokens, a prefix of
    the input; it echoes the two thresholds; it holds at most 10 qualified
    wallets, never more than the common wallets it counts; the qualified
    wallets are distinct and eligible, and each holds at least 2 of the
    analysed tokens. *)
Theorem report_invariants (p : Provider) (mints : list string) (a b : Qc)
    (ms : list string) (n : nat) (qs : list Qualified) (a' b' : Qc) :
  value_of (find_smart_money p mints a b) = Report ms n qs a' b' →
  ms = take 5 mints ∧ (2 ≤ length ms)%nat ∧ (length ms ≤ 5)%nat
  ∧ a' = a ∧ b' = b
  ∧ (1 ≤ n)%nat ∧ (length qs ≤ 10)%nat ∧ (length qs ≤ n)%nat
  ∧ NoDup (map wallet qs)
  ∧ Forall (fun q =>
       eligible (wallet q) ∧ (2 ≤ length (tokens_held q))%nat ∧
       Forall (fun m => m ∈ ms) (tokens_held q)) qs.
Proof.
  intros (Hlen & Hne & -> & -> & -> & -> & ->)%find_smart_money_report.
  set (ranked := sort_desc qualified_key Num.ltb (passing p mints a b)).
  assert (sublist (map wallet (take 10 ranked)) (map wallet ranked)) as Hsub1
    by apply sublist_take_map.
  assert (Permutation (map wallet ranked) (map wallet (passing p mints a b))) as Hperm
    by (apply Permutation_map, sort_desc_perm).
  assert (NoDup (map wallet (passing p mints a b))) as Hnd.
  { eapply sublist_NoDup; [apply NoDup_analysed_wallets | apply passing_wallets_sublist]. }
  assert (length (passing p mints a b) ≤ length (intersection p mints))%nat as Hpl.
  { pose proof (sublist_length _ _ (passing_wallets_sublist p mints a b)) as Hl.
    rewrite length_map in Hl. etrans; [exact Hl|].
    unfold analysed_wallets, Dict.keys. rewrite length_take, length_map. lia. }
  unfold analysed_tokens. split_and!; try done.
  - rewrite length_take. lia.
  - rewrite length_take. lia.
  - destruct (intersection p mints); [done | simpl; lia].
  - rewrite length_take. lia.
  - rewrite length_take. unfold ranked. rewrite sort_desc_length. lia.
  - eapply sublist_NoDup; [|exact Hsub1]. by rewrite Hperm.
  - rewrite List.Forall_forall. intros q Hq%list_elem_of_In%elem_of_take_inv.
    apply sort_desc_elem, elem_of_passing in Hq as (Hw & _ & _ & Hheld).
    unfold analysed_wallets in Hw. apply elem_of_take_inv in Hw.
    destruct (get_is_Some _ _ Hw) as [held Hget].
    unfold Dict.get_or in Hheld. rewrite Hget in Hheld. simpl in Hheld.
    apply get_elem_of in Hget. unfold intersection in Hget.
    apply elem_of_find_intersection in Hget as (Hocc & Helig & _ & Hk).
    rewrite Hheld. split_and!; [done | lia |].
    rewrite Hocc. apply occurrences_mints.
Qed.

Lemma report_invariants_witness :
  ∃ ms n qs a' b',
    value_of (find_smart_money market six_tokens default_min_win_rate default_min_pnl_sol)
    = Report ms n qs a' b' ∧
    ms = take 5 six_tokens ∧ (2 ≤ length ms)%nat ∧ (length ms ≤ 5)%nat
    ∧ a' = default_min_win_rate ∧ b' = default_min_pnl_sol
    ∧ (1 ≤ n)%nat ∧ (length qs ≤ 10)%nat ∧ (length qs ≤ n)%nat
    ∧ NoDup (map wallet qs)
    ∧ Forall (fun q =>
         eligible (wallet q) ∧ (2 ≤ length (tokens_held q))%nat ∧
         Forall (fun m => m ∈ ms) (tokens_held q)) qs.
Proof.
  destruct (value_of (find_smart_money market six_tokens
                        default_min_win_rate default_min_pnl_sol))
    as [e c|ms n qs a' b'] eqn:Hv; [by vm_compute in Hv|].
  exists ms, n, qs, a', b'. split; [reflexivity|].
  exact (report_invariants market six_tokens default_min_win_rate
           default_min_pnl_sol ms n qs a' b' Hv).
Defined.
End PipelineEdges.

(* ===================================================================== *)
(** * Facts about [compute_gini] *)
(* ===================================================================== *)

Lemma of_Z_add (a b : Z) : Num.of_Z (a + b) = (Num.of_Z a + Num.of_Z b)%Qc.
Proof.
  apply Qc_is_canon. unfold Num.of_Z. simpl.
  rewrite !Qred_correct. by rewrite inject_Z_plus.
Qed.

Lemma of_Z_mul (a b : Z) : Num.of_Z (a * b) = (Num.of_Z a * Num.of_Z b)%Qc.
Proof.
  apply Qc_is_canon. unfold Num.of_Z. simpl.
  rewrite !Qred_correct. by rewrite inject_Z_mult.
Qed.

Lemma of_Z_opp (a : Z) : Num.of_Z (- a) = (- Num.of_Z a)%Qc.
Proof.
  apply Qc_is_canon. unfold Num.of_Z. simpl.
  rewrite !Qred_correct. by rewrite inject_Z_opp.
Qed.

Lemma py_sum_from l acc : fold_left Qcplus l acc = (acc + total l)%Qc.
Proof.
  revert acc. induction l as [|x l IH]; intros acc; simpl.
  - ring.
  - rewrite IH. ring.
Qed.

Lemma py_sum_total l : py_sum l = total l.
Proof. unfold py_sum. rewrite py_sum_from. ring. Qed.

Lemma total_perm l1 l2 : Permutation l1 l2 → total l1 = total l2.
Proof.
  induction 1 as [|x l1 l2 _ IH|x y l|l1 l2 l3 _ IH1 _ IH2]; simpl.
  - done.
  - by rewrite IH.
  - ring.
  - by rewrite IH1.
Qed.

#[export] Instance StrictWeak_Qc_flip : StrictWeak (fun a b : Qc => Num.ltb b a).
Proof.
  split.
  - intros a. apply sw_irrefl.
  - intros a b c H1 H2. by apply (sw_trans c b a).
  - intros a b c H. destruct (sw_cotrans c b a H); [by right | by left].
Qed.

Lemma sorted_asc_perm l : Permutation (sorted_asc l) l.
Proof. apply sort_desc_perm. Qed.

Lemma sorted_asc_sorted l : StronglySorted Qcle (sorted_asc l).
Proof.
  eapply StronglySorted_impl; [|apply sort_desc_sorted; apply _].
  intros x y Hxy. unfold not_below, Num.ltb in Hxy. simpl in Hxy.
  apply bool_decide_eq_false in Hxy. by apply Qcnot_lt_le.
Qed.

Lemma gini_terms_cons n i x l :
  gini_terms n i (x :: l) = (gini_weight n i * x)%Qc :: gini_terms n (S i) l.
Proof.
  unfold gini_terms. rewrite imap_cons. f_equal.
  - by rewrite Nat.add_0_r.
  - apply imap_ext. intros j y _. simpl. by rewrite Nat.add_succ_r.
Qed.

(** An ascending list is determined by its elements. *)
Lemma ascending_unique (l1 l2 : list Qc) :
  StronglySorted Qcle l1 → StronglySorted Qcle l2 → Permutation l1 l2 → l1 = l2.
Proof.
  intros H1. revert l2. induction H1 as [|x l1 Hl1 IH Hx]; intros l2 H2 Hp.
  - by apply Permutation_nil in Hp.
  - destruct H2 as [|y l2 Hl2 Hy].
    + symmetry in Hp. by apply Permutation_nil in Hp.
    + assert (x = y) as ->.
      { assert (In x (y :: l2)) as Hxin by (eapply Permutation_in; [exact Hp | by left]).
        assert (In y (x :: l1)) as Hyin
          by (eapply Permutation_in; [symmetry; exact Hp | by left]).
        rewrite List.Forall_forall in Hx, Hy.
        destruct Hxin as [->|Hxin]; [done|]. destruct Hyin as [->|Hyin]; [done|].
        apply Qcle_antisym; [by apply Hx | by apply Hy]. }
      f_equal. apply IH; [done|]. by apply Permutation_cons_inv in Hp.
Qed.

Lemma sorted_asc_of_perm l1 l2 : Permutation l1 l2 → sorted_asc l1 = sorted_asc l2.
Proof.
  intros Hp. apply ascending_unique; try apply sorted_asc_sorted.
  by rewrite !sorted_asc_perm.
Qed.

Lemma Forall_perm_Qc (P : Qc → Prop) l1 l2 :
  Permutation l1 l2 → Forall P l1 → Forall P l2.
Proof. intros Hp. by rewrite Hp. Qed.

Lemma compute_gini_unfold x l :
  compute_gini (x :: l) =
  let s := sorted_asc (x :: l) in
  if Num.ltb 0%Qc (total s)
  then (total (gini_terms (Z.of_nat (length s)) 0 s) /
        (Num.of_Z (Z.of_nat (length s)) * total s))%Qc
  else 0%Qc.
Proof.
  unfold compute_gini. cbv zeta. rewrite !py_sum_total.
  rewrite (Permutation_length (sorted_asc_perm (x :: l))). done.
Qed.

Section Gini.
Import GiniFixture.

(** X11: [compute_gini] does not depend on the order of its input. *)
Theorem compute_gini_order_independent (l1 l2 : list Qc) :
  Permutation l1 l2 → compute_gini l1 = compute_gini l2.
Proof.
  intros Hp. destruct l1 as [|x1 l1], l2 as [|x2 l2].
  - done.
  - by apply Permutation_nil in Hp.
  - symmetry in Hp. by apply Permutation_nil in Hp.
  - rewrite !compute_gini_unfold. cbv zeta.
    by rewrite (sorted_asc_of_perm _ _ Hp).
Qed.

Lemma compute_gini_order_independent_witness :
  Permutation shares shares_reordered ∧
  compute_gini shares = compute_gini shares_reordered.
Proof.
  assert (Permutation shares shares_reordered) as H by apply perm_swap.
  split; [exact H|]. exact (compute_gini_order_independent _ _ H).
Defined.

End Gini.
(* ===================================================================== *)
(** * Dev alpha *)
(* ===================================================================== *)

Section DevAlpha.
Import Dev DevSpec DevFixture.

Lemma note_mint_consistent (P : TokenMint → Prop) ts st m :
  consistent P st → P {| token_mint := m; token_timestamp := ts |} →
  consistent P (note_mint ts st m).
Proof.
  intros (Hnd & Hseen & Hall) HP. unfold note_mint.
  destruct (decide (m ∈ fst st)) as [Hin|Hout].
  - rewrite bool_decide_eq_true_2 by done. done.
  - rewrite bool_decide_eq_false_2 by done. repeat split; cbn [fst snd].
    + rewrite map_app. apply list.NoDup_app. split; [done|]. split.
      * intros x Hx Hx'. apply list_elem_of_singleton in Hx'. subst x.
        apply Hout, Hseen, Hx.
      * apply NoDup_singleton.
    + rewrite map_app, elem_of_app, elem_of_union, elem_of_singleton.
      cbn [map token_mint]. rewrite list_elem_of_singleton, Hseen. tauto.
    + rewrite map_app, elem_of_app, elem_of_union, elem_of_singleton.
      cbn [map token_mint]. rewrite list_elem_of_singleton, Hseen. tauto.
    + apply Forall_app. split; [done|]. by apply list.Forall_singleton.
Qed.

Lemma note_mint_keeps ts st m x :
  x ∈ map token_mint (snd st) → x ∈ map token_mint (snd (note_mint ts st m)).
Proof.
  unfold note_mint. case_bool_decide; [done|]. cbn [snd].
  rewrite map_app, elem_of_app. by left.
Qed.

Lemma note_mint_adds (P : TokenMint → Prop) ts st m :
  consistent P st → m ∈ map token_mint (snd (note_mint ts st m)).
Proof.
  intros (_ & Hseen & _). unfold note_mint.
  destruct (decide (m ∈ fst st)) as [Hin|Hout].
  - rewrite bool_decide_eq_true_2 by done. by apply Hseen.
  - rewrite bool_decide_eq_false_2 by done. cbn [snd].
    rewrite map_app, elem_of_app. right. cbn. apply list_elem_of_singleton. done.
Qed.


Lemma scan_instruction_consistent (P : TokenMint → Prop) ts st instruction :
  consistent P st →
  (programId instruction = TOKEN_PROGRAM → ∀ m, head (accounts instruction) = Some m →
     P {| token_mint := m; token_timestamp := ts |}) →
  consistent P (scan_instruction ts st instruction).
Proof.
  intros Hst HP. unfold scan_instruction. case_bool_decide as Hprog; [|done].
  destruct (accounts instruction) as [|first rest] eqn:Hacc; [done|].
  apply note_mint_consistent; [done|]. by apply HP.
Qed.

Lemma scan_transfer_consistent (P : TokenMint → Prop) ts st m :
  consistent P st →
  (m ≠ "" → P {| token_mint := m; token_timestamp := ts |}) →
  consistent P (scan_transfer ts st m).
Proof.
  intros Hst HP. unfold scan_transfer, nonempty.
  destruct m as [|c m]; [done|]. cbn. apply note_mint_consistent; [done|]. by apply HP.
Qed.

Lemma scan_instructions_consistent (P : TokenMint → Prop) ts l st :
  consistent P st →
  (∀ instruction, instruction ∈ l → programId instruction = TOKEN_PROGRAM →
     ∀ m, head (accounts instruction) = Some m →
     P {| token_mint := m; token_timestamp := ts |}) →
  consistent P (fold_left (scan_instruction ts) l st).
Proof.
  revert st. induction l as [|i l IH]; intros st Hst HP; [done|].
  cbn [fold_left]. apply IH.
  - apply scan_instruction_consistent; [done|]. apply HP, elem_of_cons. by left.
  - intros i' Hi'. apply HP, elem_of_cons. by right.
Qed.

Lemma scan_transfers_consistent (P : TokenMint → Prop) ts l st :
  consistent P st →
  (∀ m, m ∈ l → m ≠ "" → P {| token_mint := m; token_timestamp := ts |}) →
  consistent P (fold_left (scan_transfer ts) l st).
Proof.
  revert st. induction l as [|m l IH]; intros st Hst HP; [done|].
  cbn [fold_left]. apply IH.
  - apply scan_transfer_consistent; [done|]. apply HP, elem_of_cons. by left.
  - intros m' Hm'. apply HP, elem_of_cons. by right.
Qed.

Lemma scan_deploy_tx_consistent (P : TokenMint → Prop) cutoff st tx :
  consistent P st →
  ((cutoff <= Num.of_Z (tx_timestamp tx))%Qc → ∀ m, minted_in tx m →
     P {| token_mint := m; token_timestamp := tx_timestamp tx |}) →
  consistent P (scan_deploy_tx cutoff st tx).
Proof.
  intros Hst HP. unfold scan_deploy_tx. cbv zeta. unfold Num.ltb.
  case_bool_decide as Hold; [done|].
  apply Qcnot_lt_le in Hold. specialize (HP Hold).
  apply scan_transfers_consistent.
  - apply scan_instructions_consistent; [done|].
    intros i Hi Hprog m Hm. apply HP. left. by exists i.
  - intros m Hm Hne. apply HP. by right.
Qed.

Lemma scan_deploy_txs_consistent (P : TokenMint → Prop) cutoff txs st :
  consistent P st →
  (∀ tx, tx ∈ txs → (cutoff <= Num.of_Z (tx_timestamp tx))%Qc → ∀ m, minted_in tx m →
     P {| token_mint := m; token_timestamp := tx_timestamp tx |}) →
  consistent P (fold_left (scan_deploy_tx cutoff) txs st).
Proof.
  revert st. induction txs as [|tx txs IH]; intros st Hst HP; [done|].
  cbn [fold_left]. apply IH.
  - apply scan_deploy_tx_consistent; [done|]. apply HP, elem_of_cons. by left.
  - intros tx' Htx'. apply HP, elem_of_cons. by right.
Qed.

Lemma consistent_empty (P : TokenMint → Prop) : consistent P (∅, []).
Proof.
  repeat split; cbn.
  - apply NoDup_nil_2.
  - intros H. by apply elem_of_empty in H.
  - intros H. by apply elem_of_nil in H.
  - apply list.Forall_nil_2.
Qed.


Lemma found_tokens_consistent now txs : consistent (traced now txs) (found_tokens now txs).
Proof.
  apply scan_deploy_txs_consistent; [apply consistent_empty|].
  intros tx Htx Hin m Hm. by exists tx.
Qed.

Lemma deployed_tokens_facts now txs :
  (length (deployed_tokens now txs) ≤ 20)%nat ∧
  NoDup (map token_mint (deployed_tokens now txs)) ∧
  Forall (traced now txs) (deployed_tokens now txs).
Proof.
  destruct (found_tokens_consistent now txs) as (Hnd & _ & Hall).
  unfold deployed_tokens. split; [|split].
  - rewrite length_take. lia.
  - rewrite <- firstn_map. eapply sublist_NoDup; [exact Hnd|]. apply sublist_take.
  - by apply Forall_take.
Qed.


Lemma fold_keeps {A} (step : Found → A → Found) l st x :
  (∀ st a, x ∈ map token_mint (snd st) → x ∈ map token_mint (snd (step st a))) →
  x ∈ map token_mint (snd st) → x ∈ map token_mint (snd (fold_left step l st)).
Proof.
  intros Hkeep. revert st. induction l as [|a l IH]; intros st Hx; [done|].
  cbn [fold_left]. by apply IH, Hkeep.
Qed.

Lemma fold_adds {A} (step : Found → A → Found) (Inv : Found → Prop) l st a x :
  (∀ st a, Inv st → Inv (step st a)) →
  (∀ st a, x ∈ map token_mint (snd st) → x ∈ map token_mint (snd (step st a))) →
  (∀ st, Inv st → x ∈ map token_mint (snd (step st a))) →
  a ∈ l → Inv st → x ∈ map token_mint (snd (fold_left step l st)).
Proof.
  intros Hinv Hkeep Hadd. revert st. induction l as [|b l IH]; intros st Ha Hst.
  - by apply elem_of_nil in Ha.
  - cbn [fold_left]. apply elem_of_cons in Ha as [->|Ha].
    + apply fold_keeps; [done|]. by apply Hadd.
    + apply IH; [done|]. by apply Hinv.
Qed.


Lemma scan_instruction_keeps ts st i x :
  x ∈ map token_mint (snd st) → x ∈ map token_mint (snd (scan_instruction ts st i)).
Proof.
  unfold scan_instruction. case_bool_decide; [|done].
  destruct (accounts i); [done|]. apply note_mint_keeps.
Qed.

Lemma scan_transfer_keeps ts st m x :
  x ∈ map token_mint (snd st) → x ∈ map token_mint (snd (scan_transfer ts st m)).
Proof.
  unfold scan_transfer. destruct (nonempty m); [|done]. apply note_mint_keeps.
Qed.

Lemma scan_deploy_tx_keeps cutoff st tx x :
  x ∈ map token_mint (snd st) → x ∈ map token_mint (snd (scan_deploy_tx cutoff st tx)).
Proof.
  intros Hx. unfold scan_deploy_tx. cbv zeta. destruct (Num.ltb _ _); [done|].
  apply fold_keeps; [intros; by apply scan_transfer_keeps|].
  apply fold_keeps; [intros; by apply scan_instruction_keeps|]. done.
Qed.

Lemma scan_deploy_tx_adds cutoff st tx m :
  sound st → (cutoff <= Num.of_Z (tx_timestamp tx))%Qc → minted_in tx m →
  m ∈ map token_mint (snd (scan_deploy_tx cutoff st tx)).
Proof.
  intros Hst Hin Hm. unfold scan_deploy_tx. cbv zeta. unfold Num.ltb.
  rewrite bool_decide_eq_false_2 by (by apply Qcle_not_lt).
  destruct Hm as [(i & Hi & Hprog & Hhead)|[Hm Hne]].
  - apply fold_keeps; [intros; by apply scan_transfer_keeps|].
    apply (fold_adds _ sound _ _ i); [| |  |done|done].
    + intros st' i' Hst'. by apply scan_instruction_consistent.
    + intros. by apply scan_instruction_keeps.
    + intros st' Hst'. unfold scan_instruction.
      rewrite bool_decide_eq_true_2 by done.
      destruct (accounts i) as [|first rest]; [done|]. injection Hhead as ->.
      by eapply note_mint_adds.
  - apply (fold_adds _ sound _ _ m); [| | |done|].
    + intros st' m' Hst'. by apply scan_transfer_consistent.
    + intros. by apply scan_transfer_keeps.
    + intros st' Hst'. unfold scan_transfer, nonempty.
      destruct m as [|c m]; [done|]. cbn. by eapply note_mint_adds.
    + apply scan_instructions_consistent; done.
Qed.

Lemma found_tokens_complete now txs tx m :
  tx ∈ txs → in_window now (tx_timestamp tx) → minted_in tx m →
  m ∈ map token_mint (snd (found_tokens now txs)).
Proof.
  intros Htx Hin Hm. unfold found_tokens.
  apply (fold_adds _ sound _ _ tx); [| | |done|apply consistent_empty].
  - intros st' tx' Hst'. by apply scan_deploy_tx_consistent.
  - intros. by apply scan_deploy_tx_keeps.
  - intros st' Hst'. by apply scan_deploy_tx_adds.
Qed.

Lemma get_deployed_tokens_cases p now dev :
  result_of (get_deployed_tokens p now dev) = [] ∨
  ∃ txs, result_of (get_deployed_tokens p now dev) = deployed_tokens now txs.
Proof.
  unfold get_deployed_tokens, result_of. cbn.
  destruct (created_by p dev) as [|status body]; [by left|].
  case_bool_decide.
  - cbn. destruct (all_by p dev) as [|status2 body2]; [by left|].
    case_bool_decide; [|by left]. destruct body2; cbn; eauto.
  - destruct body; cbn; eauto.
Qed.

Lemma get_deployed_tokens_log p now dev :
  log_of (get_deployed_tokens p now dev) = [ReqCreated dev] ∨
  log_of (get_deployed_tokens p now dev) = [ReqCreated dev; ReqAllTransactions dev].
Proof.
  unfold get_deployed_tokens, log_of. cbn.
  destruct (created_by p dev) as [|status body]; [by left|].
  case_bool_decide.
  - cbn. destruct (all_by p dev) as [|status2 body2]; [by right|].
    case_bool_decide; by right.
  - by left.
Qed.

Lemma get_deployed_tokens_facts (p : DevProvider) (now : Qc) (dev : string) :
  (length (result_of (get_deployed_tokens p now dev)) ≤ 20)%nat ∧
  NoDup (map token_mint (result_of (get_deployed_tokens p now dev))) ∧
  Forall (fun t => in_window now (token_timestamp t))
         (result_of (get_deployed_tokens p now dev)) ∧
  (1 ≤ length (log_of (get_deployed_tokens p now dev)) ≤ 2)%nat.
Proof.
  split; [|split; [|split]].
  - destruct (get_deployed_tokens_cases p now dev) as [->|[txs ->]]; [cbn; lia|].
    apply deployed_tokens_facts.
  - destruct (get_deployed_tokens_cases p now dev) as [->|[txs ->]]; [apply NoDup_nil_2|].
    apply deployed_tokens_facts.
  - destruct (get_deployed_tokens_cases p now dev) as [->|[txs ->]]; [apply list.Forall_nil_2|].
    eapply list.Forall_impl; [apply deployed_tokens_facts|].
    intros t (tx & _ & -> & Hin & _). done.
  - destruct (get_deployed_tokens_log p now dev) as [->| ->]; cbn; lia.
Qed.

(** X13: whatever the two endpoints answer, [get_deployed_tokens] returns at
    most 20 tokens with pairwise distinct mints, each with a timestamp not
    older than 60 days before [now]; it asks the CREATE-filtered endpoint,
    and then the unfiltered one exactly when the first answer arrived with
    a status other than 200. *)
Theorem deployed_tokens_distinct_recent (p : DevProvider) (now : Qc) (dev : string) :
  let found := result_of (get_deployed_tokens p now dev) in
  let log := log_of (get_deployed_tokens p now dev) in
  (length found ≤ 20)%nat ∧
  NoDup (map token_mint found) ∧
  Forall (fun t => in_window now (token_timestamp t)) found ∧
  (1 ≤ length log ≤ 2)%nat ∧
  (log = [ReqCreated dev] ∨ log = [ReqCreated dev; ReqAllTransactions dev]) ∧
  (log = [ReqCreated dev; ReqAllTransactions dev] ↔
   ∃ status body, created_by p dev = Reply status body ∧ status ≠ 200).
Proof.
  cbv zeta. split; [|split; [|split; [|split; [|split]]]].
  - destruct (get_deployed_tokens_cases p now dev) as [->|[txs ->]]; [cbn; lia|].
    apply deployed_tokens_facts.
  - destruct (get_deployed_tokens_cases p now dev) as [->|[txs ->]]; [apply NoDup_nil_2|].
    apply deployed_tokens_facts.
  - destruct (get_deployed_tokens_cases p now dev) as [->|[txs ->]]; [apply list.Forall_nil_2|].
    eapply list.Forall_impl; [apply deployed_tokens_facts|].
    intros t (tx & _ & -> & Hin & _). done.
  - destruct (get_deployed_tokens_log p now dev) as [->| ->]; cbn; lia.
  - apply get_deployed_tokens_log.
  - unfold get_deployed_tokens, log_of. cbn.
    destruct (created_by p dev) as [|status body].
    + split; [done|]. by intros (? & ? & ? & _).
    + case_bool_decide as Hs.
      * split; [|by destruct (all_by p dev) as [|? ?]; [|case_bool_decide]].
        intros _. by exists status, body.
      * split; [done|]. intros (status' & body' & [= <- <-] & Hne). done.
Qed.

(** X14: as long as the cap of 20 is not reached, the loop of
    [get_deployed_tokens] returns exactly the mints that a transaction
    inside the 60-day window names, as the first account of a Token-program
    instruction or as the non-empty mint of a token transfer. *)
Theorem deployed_tokens_sound_and_complete (now : Qc) (txs : list DeployTx) :
  (length (deployed_tokens now txs) < 20)%nat →
  ∀ m, m ∈ map token_mint (deployed_tokens now txs) ↔
       ∃ tx, tx ∈ txs ∧ in_window now (tx_timestamp tx) ∧ minted_in tx m.
Proof.
  intros Hfew m. split.
  - intros Hm. apply list_elem_of_In, in_map_iff in Hm as (t & <- & Ht).
    apply list_elem_of_In in Ht.
    destruct (deployed_tokens_facts now txs) as (_ & _ & Hall).
    rewrite list.Forall_forall in Hall. destruct (Hall t Ht) as (tx & Htx & _ & Hin & Hm).
    by exists tx.
  - intros (tx & Htx & Hin & Hm).
    pose proof (found_tokens_complete now txs tx m Htx Hin Hm) as Hfound.
    unfold deployed_tokens in *. rewrite length_take in Hfew.
    rewrite take_ge by lia. done.
Qed.

Lemma deployed_tokens_sound_and_complete_witness :
  (length (deployed_tokens DevFixture.now history) < 20)%nat ∧
  ("MintC" ∈ map token_mint (deployed_tokens DevFixture.now history) ↔
   ∃ tx, tx ∈ history ∧ in_window DevFixture.now (tx_timestamp tx) ∧ minted_in tx "MintC").
Proof.
  assert (length (deployed_tokens DevFixture.now history) < 20)%nat as H by (vm_compute; lia).
  split; [exact H|].
  exact (deployed_tokens_sound_and_complete DevFixture.now history H "MintC").
Defined.



Lemma chunks_concat (c : nat) (l : list string) :
  (length l ≤ c * 29)%nat →
  concat (map (fun i => take 29 (drop i l)) (map (fun k => (k * 29)%nat) (seq 0 c))) = l.
Proof.
  revert l. induction c as [|c IH]; intros l Hl.
  - destruct l; [done|]. cbn in Hl. lia.
  - rewrite <- cons_seq, <- seq_shift. cbn [map concat].
    rewrite !map_map. rewrite drop_0.
    transitivity (take 29 l ++ drop 29 l); [|apply take_drop]. f_equal.
    rewrite <- (IH (drop 29 l)) by (rewrite length_drop; lia).
    rewrite map_map. f_equal. apply map_ext. intros k.
    by rewrite drop_drop.
Qed.

Lemma chunks_of_concat (l : list string) : concat (chunks_of l) = l.
Proof.
  unfold chunks_of, py_range_step. apply chunks_concat.
  pose proof (Nat.div_mod_eq (length l + 29 - 1) 29) as H.
  pose proof (Nat.mod_upper_bound (length l + 29 - 1) 29). lia.
Qed.

Lemma chunks_of_sizes (l : list string) :
  Forall (fun chunk => (1 ≤ length chunk ≤ 29)%nat) (chunks_of l).
Proof.
  unfold chunks_of, py_range_step. rewrite map_map.
  apply list.Forall_forall. intros chunk Hc.
  apply list_elem_of_In, in_map_iff in Hc as (k & <- & Hk). apply in_seq in Hk.
  rewrite length_take, length_drop.
  pose proof (Nat.div_mod_eq (length l + 29 - 1) 29) as H.
  pose proof (Nat.mod_upper_bound (length l + 29 - 1) 29). lia.
Qed.

Lemma chunks_of_short (l : list string) :
  l ≠ [] → (length l ≤ 29)%nat → chunks_of l = [l].
Proof.
  intros Hne Hl. unfold chunks_of, py_range_step.
  assert ((length l + 29 - 1) / 29 = 1)%nat as ->.
  { destruct l; [done|]. cbn [length] in *.
    symmetry. apply (Nat.div_unique _ 29 1 (length l)); lia. }
  cbn. rewrite drop_0. by rewrite take_ge.
Qed.

Lemma fetch_chunks_log p chunks dex :
  log_of (fetch_chunks p chunks dex) = map ReqDexScreener chunks.
Proof.
  revert dex. induction chunks as [|c chunks IH]; intros dex; [done|].
  cbn [fetch_chunks]. unfold log_of in *. cbn. by rewrite IH.
Qed.

Lemma store_pairs_read pairs dex :
  store_pairs dex pairs = fold_left add_pair (read_pairs pairs) dex.
Proof.
  revert dex. induction pairs as [|[entry|] pairs IH]; intros dex; [done| |done].
  cbn [store_pairs read_pairs fold_left]. apply IH.
Qed.

Lemma absorb_pairs dex reply : absorb dex reply = fold_left add_pair (pairs_of_reply reply) dex.
Proof.
  unfold absorb, pairs_of_reply. destruct reply as [|status [| |pairs]]; try done.
  case_bool_decide; [apply store_pairs_read | done].
Qed.

Lemma fetch_chunks_result p chunks dex :
  result_of (fetch_chunks p chunks dex) = fold_left add_pair (answers p chunks) dex.
Proof.
  revert dex. induction chunks as [|c chunks IH]; intros dex; [done|].
  cbn [fetch_chunks]. unfold result_of in *. cbn. rewrite IH.
  unfold answers. cbn [flat_map]. by rewrite fold_left_app, absorb_pairs.
Qed.

Lemma fold_add_pair_lookup pairs dex m :
  fold_left add_pair pairs dex !! m =
  match dex !! m with
  | Some pr => Some pr
  | None => if nonempty m then first_pair m pairs else None
  end.
Proof.
  revert dex. induction pairs as [|pr pairs IH]; intros dex.
  - cbn. destruct (dex !! m); [done|]. by destruct (nonempty m).
  - cbn [fold_left]. rewrite IH. unfold add_pair, first_pair. cbn [List.find].
    destruct (decide (base_address pr = m)) as [Heq|Hne].
    + rewrite (bool_decide_eq_true_2 _ Heq). subst m.
      destruct (dex !! base_address pr) as [old|] eqn:Hold.
      * rewrite bool_decide_eq_true_2 by done. rewrite andb_false_r. by rewrite Hold.
      * rewrite bool_decide_eq_false_2 by (by intros [? ?]).
        rewrite andb_true_r. destruct (nonempty (base_address pr)).
        -- by rewrite lookup_insert_eq.
        -- by rewrite Hold.
    + rewrite (bool_decide_eq_false_2 _ Hne).
      destruct (nonempty (base_address pr) && _); [|done].
      by rewrite lookup_insert_ne.
Qed.


Lemma sort_desc_sorted_id {A K : Type} (key : A → K) (ltb : K → K → bool) (l : list A) :
  StronglySorted (not_below key ltb) l → sort_desc key ltb l = l.
Proof.
  induction 1 as [|x l Hl IH Hx]; [done|].
  cbn [sort_desc]. rewrite IH. destruct l as [|y l]; [done|].
  cbn [insert_desc]. apply List.Forall_inv in Hx. unfold not_below in Hx. by rewrite Hx.
Qed.

Lemma log_bind {A B} (m : Logged A) (f : A → Logged B) :
  log_of (m ≫= f) = log_of m ++ log_of (f (result_of m)).
Proof. reflexivity. Qed.

Lemma result_bind {A B} (m : Logged A) (f : A → Logged B) :
  result_of (m ≫= f) = result_of (f (result_of m)).
Proof. reflexivity. Qed.

Lemma enrich_value p toks :
  result_of (enrich_with_dexscreener p toks) =
  sort_desc market_cap Num.ltb
    (map (enrich_token (fold_left add_pair (answers p (chunks_of (map token_mint toks))) ∅)) toks).
Proof.
  unfold enrich_with_dexscreener. cbv zeta.
  by rewrite result_bind, fetch_chunks_result.
Qed.

Lemma enrich_log p toks :
  log_of (enrich_with_dexscreener p toks) =
  map ReqDexScreener (chunks_of (map token_mint toks)).
Proof.
  unfold enrich_with_dexscreener. cbv zeta.
  rewrite log_bind, fetch_chunks_log. apply app_nil_r.
Qed.

Lemma as_token_enrich dex t : as_token (enrich_token dex t) = t.
Proof. unfold enrich_token, as_token. destruct t. by destruct (dex !! _). Qed.

Lemma enrich_token_blank dex t :
  on_dex (enrich_token dex t) = false → blank (enrich_token dex t).
Proof. unfold enrich_token, blank. by destruct (dex !! _). Qed.

Lemma enrich_token_described answered t :
  described_by answered (enrich_token (fold_left add_pair answered ∅) t).
Proof.
  unfold described_by, enrich_token. rewrite fold_add_pair_lookup, lookup_empty.
  destruct (nonempty (token_mint t)) eqn:Hne.
  - destruct (first_pair (token_mint t) answered) eqn:Hfp; cbn; rewrite Hfp; [|done].
    by rewrite Hne.
  - cbn. destruct (first_pair (token_mint t) answered); [|done]. by rewrite Hne.
Qed.

(** X15: [enrich_with_dexscreener] asks DexScreener once per batch, whatever
    the earlier batches answered; the batches are consecutive slices of the
    mints, in order, each of 1 to 29 addresses. *)
Theorem dexscreener_batches (p : DevProvider) (toks : list TokenMint) :
  let chunks := chunks_of (map token_mint toks) in
  log_of (enrich_with_dexscreener p toks) = map ReqDexScreener chunks ∧
  concat chunks = map token_mint toks ∧
  Forall (fun chunk => (1 ≤ length chunk ≤ 29)%nat) chunks.
Proof.
  cbv zeta. split; [apply enrich_log|]. split; [apply chunks_of_concat|apply chunks_of_sizes].
Qed.

Lemma enrich_facts (p : DevProvider) (toks : list TokenMint) :
  Permutation (map as_token (result_of (enrich_with_dexscreener p toks))) toks ∧
  StronglySorted by_market_cap (result_of (enrich_with_dexscreener p toks)) ∧
  Forall (fun e => on_dex e = false → blank e) (result_of (enrich_with_dexscreener p toks)).
Proof.
  rewrite enrich_value.
  set (dex := fold_left add_pair _ ∅). split; [|split].
  - rewrite (Permutation_map as_token (sort_desc_perm market_cap Num.ltb _)).
    rewrite map_map. erewrite map_ext; [by rewrite map_id|].
    intros t. apply as_token_enrich.
  - eapply StronglySorted_impl; [|apply sort_desc_sorted; apply _].
    intros a b Hab. unfold not_below, Num.ltb in Hab. unfold by_market_cap.
    apply bool_decide_eq_false in Hab. by apply Qcnot_lt_le.
  - apply list.Forall_forall. intros e He.
    apply sort_desc_elem in He. apply list_elem_of_In, in_map_iff in He as (t & <- & _).
    apply enrich_token_blank.
Qed.


(** X17: a token is on DEX exactly when its mint is not empty and some
    answered batch holds a pair for it before any pair of that batch that
    cannot be read; its name, symbol and price are those of the first such
    pair over all the batches, not only its own. *)
Theorem first_pair_wins (p : DevProvider) (toks : list TokenMint) :
  Forall (described_by (answers p (chunks_of (map token_mint toks))))
         (result_of (enrich_with_dexscreener p toks)).
Proof.
  rewrite enrich_value. apply list.Forall_forall. intros e He.
  apply sort_desc_elem in He. apply list_elem_of_In, in_map_iff in He as (t & <- & _).
  apply enrich_token_described.
Qed.

(** A batch whose second pair cannot be read: the pair before it is
    stored, the pair after it is lost. *)
Example pairs_stored_until_unreadable :
  let p := {| account_info := account_info chain;
              signatures_for := signatures_for chain;
              transaction_keys := transaction_keys chain;
              created_by := created_by chain;
              all_by := all_by chain;
              dexscreener := fun _ => Reply 200 (BodyOf [Some pair_c; None; Some pair_a]) |} in
  answers p (chunks_of (map token_mint launches)) = [pair_c] ∧
  map (fun e => (e_mint e, on_dex e)) (result_of (enrich_with_dexscreener p launches)) =
    [("MintC", true); ("MintA", false); ("MintB", false)] ∧
  map (fun e => (e_mint e, on_dex e)) (result_of (enrich_with_dexscreener chain launches)) =
    [("MintA", true); ("MintC", true); ("MintB", false)].
Proof. vm_compute. repeat split; reflexivity. Qed.

Lemma enrich_token_empty_key t : market_cap (enrich_token ∅ t) = 0%Qc.
Proof. unfold enrich_token. by rewrite lookup_empty. Qed.

Lemma enrich_outage p toks :
  (∀ chunk, pairs_of_reply (dexscreener p chunk) = []) →
  result_of (enrich_with_dexscreener p toks) = map (enrich_token ∅) toks.
Proof.
  intros Hdown. rewrite enrich_value.
  assert (answers p (chunks_of (map token_mint toks)) = []) as ->.
  { unfold answers. induction (chunks_of _) as [|c l IH]; [done|].
    cbn [flat_map]. by rewrite Hdown, IH. }
  cbn [fold_left]. apply sort_desc_sorted_id.
  induction toks as [|t toks IH]; [constructor|].
  cbn [map]. constructor; [done|].
  apply list.Forall_forall. intros e He.
  apply list_elem_of_In, in_map_iff in He as (t' & <- & _).
  unfold not_below. by rewrite !enrich_token_empty_key.
Qed.


Lemma filter_split_length {A} (f : A → bool) (l : list A) :
  length l = (length (List.filter (fun x => negb (f x)) l) + length (List.filter f l))%nat.
Proof.
  induction l as [|x l IH]; [done|]. cbn. destruct (f x); cbn; lia.
Qed.

(** X18: in the report of [build_dev_report], [token_count] is the number
    of dead tokens plus the number of tokens on DEX, there are min(5,
    token_count) token lines, there is no biggest launch exactly when every
    token is dead, and a biggest launch is a token of the list that is on
    DEX, with [biggest_mc] its market cap. *)
Theorem dev_report_counts (dev ca : string) (toks : list Enriched) :
  let r := build_dev_report dev ca toks in
  token_count r = (dead_count r + length (List.filter on_dex toks))%nat ∧
  length (token_lines r) = Nat.min 5 (token_count r) ∧
  (biggest_launch r = None ↔ dead_count r = token_count r) ∧
  (∀ t, biggest_launch r = Some t → t ∈ toks ∧ on_dex t = true ∧ biggest_mc r = market_cap t).
Proof.
  cbv zeta. unfold build_dev_report. cbn.
  pose proof (filter_split_length on_dex toks) as Hsplit.
  split; [done|]. split; [by rewrite length_imap, length_take|]. split.
  - destruct (List.filter on_dex toks) as [|t live] eqn:Hlive; cbn in *.
    + split; [lia|done].
    + split; [done|lia].
  - intros t Ht. destruct (List.filter on_dex toks) as [|t' live] eqn:Hlive; [done|].
    cbn in Ht. injection Ht as ->.
    assert (In t (List.filter on_dex toks)) as Hin by (rewrite Hlive; by left).
    apply filter_In in Hin as [Hin Hon]. split; [by apply list_elem_of_In|]. by split.
Qed.

Lemma head_filter_sorted (toks : list Enriched) :
  StronglySorted by_market_cap toks →
  match head (List.filter on_dex toks) with
  | Some b => Forall (fun t => on_dex t = true → (market_cap t <= market_cap b)%Qc) toks
  | None => Forall (fun t => on_dex t = true → (market_cap t <= 0)%Qc) toks
  end.
Proof.
  induction 1 as [|x l Hl IH Hx]; [by constructor|].
  cbn [List.filter]. destruct (on_dex x) eqn:Hon.
  - cbn [head]. constructor; [intros _; apply Qcle_refl|].
    eapply list.Forall_impl; [exact Hx|]. intros t Ht _. exact Ht.
  - destruct (head (List.filter on_dex l)); (constructor; [by rewrite Hon|done]).
Qed.

Lemma build_dev_report_tops (dev ca : string) (toks : list Enriched) :
  StronglySorted by_market_cap toks → tops (build_dev_report dev ca toks).
Proof.
  intros Hs. unfold tops, build_dev_report. cbn.
  pose proof (head_filter_sorted toks Hs) as H.
  by destruct (head (List.filter on_dex toks)).
Qed.

(** X19: when the tokens come ordered by market cap from the largest down,
    as [enrich_with_dexscreener] returns them, no token on DEX has a larger
    market cap than [biggest_mc]. *)
Theorem biggest_launch_is_largest (dev ca : string) (toks : list Enriched) :
  StronglySorted by_market_cap toks → tops (build_dev_report dev ca toks).
Proof.
  intros Hs. unfold tops, build_dev_report. cbn.
  pose proof (head_filter_sorted toks Hs) as H.
  by destruct (head (List.filter on_dex toks)).
Qed.

Lemma biggest_launch_is_largest_witness :
  StronglySorted by_market_cap enriched ∧ tops (build_dev_report dev_wallet ca enriched).
Proof.
  assert (StronglySorted by_market_cap enriched) as H.
  { let l := eval vm_compute in enriched in change enriched with l.
    repeat first [apply SSorted_nil | apply SSorted_cons | apply List.Forall_nil
                 | apply List.Forall_cons | (unfold by_market_cap; by_compute)]. }
  split; [exact H|]. exact (biggest_launch_is_largest dev_wallet ca enriched H).
Defined.

Lemma risk_no_history dev ca toks :
  risk (build_dev_report dev ca toks) = NO_HISTORY → toks = [].
Proof.
  unfold build_dev_report. cbn.
  destruct toks as [|t toks]; [done|]. cbn [length].
  rewrite bool_decide_eq_false_2 by done.
  repeat (match goal with |- context [if ?b then _ else _] => destruct b end); cbn;
    intros H; by vm_compute in H.
Qed.


Lemma enrich_token_off_dex t : on_dex (enrich_token ∅ t) = false.
Proof. unfold enrich_token. by rewrite lookup_empty. Qed.

Lemma filter_on_dex_blank toks :
  List.filter on_dex (map (enrich_token ∅) toks) = [].
Proof.
  induction toks as [|t toks IH]; [done|].
  cbn [map List.filter]. by rewrite enrich_token_off_dex.
Qed.

Lemma filter_off_dex_blank toks :
  length (List.filter (fun t => negb (on_dex t)) (map (enrich_token ∅) toks)) = length toks.
Proof.
  induction toks as [|t toks IH]; [done|].
  cbn [map List.filter]. rewrite enrich_token_off_dex. cbn [negb length]. by rewrite IH.
Qed.

(** X20: when no DexScreener batch is answered and more than two tokens were
    found, the report rates the deployer a serial launcher: every token is
    counted dead, in the order of discovery, and there is no biggest
    launch. *)
Theorem outage_reads_as_serial_launcher (p : DevProvider) (dev ca : string)
    (toks : list TokenMint) :
  (∀ chunk, pairs_of_reply (dexscreener p chunk) = []) →
  (2 < length toks)%nat →
  let r := build_dev_report dev ca (result_of (enrich_with_dexscreener p toks)) in
  risk r = SERIAL_LAUNCHER ∧ dead_count r = length toks ∧ biggest_launch r = None ∧
  tokens r = map (enrich_token ∅) toks.
Proof.
  intros Hdown Hmany. cbv zeta. rewrite (enrich_outage p toks Hdown).
  unfold build_dev_report. cbn.
  rewrite filter_on_dex_blank, filter_off_dex_blank, length_map. cbn.
  rewrite bool_decide_eq_false_2 by lia.
  rewrite (bool_decide_eq_true_2 (0 < length toks)%nat) by lia.
  rewrite (bool_decide_eq_true_2 (2 < length toks)%nat) by lia. done.
Qed.

Lemma outage_reads_as_serial_launcher_witness :
  (∀ chunk, pairs_of_reply (dexscreener chain_dex_down chunk) = []) ∧
  (2 < length launches)%nat ∧
  (let r := build_dev_report dev_wallet ca
              (result_of (enrich_with_dexscreener chain_dex_down launches)) in
   risk r = SERIAL_LAUNCHER ∧ dead_count r = length launches ∧ biggest_launch r = None ∧
   tokens r = map (enrich_token ∅) launches).
Proof.
  assert (∀ chunk, pairs_of_reply (dexscreener chain_dex_down chunk) = []) as H1
    by (intros chunk; reflexivity).
  assert (2 < length launches)%nat as H2 by (vm_compute; lia).
  split; [exact H1|]. split; [exact H2|].
  exact (outage_reads_as_serial_launcher chain_dex_down dev_wallet ca launches H1 H2).
Defined.


Lemma fee_payer_first_match keys d :
  fee_payer keys = Some d →
  ∃ before key after, keys = before ++ key :: after ∧
    Forall passed_over before ∧ names_payer d key.
Proof.
  induction keys as [|k keys IH]; [done|]. cbn [fee_payer].
  destruct k as [signer writable pubkey|s|].
  - destruct (signer && writable) eqn:Hsw.
    + intros ->. exists [], (KeyObject signer writable (Some d)), keys.
      split; [done|]. split; [constructor|]. right.
      apply andb_true_iff in Hsw as [-> ->]. done.
    + intros H. destruct (IH H) as (before & key & after & -> & Hb & Hk).
      exists (KeyObject signer writable pubkey :: before), key, after.
      split; [done|]. split; [|done]. by constructor.
  - intros [= ->]. exists [], (KeyString d), keys. split; [done|].
    split; [constructor|]. by left.
  - intros H. destruct (IH H) as (before & key & after & -> & Hb & Hk).
    exists (KeyOther :: before), key, after. split; [done|]. split; [|done]. by constructor.
Qed.

Lemma deployer_from_history_cases p ca :
  deployer_from_history p ca = (None, [ReqSignatures ca]) ∨
  ∃ sig, (∃ signatures, signatures_for p ca = RpcValue signatures ∧
                        list.last signatures = Some (Some sig)) ∧ sig ≠ "" ∧
    ((deployer_from_history p ca = (None, [ReqSignatures ca; ReqTransaction sig]) ∧
      transaction_keys p sig = RpcFailed) ∨
     ∃ keys, transaction_keys p sig = RpcValue keys ∧
       deployer_from_history p ca = (fee_payer keys, [ReqSignatures ca; ReqTransaction sig])).
Proof.
  unfold deployer_from_history.
  destruct (signatures_for p ca) as [|signatures]; [by left|].
  destruct (list.last signatures) as [[sig|]|] eqn:Hlast; [|by left|by left].
  destruct sig as [|c sig]; [by left|]. right. exists (String c sig).
  split; [by exists signatures|]. split; [done|]. cbn [nonempty].
  destruct (transaction_keys p (String c sig)) as [|keys]; [by left|].
  right. by exists keys.
Qed.


Lemma get_deployer_cases p ca :
  get_deployer p ca = (None, [ReqAccountInfo ca]) ∨
  (∃ d, account_info p ca = RpcValue (Some d) ∧ d ≠ "" ∧ d ≠ "null" ∧
        get_deployer p ca = (Some d, [ReqAccountInfo ca])) ∨
  get_deployer p ca =
    (result_of (deployer_from_history p ca),
     ReqAccountInfo ca :: log_of (deployer_from_history p ca)).
Proof.
  unfold get_deployer.
  destruct (account_info p ca) as [|[ma|]]; [by left| |by right; right].
  destruct ma as [|c ma]; [by right; right|]. cbn [nonempty andb].
  case_bool_decide as Hnull; cbn [negb]; [by right; right|].
  right. left. by exists (String c ma).
Qed.

(** X21: a deployer returned by [get_deployer] is either the mint authority
    of the token (not empty, not the string null), found with one request,
    or it is named by the first account key that is a plain string or a
    writable signer, every key before it being neither, in the transaction
    of the signature listed last (the oldest) by the signatures request;
    this takes exactly three requests. *)
Theorem deployer_provenance (p : DevProvider) (ca d : string) :
  result_of (get_deployer p ca) = Some d →
  (account_info p ca = RpcValue (Some d) ∧ d ≠ "" ∧ d ≠ "null" ∧
   log_of (get_deployer p ca) = [ReqAccountInfo ca]) ∨
  (∃ signatures sig keys before key after,
     signatures_for p ca = RpcValue signatures ∧
     list.last signatures = Some (Some sig) ∧
     log_of (get_deployer p ca) = [ReqAccountInfo ca; ReqSignatures ca; ReqTransaction sig] ∧
     sig ≠ "" ∧
     transaction_keys p sig = RpcValue keys ∧
     keys = before ++ key :: after ∧ Forall passed_over before ∧ names_payer d key).
Proof.
  intros Hd.
  destruct (get_deployer_cases p ca) as [Hg|[(d' & Hinfo & Hne & Hnull & Hg)|Hg]];
    rewrite Hg in Hd |- *; unfold result_of, log_of in *; cbn [fst snd] in *.
  - done.
  - injection Hd as ->. by left.
  - right.
    destruct (deployer_from_history_cases p ca)
      as [Hh|(sig & (signatures & Hsigs & Hlast) & Hsig & [[Hh _]|(keys & Hkeys & Hh)])];
      rewrite Hh in Hd |- *; cbn [fst snd] in *; try done.
    destruct (fee_payer_first_match keys d Hd) as (before & key & after & Hk & Hb & Hn).
    by exists signatures, sig, keys, before, key, after.
Qed.

Lemma deployer_provenance_witness :
  result_of (get_deployer chain ca) = Some dev_wallet ∧
  ((account_info chain ca = RpcValue (Some dev_wallet) ∧ dev_wallet ≠ "" ∧
    dev_wallet ≠ "null" ∧ log_of (get_deployer chain ca) = [ReqAccountInfo ca]) ∨
   (∃ signatures sig keys before key after,
      signatures_for chain ca = RpcValue signatures ∧
      list.last signatures = Some (Some sig) ∧
      log_of (get_deployer chain ca) =
        [ReqAccountInfo ca; ReqSignatures ca; ReqTransaction sig] ∧
      sig ≠ "" ∧
      transaction_keys chain sig = RpcValue keys ∧
      keys = before ++ key :: after ∧ Forall passed_over before ∧ names_payer dev_wallet key)).
Proof.
  assert (result_of (get_deployer chain ca) = Some dev_wallet) as H by reflexivity.
  split; [exact H|]. exact (deployer_provenance chain ca dev_wallet H).
Defined.


Lemma get_deployer_log p ca :
  (1 ≤ length (log_of (get_deployer p ca)) ≤ 3)%nat ∧
  List.filter is_dex_request (log_of (get_deployer p ca)) = [].
Proof.
  destruct (get_deployer_cases p ca) as [Hg|[(d' & _ & _ & _ & Hg)|Hg]];
    rewrite Hg; unfold log_of; cbn [snd]; [cbn; split; [lia|done]|cbn; split; [lia|done]|].
  destruct (deployer_from_history_cases p ca)
    as [Hh|(sig & _ & _ & [[Hh _]|(keys & _ & Hh)])]; rewrite Hh; cbn [fst snd length List.filter is_dex_request]; (split; [lia|done]).
Qed.

Lemma get_deployed_tokens_no_dex p now dev :
  List.filter is_dex_request (log_of (get_deployed_tokens p now dev)) = [].
Proof. by destruct (get_deployed_tokens_log p now dev) as [-> | ->]. Qed.

Lemma chunks_of_few (l : list string) :
  (length l ≤ 29)%nat → (length (chunks_of l) ≤ 1)%nat.
Proof.
  intros Hl. destruct l as [|x l]; [cbn; lia|].
  rewrite chunks_of_short; [cbn; lia|done|done].
Qed.

Lemma filter_dex_requests chunks :
  List.filter is_dex_request (map ReqDexScreener chunks) = map ReqDexScreener chunks.
Proof. induction chunks as [|c chunks IH]; [done|]. cbn. by rewrite IH. Qed.

(** X22: [get_dev_alpha] issues between one and six requests, at most one
    of them to DexScreener, and that one names between 1 and 20 pairwise
    distinct mints. *)
Theorem dev_alpha_request_budget (p : DevProvider) (now : Qc) (ca : string) :
  let log := log_of (get_dev_alpha p now ca) in
  (1 ≤ length log ≤ 6)%nat ∧
  (length (List.filter is_dex_request log) ≤ 1)%nat ∧
  Forall (fun r => ∀ chunk, r = ReqDexScreener chunk →
            (1 ≤ length chunk ≤ 20)%nat ∧ NoDup chunk) log.
Proof.
  cbv zeta. unfold get_dev_alpha. rewrite log_bind.
  destruct (get_deployer_log p ca) as [Hlen Hnodex].
  assert (Forall (fun r => ∀ chunk, r = ReqDexScreener chunk →
            (1 ≤ length chunk ≤ 20)%nat ∧ NoDup chunk) (log_of (get_deployer p ca))) as Hd.
  { apply list.Forall_forall. intros r Hr chunk ->.
    assert (In (ReqDexScreener chunk) (List.filter is_dex_request (log_of (get_deployer p ca)))) as Hin.
    { apply filter_In. split; [by apply list_elem_of_In|done]. }
    by rewrite Hnodex in Hin. }
  destruct (result_of (get_deployer p ca)) as [dev|].
  2: { change (log_of (mret _)) with (@nil DevRequest). rewrite app_nil_r.
       split; [lia|]. split; [rewrite Hnodex; cbn; lia|done]. }
  destruct (nonempty dev).
  2: { change (log_of (mret _)) with (@nil DevRequest). rewrite app_nil_r.
       split; [lia|]. split; [rewrite Hnodex; cbn; lia|done]. }
  rewrite log_bind.
  pose proof (get_deployed_tokens_no_dex p now dev) as Hnodex2.
  pose proof (get_deployed_tokens_facts p now dev) as (Hcap & Hnd & _ & Hlog).
  assert (Forall (fun r => ∀ chunk, r = ReqDexScreener chunk →
            (1 ≤ length chunk ≤ 20)%nat ∧ NoDup chunk) (log_of (get_deployed_tokens p now dev))) as Hd2.
  { apply list.Forall_forall. intros r Hr chunk ->.
    assert (In (ReqDexScreener chunk)
              (List.filter is_dex_request (log_of (get_deployed_tokens p now dev)))) as Hin.
    { apply filter_In. split; [by apply list_elem_of_In|done]. }
    by rewrite Hnodex2 in Hin. }
  destruct (result_of (get_deployed_tokens p now dev)) as [|t toks] eqn:Htoks.
  { change (log_of (mret _)) with (@nil DevRequest). rewrite app_nil_r.
    rewrite filter_app, Hnodex, Hnodex2, length_app.
    split; [lia|]. split; [cbn; lia|]. by apply Forall_app. }
  rewrite log_bind, enrich_log.
  change (log_of (mret _)) with (@nil DevRequest). rewrite app_nil_r.
  rewrite !filter_app, Hnodex, Hnodex2, filter_dex_requests, !length_app, !length_map.
  assert (length (map token_mint (t :: toks)) ≤ 29)%nat as Hfew by (rewrite length_map; lia).
  pose proof (chunks_of_few _ Hfew) as Hone.
  split; [lia|]. split; [cbn [length]; lia|].
  apply Forall_app. split; [done|]. apply Forall_app. split; [done|].
  rewrite chunks_of_short by done. cbn [map]. apply list.Forall_singleton.
  intros chunk [= <-]. split; [|exact Hnd].
  cbn [length] in *. rewrite length_map. lia.
Qed.


Lemma map_e_mint l : map e_mint l = map token_mint (map as_token l).
Proof. by rewrite map_map. Qed.

Lemma map_e_timestamp l : map e_timestamp l = map token_timestamp (map as_token l).
Proof. by rewrite map_map. Qed.




End DevAlpha.

(* ===================================================================== *)
(** * The risk scan *)
(* ===================================================================== *)

(** Inequalities over [Qc], read over [Q]. *)
Ltac qc_to_q :=
  unfold Qcle, Qclt, Qcplus, Qcmult, Qcminus, Qcopp, Num.of_Z, Q2Qc in *;
  cbn [this] in *; rewrite ?Qred_correct in *.
Ltac qc_lra := qc_to_q; unfold inject_Z in *; lra.

Section RiskScan.
Import Risk RiskSpec.
Import RiskFixture (offline).

Lemma slot_map_of_snoc txs tx :
  slot_map_of (txs ++ [tx]) = append_to (slot tx) (feePayer tx) (slot_map_of txs).
Proof. unfold slot_map_of. by rewrite fold_left_app. Qed.

Lemma append_to_keys s fp m :
  map fst (append_to s fp m) =
  if bool_decide (s ∈ map fst m) then map fst m else map fst m ++ [s].
Proof.
  induction m as [|[s' ws] m IH]; [done|]. cbn [append_to].
  destruct (decide (s' = s)) as [->|Hne]; cbn [map fst].
  - rewrite bool_decide_eq_true_2; [done|]. apply elem_of_cons. by left.
  - rewrite IH. destruct (decide (s ∈ map fst m)) as [Hin|Hout].
    + rewrite !bool_decide_eq_true_2; [done| |done]. apply elem_of_cons. by right.
    + rewrite !bool_decide_eq_false_2; [done| |done].
      intros [?|?]%elem_of_cons; congruence.
Qed.

Lemma list_sum_cons (x : nat) (l : list nat) : list_sum (x :: l) = (x + list_sum l)%nat.
Proof. reflexivity. Qed.

Lemma append_to_lengths s fp m :
  list_sum (map (fun e => length (snd e)) (append_to s fp m)) =
  S (list_sum (map (fun e => length (snd e)) m)).
Proof.
  induction m as [|[s' ws] m IH]; [done|]. cbn [append_to].
  destruct (decide (s' = s)) as [->|Hne]; cbn [map snd]; rewrite !list_sum_cons.
  - rewrite length_app. cbn [length]. lia.
  - rewrite IH. lia.
Qed.

Lemma slot_map_lengths txs :
  list_sum (map (fun e => length (snd e)) (slot_map_of txs)) = length txs.
Proof.
  induction txs as [|tx txs IH] using rev_ind; [done|].
  rewrite slot_map_of_snoc, append_to_lengths, IH, length_app. cbn. lia.
Qed.

Lemma count_bound {A} (f : A → bool) (size : A → nat) (k : nat) (l : list A) :
  (∀ x, f x = true → k ≤ size x)%nat →
  (k * length (List.filter f l) ≤ list_sum (map size l))%nat.
Proof.
  intros Hf. induction l as [|x l IH]; [cbn; lia|].
  cbn [List.filter map]. rewrite list_sum_cons. destruct (f x) eqn:Hx; cbn [length].
  - specialize (Hf x Hx). lia.
  - lia.
Qed.

Lemma is_sandwich_length ws : is_sandwich ws = true → (3 ≤ length ws)%nat.
Proof. unfold is_sandwich. intros [H _]%andb_true_iff. by apply bool_decide_eq_true in H. Qed.

Lemma sandwich_bound txs :
  (3 * length (List.filter is_sandwich (map snd (slot_map_of txs))) ≤ length txs)%nat.
Proof.
  rewrite <- (slot_map_lengths txs).
  pose proof (count_bound is_sandwich (@length string) 3 (map snd (slot_map_of txs))
                is_sandwich_length) as H.
  by rewrite map_map in H.
Qed.

Lemma counter_grouped items :
  counter items = Dict.grouped id (fun _ n => S n) 0%nat items.
Proof.
  unfold counter.
  exact (DictFacts.fold_update_grouped id (fun _ n => S n) 0%nat items).
Qed.

Lemma fold_S {A} (l : list A) (n : nat) :
  fold_left (fun v _ => S v) l n = (n + length l)%nat.
Proof. revert n. induction l as [|x l IH]; intros n; cbn; [lia|]. rewrite IH. lia. Qed.

Lemma counter_values items :
  map snd (counter items) =
  map (fun w => length (List.filter (fun x => bool_decide (x = w)) items))
      (first_seen items).
Proof.
  rewrite counter_grouped. unfold Dict.grouped. rewrite map_map, map_id. cbn [snd].
  apply map_ext. intros w. by rewrite fold_S.
Qed.

Lemma filter_map_length {A B} (f : A → B) (g : B → bool) (l : list A) :
  length (List.filter g (map f l)) = length (List.filter (fun x => g (f x)) l).
Proof. induction l as [|x l IH]; [done|]. cbn. destruct (g (f x)); cbn; by rewrite IH. Qed.

Lemma paid_by_payers w txs :
  length (List.filter (fun x => bool_decide (x = w)) (map feePayer txs)) = paid_by w txs.
Proof. unfold paid_by. by rewrite filter_map_length. Qed.

Lemma bots_spec txs :
  length (List.filter (fun cnt => (5 <=? cnt)%nat) (map snd (counter (map feePayer txs)))) =
  length (List.filter (fun w => (5 <=? paid_by w txs)%nat) (first_seen (map feePayer txs))).
Proof.
  rewrite counter_values, filter_map_length. f_equal.
  apply filter_ext. intros w. by rewrite paid_by_payers.
Qed.


Lemma update_sum k (d : Dict.t nat) :
  list_sum (map snd (Dict.update 0%nat S k d)) = S (list_sum (map snd d)).
Proof.
  unfold Dict.update, Dict.get_or.
  induction d as [|[k' v] d IH]; [done|].
  cbn [Dict.get Dict.set]. destruct (decide (k' = k)) as [->|Hne].
  - cbn. lia.
  - cbn [map snd]. rewrite !list_sum_cons, IH. lia.
Qed.

Lemma counter_sum items : list_sum (map snd (counter items)) = length items.
Proof.
  unfold counter. induction items as [|x items IH] using rev_ind; [done|].
  rewrite fold_left_app. cbn [fold_left]. rewrite update_sum, IH, length_app. cbn. lia.
Qed.

Lemma bots_bound txs :
  (5 * length (List.filter (fun cnt => (5 <=? cnt)%nat)
                 (map snd (counter (map feePayer txs)))) ≤ length txs)%nat.
Proof.
  rewrite <- (length_map feePayer txs), <- counter_sum.
  pose proof (count_bound (fun cnt => (5 <=? cnt)%nat) id 5
                (map snd (counter (map feePayer txs)))) as H.
  rewrite map_id in H. apply H. intros x Hx. apply Nat.leb_le in Hx. done.
Qed.

Lemma payers_in_snoc s txs tx :
  payers_in s (txs ++ [tx]) =
  if bool_decide (slot tx = s) then payers_in s txs ++ [feePayer tx] else payers_in s txs.
Proof.
  unfold payers_in. rewrite List.filter_app, map_app. cbn [List.filter].
  case_bool_decide; cbn [map]; [done|]. by rewrite app_nil_r.
Qed.

Lemma append_to_payers txs tx m :
  NoDup (map fst m) →
  Forall (fun e => snd e = payers_in (fst e) txs) m →
  (slot tx ∉ map fst m → payers_in (slot tx) txs = []) →
  Forall (fun e => snd e = payers_in (fst e) (txs ++ [tx]))
         (append_to (slot tx) (feePayer tx) m).
Proof.
  intros Hnd Hall Hnew. induction m as [|[s' ws] m IH]; cbn [append_to].
  - apply list.Forall_singleton. cbn [fst snd].
    rewrite payers_in_snoc, bool_decide_eq_true_2 by done.
    rewrite Hnew; [done|]. intros H. by apply elem_of_nil in H.
  - cbn [map fst] in Hnd. apply list.NoDup_cons in Hnd as [Hout Hnd].
    apply list.Forall_cons in Hall as [Hhd Hall]. cbn [fst snd] in Hhd.
    destruct (decide (s' = slot tx)) as [->|Hne].
    + apply list.Forall_cons. split.
      * cbn [fst snd]. rewrite payers_in_snoc, bool_decide_eq_true_2 by done. by rewrite Hhd.
      * apply list.Forall_forall. intros e He.
        rewrite list.Forall_forall in Hall. rewrite (Hall e He).
        rewrite payers_in_snoc, bool_decide_eq_false_2; [done|].
        intros Heq. apply Hout. rewrite Heq.
        apply list_elem_of_In, in_map. by apply list_elem_of_In.
    + apply list.Forall_cons. split.
      * cbn [fst snd]. rewrite payers_in_snoc, bool_decide_eq_false_2 by done. done.
      * apply IH; [done|done|]. intros Hout'. apply Hnew.
        cbn [map fst]. intros [?|?]%elem_of_cons; [congruence|done].
Qed.

Lemma payers_in_absent s txs : s ∉ map slot txs → payers_in s txs = [].
Proof.
  intros Hs. unfold payers_in. rewrite filter_none; [done|].
  intros tx Htx. apply bool_decide_eq_false. intros Heq. apply Hs. rewrite <- Heq.
  apply list_elem_of_In, in_map. done.
Qed.

Lemma slot_map_spec txs :
  NoDup (map fst (slot_map_of txs)) ∧
  (∀ s, s ∈ map fst (slot_map_of txs) ↔ s ∈ map slot txs) ∧
  Forall (fun e => snd e = payers_in (fst e) txs) (slot_map_of txs).
Proof.
  induction txs as [|tx txs (Hnd & Hkeys & Hall)] using rev_ind.
  - split; [apply NoDup_nil_2|]. split; [done|]. apply list.Forall_nil_2.
  - rewrite slot_map_of_snoc. split; [|split].
    + rewrite append_to_keys. case_bool_decide as Hin; [done|].
      apply list.NoDup_app. split; [done|]. split; [|apply NoDup_singleton].
      intros s Hs Hs'. apply list_elem_of_singleton in Hs'. by subst s.
    + intros s. rewrite append_to_keys, map_app, elem_of_app. cbn [map].
      rewrite list_elem_of_singleton, <- Hkeys.
      case_bool_decide as Hin.
      * split; [by left|]. intros [?| ->]; done.
      * by rewrite elem_of_app, list_elem_of_singleton.
    + apply append_to_payers; [done|done|].
      intros Hout. apply payers_in_absent. by rewrite <- Hkeys.
Qed.

Lemma filter_length_perm {A} (f : A → bool) (l k : list A) :
  Permutation l k → length (List.filter f l) = length (List.filter f k).
Proof.
  induction 1 as [|x l k _ IH|x y l|l k m _ IH1 _ IH2]; cbn.
  - done.
  - destruct (f x); cbn; by rewrite IH.
  - destruct (f x), (f y); done.
  - by rewrite IH1.
Qed.

Lemma sandwiches_spec txs :
  length (List.filter is_sandwich (map snd (slot_map_of txs))) =
  length (List.filter (fun s => is_sandwich (payers_in s txs)) (remove_dups (map slot txs))).
Proof.
  destruct (slot_map_spec txs) as (Hnd & Hkeys & Hall).
  assert (map snd (slot_map_of txs) =
          map (fun s => payers_in s txs) (map fst (slot_map_of txs))) as ->.
  { rewrite map_map. apply map_ext_in. intros e He%list_elem_of_In.
    rewrite list.Forall_forall in Hall. by apply Hall. }
  rewrite filter_map_length. apply filter_length_perm.
  apply NoDup_Permutation; [done|apply NoDup_remove_dups|].
  intros s. by rewrite Hkeys, elem_of_remove_dups.
Qed.

Lemma bots_distinct txs :
  length (List.filter (fun cnt => (5 <=? cnt)%nat) (map snd (counter (map feePayer txs)))) =
  length (List.filter (fun w => (5 <=? paid_by w txs)%nat) (remove_dups (map feePayer txs))).
Proof.
  rewrite bots_spec. apply filter_length_perm.
  apply NoDup_Permutation; [apply NoDup_first_seen|apply NoDup_remove_dups|].
  intros w. by rewrite elem_of_first_seen, elem_of_remove_dups.
Qed.

(** X24: [scan_mev] returns its defaults, or counts read off a list of
    transactions answered with status 200: as sandwiches the distinct slots
    whose fee payers, in order, are three or more with the same non-empty
    payer first and last, and as bots the distinct fee payers, the empty one
    included, of five transactions or more; three times the sandwiches and
    five times the bots are at most the number of transactions. *)
Theorem scan_mev_counts (p : ScanProvider) (ca : string) :
  scan_mev p ca = _mev_defaults ∨
  ∃ txs : list ChainTx,
    let sandwiches :=
      length (List.filter (fun s => is_sandwich (payers_in s txs))
                          (remove_dups (map slot txs))) in
    let bots :=
      length (List.filter (fun w => (5 <=? paid_by w txs)%nat)
                          (remove_dups (map feePayer txs))) in
    history p ca = Dev.Reply 200 (Dev.BodyOf txs) ∧
    counts (sandwich_count (scan_mev p ca)) sandwiches ∧
    counts (mev_bots (scan_mev p ca)) bots ∧
    (3 * sandwiches ≤ length txs)%nat ∧ (5 * bots ≤ length txs)%nat.
Proof.
  unfold scan_mev. destruct (history p ca) as [|status body]; [by left|].
  case_bool_decide as Hs; [by left|].
  assert (status = 200) as -> by (destruct (decide (status = 200)); done).
  destruct body as [| |txs]; [by left..|]. right.
  exists txs. cbv zeta. split; [done|].
  unfold counts, mev_stats. cbn [sandwich_count mev_bots].
  rewrite <- sandwiches_spec, <- bots_distinct.
  split; [done|]. split; [done|]. split; [apply sandwich_bound|apply bots_bound].
Qed.



Lemma py_int_ge (lo : Z) (x : Qc) : 0 ≤ lo → (Num.of_Z lo <= x)%Qc → lo ≤ py_int x.
Proof.
  intros Hlo H. qc_to_q. unfold py_int. destruct x as [[n d] Hc]. cbn [this Qnum Qden] in *.
  unfold Qle in H. cbn in H.
  assert (0 ≤ n) by nia.
  rewrite Z.quot_div_nonneg by lia. apply Z.div_le_lower_bound; lia.
Qed.

Lemma py_int_lt (hi : Z) (x : Qc) : (0 <= x)%Qc → (x < Num.of_Z hi)%Qc → py_int x < hi.
Proof.
  intros H0 H. qc_to_q. unfold py_int. destruct x as [[n d] Hc]. cbn [this Qnum Qden] in *.
  unfold Qle, Qlt in *. cbn in *.
  rewrite Z.quot_div_nonneg by lia. apply Z.div_lt_upper_bound; lia.
Qed.

Lemma py_int_le (hi : Z) (x : Qc) : (0 <= x)%Qc → (x <= Num.of_Z hi)%Qc → py_int x ≤ hi.
Proof.
  intros H0 H. assert (py_int x < hi + 1); [|lia].
  apply py_int_lt; [done|]. eapply Qcle_lt_trans; [exact H|]. apply of_Z_lt. lia.
Qed.

Lemma py_min_le_r a b : (py_min a b <= b)%Qc.
Proof.
  unfold py_min, Num.ltb. case_bool_decide as H; [apply Qcle_refl|]. by apply Qcnot_lt_le.
Qed.

Lemma py_min_le_l a b : (py_min a b <= a)%Qc.
Proof.
  unfold py_min, Num.ltb. case_bool_decide as H; [by apply Qclt_le_weak|apply Qcle_refl].
Qed.

Lemma py_min_ge c a b : (c <= a)%Qc → (c <= b)%Qc → (c <= py_min a b)%Qc.
Proof. unfold py_min. by destruct (Num.ltb b a). Qed.

Lemma scale_between (x : Qc) (k : Z) :
  0 ≤ k → (0 <= x)%Qc → (x <= 1)%Qc →
  (Num.of_Z 0 <= x * Num.of_Z k)%Qc ∧ (x * Num.of_Z k <= Num.of_Z k)%Qc.
Proof.
  intros Hk H0 H1. qc_to_q.
  assert (inject_Z 0 <= inject_Z k)%Q as Hk' by (by rewrite <- Zle_Qle).
  change (this 0%Qc) with 0%Q in *. change (this 1%Qc) with 1%Q in *.
  change (inject_Z 0) with 0%Q in *. split; nra.
Qed.

Lemma percent_between part whole :
  (part ≤ whole)%nat →
  (Num.of_Z 0 <= percent part whole)%Qc ∧ (percent part whole <= Num.of_Z 100)%Qc.
Proof.
  intros Hle. unfold percent.
  assert (part ≤ py_max whole 1 ∧ 0 < py_max whole 1)%nat as [H1 H2].
  { unfold py_max. destruct (whole <? 1)%nat eqn:Hw.
    - apply Nat.ltb_lt in Hw. lia.
    - apply Nat.ltb_ge in Hw. lia. }
  destruct (ratio_between _ _ H1 H2) as [Hlo Hhi].
  by apply scale_between.
Qed.

Lemma wallet_step_subset cutoff st tx :
  recent_wallets st ⊆ all_wallets st →
  recent_wallets (wallet_step cutoff st tx) ⊆ all_wallets (wallet_step cutoff st tx).
Proof.
  intros Hsub. unfold wallet_step. cbv zeta.
  destruct (nonempty (feePayer tx)); [|done]. cbn [recent_wallets all_wallets].
  destruct (Num.ltb _ _).
  - by apply union_mono_l.
  - etransitivity; [exact Hsub|]. apply union_subseteq_r.
Qed.

Lemma wallet_loop_subset cutoff txs st :
  recent_wallets st ⊆ all_wallets st →
  recent_wallets (fold_left (wallet_step cutoff) txs st) ⊆
  all_wallets (fold_left (wallet_step cutoff) txs st).
Proof.
  revert st. induction txs as [|tx txs IH]; intros st Hsub; [done|].
  cbn [fold_left]. by apply IH, wallet_step_subset.
Qed.

Lemma wallet_stats_bounds now accounts txs :
  within 0 100 (cluster_pct (wallet_stats now accounts txs)) ∧
  within 0 100 (fresh_wallet_pct (wallet_stats now accounts txs)) ∧
  counts (wallet_count (wallet_stats now accounts txs)) (length accounts).
Proof.
  unfold wallet_stats. cbv zeta. cbn [cluster_pct fresh_wallet_pct wallet_count].
  set (st := fold_left _ txs _).
  assert (recent_wallets st ⊆ all_wallets st) as Hsub.
  { apply wallet_loop_subset. cbn [recent_wallets all_wallets]. done. }
  split; [|split; [|done]].
  - eexists. split; [reflexivity|]. apply round_between.
    + apply py_min_ge; [|by apply of_Z_le].
      apply percent_between. rewrite <- (length_map snd (wallet_slots st)).
      apply length_filter_le.
    + apply py_min_le_r.
  - eexists. split; [reflexivity|]. apply round_between; apply percent_between;
      by apply subseteq_size.
Qed.

Lemma wallet_stats_shape now accounts txs :
  accounts ≠ [] →
  within 0 100 (cluster_pct (wallet_stats now accounts txs)) ∧
  within 0 100 (fresh_wallet_pct (wallet_stats now accounts txs)) ∧
  ∃ n, (1 ≤ n)%nat ∧ counts (wallet_count (wallet_stats now accounts txs)) n.
Proof.
  intros Hne. destruct (wallet_stats_bounds now accounts txs) as (H1 & H2 & H3).
  split; [done|]. split; [done|]. exists (length accounts).
  split; [|done]. destruct accounts; [done|]. cbn [length]. lia.
Qed.

(** X26: [scan_wallets] returns its defaults, or a wallet count of at least
    one with a cluster percentage and a fresh-wallet percentage that both
    lie between 0 and 100. *)
Theorem scan_wallets_percentages (p : ScanProvider) (now : Qc) (ca : string) :
  scan_wallets p now ca = _wallet_defaults ∨
  (within 0 100 (cluster_pct (scan_wallets p now ca)) ∧
   within 0 100 (fresh_wallet_pct (scan_wallets p now ca)) ∧
   ∃ n, (1 ≤ n)%nat ∧ counts (wallet_count (scan_wallets p now ca)) n).
Proof.
  unfold scan_wallets.
  destruct (token_accounts p ca) as [|status body]; [left; reflexivity|].
  destruct (bool_decide (status ≠ 200)); [left; reflexivity|].
  destruct body as [| |accounts]; [left; reflexivity..|].
  case_bool_decide as Hne; [left; reflexivity|].
  destruct (transfers p ca) as [|status2 body2]; [left; reflexivity|].
  destruct (bool_decide (status2 = 200)); [|right; exact (wallet_stats_shape _ _ _ Hne)].
  destruct body2 as [| |txs]; [left; reflexivity|right|right];
    exact (wallet_stats_shape _ _ _ Hne).
Qed.


Lemma positive_amounts (items : list TokenAmount) :
  Forall (fun a => (0 < a)%Qc)
    (sort_desc id Num.ltb (List.filter (fun a => Num.ltb 0%Qc a) (map ui_of items))).
Proof.
  apply list.Forall_forall. intros a Ha. apply sort_desc_elem in Ha.
  apply list_elem_of_In, filter_In in Ha as [_ Ha]. unfold Num.ltb in Ha.
  by apply bool_decide_eq_true in Ha.
Qed.

Lemma supply_stats_holders (total_supply : Qc) (items : list TokenAmount) :
  supply_stats total_supply items = _supply_defaults ∨
  ∃ n, (1 ≤ n ≤ length items)%nat ∧
       counts (holder_count (supply_stats total_supply items)) n.
Proof.
  unfold supply_stats. cbv zeta.
  assert (length (sort_desc id Num.ltb
            (List.filter (fun a => Num.ltb 0%Qc a) (map ui_of items))) ≤ length items)%nat
    as Hlen.
  { rewrite sort_desc_length. etransitivity; [apply length_filter_le|]. by rewrite length_map. }
  destruct (sort_desc id Num.ltb _) as [|a amounts]; [by left|]. right.
  cbn [holder_count]. exists (length (a :: amounts)). split; [|done].
  cbn [length] in *. lia.
Qed.



Lemma within_percentage m : within 0 100 m → percentage m.
Proof. intros H. by right. Qed.

Lemma capped_term (x : Qc) (rate : Q) (cap : Z) :
  (0 <= rate)%Q → 0 ≤ cap → (Num.of_Z 0 <= x)%Qc →
  (Num.of_Z 0 <= py_min (x * Q2Qc rate) (Num.of_Z cap))%Qc ∧
  (py_min (x * Q2Qc rate) (Num.of_Z cap) <= Num.of_Z cap)%Qc.
Proof.
  intros Hr Hc Hx. split; [|apply py_min_le_r].
  apply py_min_ge; [|by apply of_Z_le].
  qc_to_q. unfold inject_Z in *. nra.
Qed.

Lemma score_wallets_range d :
  percentage (cluster_pct d) → percentage (fresh_wallet_pct d) →
  0 ≤ score_wallets d ≤ 100.
Proof.
  intros Hc Hf. unfold score_wallets. cbv zeta.
  assert (∀ m rate, percentage m → (0 <= rate)%Q →
            ∀ score, (Num.of_Z 0 <= score)%Qc →
            ∀ hi, (score <= Num.of_Z hi)%Qc →
            let score' := match m with
                          | Number v => (score + py_min (v * Q2Qc rate) (Num.of_Z 50))%Qc
                          | NotAvailable => score
                          end in
            (Num.of_Z 0 <= score')%Qc ∧ (score' <= Num.of_Z (hi + 50))%Qc) as Hstep.
  { intros m rate [->|(v & -> & Hlo & Hhi)] Hrate score H0 hi H1; cbv zeta.
    - split; [done|]. eapply Qcle_trans; [exact H1|]. apply of_Z_le. lia.
    - destruct (capped_term v rate 50 Hrate ltac:(lia) Hlo) as [Ha Hb].
      set (term := py_min _ _) in *. clearbody term.
      rewrite of_Z_add. split; qc_lra. }
  destruct (Hstep _ (4 # 5)%Q Hc ltac:(done) 0%Qc ltac:(by rewrite of_Z_0) 0
              ltac:(by rewrite of_Z_0)) as [H1 H2].
  cbv zeta in H1, H2.
  destruct (Hstep _ (1 # 2)%Q Hf ltac:(done) _ H1 _ H2) as [H3 H4]. cbv zeta in H3, H4.
  split.
  - apply py_int_ge; [lia|exact H3].
  - apply py_int_le; [by rewrite <- of_Z_0|exact H4].
Qed.


Lemma scan_lp_number p ca : ∃ liq, lp_liquidity_usd (scan_lp p ca) = Number liq.
Proof.
  unfold scan_lp. destruct (token_overview p ca) as [|status body]; [by eexists|].
  destruct (bool_decide _); [by eexists|].
  destruct body as [| |[data|]]; by eexists.
Qed.

Lemma score_lp_number d liq :
  lp_liquidity_usd d = Number liq → score_lp d ∈ [20; 40; 70; 80; 90].
Proof.
  intros H. unfold score_lp. rewrite H.
  repeat (match goal with |- context [if ?b then _ else _] => destruct b end);
    by_compute.
Qed.

Lemma of_nat_nonneg n : (Num.of_Z 0 <= Num.of_nat n)%Qc.
Proof. unfold Num.of_nat. apply of_Z_le. lia. Qed.

Lemma score_mev_range d :
  d = _mev_defaults ∨ (∃ s b, counts (sandwich_count d) s ∧ counts (mev_bots d) b) →
  (Num.of_Z 0 <= score_mev d)%Qc ∧ (score_mev d <= Num.of_Z 100)%Qc.
Proof.
  intros [->|(s & b & Hs & Hb)].
  - split; by_compute.
  - unfold score_mev. cbv zeta. rewrite Hs, Hb.
    assert (∀ (x : Qc) (k cap : Z), 0 ≤ k → 0 ≤ cap → (Num.of_Z 0 <= x)%Qc →
              (Num.of_Z 0 <= py_min (x * Num.of_Z k) (Num.of_Z cap))%Qc ∧
              (py_min (x * Num.of_Z k) (Num.of_Z cap) <= Num.of_Z cap)%Qc) as Hterm.
    { intros x k cap Hk Hcap Hx. split; [|apply py_min_le_r].
      apply py_min_ge; [|by apply of_Z_le].
      assert (Num.of_Z 0 <= Num.of_Z k)%Qc as Hk' by (by apply of_Z_le).
      qc_to_q. unfold inject_Z in *. nra. }
    destruct (Hterm (Num.of_nat s) 5 60 ltac:(lia) ltac:(lia) (of_nat_nonneg s)) as [H1 H2].
    destruct (Hterm (Num.of_nat b) 20 40 ltac:(lia) ltac:(lia) (of_nat_nonneg b)) as [H3 H4].
    set (t1 := py_min (Num.of_nat s * _) _) in *. set (t2 := py_min (Num.of_nat b * _) _) in *.
    clearbody t1 t2. split.
    + apply py_min_ge; [qc_lra|by apply of_Z_le].
    + apply py_min_le_r.
Qed.

Lemma risk_score_range (ws ls ss : Z) (ms : Qc) :
  0 ≤ ws ≤ 100 → 20 ≤ ls ≤ 90 → 0 ≤ ss ≤ 100 →
  (Num.of_Z 0 <= ms)%Qc → (ms <= Num.of_Z 100)%Qc →
  5 ≤ risk_score (Num.of_Z ws) (Num.of_Z ls) (Num.of_Z ss) ms ≤ 97.
Proof.
  intros Hws Hls Hss Hm0 Hm1. unfold risk_score.
  pose proof (of_Z_le 0 ws ltac:(lia)). pose proof (of_Z_le ws 100 ltac:(lia)).
  pose proof (of_Z_le 20 ls ltac:(lia)). pose proof (of_Z_le ls 90 ltac:(lia)).
  pose proof (of_Z_le 0 ss ltac:(lia)). pose proof (of_Z_le ss 100 ltac:(lia)).
  set (a := Num.of_Z ws) in *. set (b := Num.of_Z ls) in *. set (c := Num.of_Z ss) in *.
  clearbody a b c.
  split.
  - apply py_int_ge; [lia|]. qc_lra.
  - assert (py_int (a * Q2Qc (3 # 10) + b * Q2Qc (1 # 4) + c * Q2Qc (1 # 4) +
                    ms * Q2Qc (1 # 5)) < 98); [|lia].
    apply py_int_lt; qc_lra.
Qed.

Lemma scan_mev_cases p ca :
  scan_mev p ca = _mev_defaults ∨
  ∃ txs, history p ca = Dev.Reply 200 (Dev.BodyOf txs) ∧ scan_mev p ca = mev_stats txs.
Proof.
  unfold scan_mev. destruct (history p ca) as [|status body]; [by left|].
  case_bool_decide as Hs; [by left|].
  assert (status = 200) as -> by (destruct (decide (status = 200)); done).
  destruct body as [| |txs]; [by left..|]. right. by exists txs.
Qed.

Lemma scan_wallets_cases p now ca :
  percentage (cluster_pct (scan_wallets p now ca)) ∧
  percentage (fresh_wallet_pct (scan_wallets p now ca)).
Proof.
  unfold scan_wallets.
  assert (percentage NotAvailable) as Hna by (by left).
  destruct (token_accounts p ca) as [|status body]; [done|].
  destruct (bool_decide (status ≠ 200)); [done|].
  destruct body as [| |accounts]; [done..|].
  destruct (bool_decide (accounts = [])); [done|].
  assert (∀ txs, percentage (cluster_pct (wallet_stats now accounts txs)) ∧
                 percentage (fresh_wallet_pct (wallet_stats now accounts txs))) as Hst.
  { intros txs. destruct (wallet_stats_bounds now accounts txs) as (H1 & H2 & _).
    split; by apply within_percentage. }
  destruct (transfers p ca) as [|status2 body2]; [done|].
  destruct (bool_decide (status2 = 200)); [|exact (Hst [])].
  destruct body2 as [| |txs]; [done|exact (Hst [])|exact (Hst txs)].
Qed.

Lemma scores_of_scans p now ca :
  0 ≤ score_wallets (scan_wallets p now ca) ≤ 100 ∧
  score_lp (scan_lp p ca) ∈ [20; 40; 70; 80; 90] ∧
  (Num.of_Z 0 <= score_mev (scan_mev p ca))%Qc ∧
  (score_mev (scan_mev p ca) <= Num.of_Z 100)%Qc.
Proof.
  split; [|split].
  - destruct (scan_wallets_cases p now ca). by apply score_wallets_range.
  - destruct (scan_lp_number p ca) as [liq Hliq]. by eapply score_lp_number.
  - apply score_mev_range.
    destruct (scan_mev_cases p ca) as [->|(txs & _ & ->)]; [by left|right].
    eexists _, _. split; reflexivity.
Qed.



(** X29: when the wallet, supply and MEV scans return their defaults, each
    of them is rated low and the overall score is at most 22, whatever the
    liquidity. *)
Theorem unavailable_scans_score_low (p : ScanProvider) (ca : string) :
  let a := assess _wallet_defaults (scan_lp p ca) _supply_defaults _mev_defaults in
  5 ≤ overall a ≤ 22 ∧ wallet_risk a = LOW ∧ supply_risk a = LOW ∧ mev_risk a = LOW.
Proof.
  cbv zeta. destruct (scan_lp_number p ca) as [liq Hliq].
  pose proof (score_lp_number _ _ Hliq) as Hl.
  unfold assess. cbv zeta. cbn [overall wallet_risk supply_risk mev_risk].
  split; [|by split; [|split]; by_compute].
  set (ls := score_lp _) in *. clearbody ls.
  repeat (apply elem_of_cons in Hl as [->|Hl]; [split; by_compute|]).
  by apply elem_of_nil in Hl.
Qed.

End RiskScan.

(* ===================================================================== *)
(** * Invites *)
(* ===================================================================== *)

Section InviteFacts.
Import Invites.

Lemma load_generate token fs :
  _load_invites (snd (generate_invite token fs)) =
  <[ token := {| used := false; redeemed_by := None |} ]> (_load_invites fs).
Proof. reflexivity. Qed.

Lemma open_generate token fs :
  (size (open_invites (snd (generate_invite token fs))) ≤ S (size (open_invites fs)))%nat.
Proof.
  unfold open_invites. rewrite load_generate.
  set (m := _load_invites fs).
  rewrite map_filter_insert_True by done.
  match goal with
  | |- context [size (<[token := _]> ?fm)] => destruct (fm !! token) eqn:Hl
  end.
  - rewrite map_size_insert_Some by done. lia.
  - rewrite map_size_insert_None by done. lia.
Qed.

Lemma use_invite_cases token user_id fs :
  (use_invite token user_id fs = (false, fs) ∧
   open_invites fs !! token = None) ∨
  (∃ invite, _load_invites fs !! token = Some invite ∧ used invite = false ∧
     fst (use_invite token user_id fs) = true ∧
     _load_invites (snd (use_invite token user_id fs)) =
       <[ token := {| used := true; redeemed_by := Some user_id |} ]> (_load_invites fs) ∧
     _load_users (snd (use_invite token user_id fs)) =
       if bool_decide (user_id ∈ _load_users fs) then _load_users fs
       else _load_users fs ++ [user_id]).
Proof.
  unfold use_invite, open_invites. cbv zeta.
  destruct (_load_invites fs !! token) as [invite|] eqn:Hl.
  - destruct (used invite) eqn:Hu.
    + left. split; [done|]. apply map_lookup_filter_None. right.
      intros x Hx. rewrite Hl in Hx. injection Hx as <-. cbn. by rewrite Hu.
    + right. exists invite. split; [done|]. split; [done|].
      change (_load_users (_save_invites _ fs)) with (_load_users fs).
      case_bool_decide; cbn; done.
  - left. split; [done|]. apply map_lookup_filter_None. by left.
Qed.

Lemma open_redeem token user_id fs :
  fst (use_invite token user_id fs) = true →
  S (size (open_invites (snd (use_invite token user_id fs)))) = size (open_invites fs).
Proof.
  intros Hok.
  destruct (use_invite_cases token user_id fs) as [[Heq _]|(invite & Hl & Hu & _ & Hinv & _)].
  { rewrite Heq in Hok. done. }
  unfold open_invites. rewrite Hinv.
  rewrite map_filter_insert_False by (cbn; done).
  rewrite map_filter_delete.
  rewrite map_size_delete.
  assert (filter (fun kv : string * Invite => used (snd kv) = false) (_load_invites fs) !! token
          = Some invite) as ->.
  { apply map_lookup_filter_Some. by split. }
  assert (0 < size (filter (fun kv : string * Invite => used (snd kv) = false)
                           (_load_invites fs)))%nat; [|lia].
  apply Nat.neq_0_lt_0. intros H0. apply map_size_empty_inv in H0.
  assert (filter (fun kv : string * Invite => used (snd kv) = false) (_load_invites fs) !! token
          = Some invite) as Hin by (apply map_lookup_filter_Some; by split).
  rewrite H0 in Hin. by rewrite lookup_empty in Hin.
Qed.


Lemma open_authorize user_id fs : open_invites (authorize_user user_id fs) = open_invites fs.
Proof. unfold authorize_user. cbv zeta. by case_bool_decide. Qed.

Lemma run_balance calls fs :
  (length (List.filter id (fst (run calls fs))) + size (open_invites (snd (run calls fs))) ≤
   length (List.filter is_generate calls) + size (open_invites fs))%nat.
Proof.
  revert fs. induction calls as [|[token|token user_id|user_id] calls IH]; intros fs.
  - cbn. lia.
  - cbn [run List.filter is_generate length].
    specialize (IH (snd (generate_invite token fs))).
    pose proof (open_generate token fs). lia.
  - cbn [run]. cbv zeta. cbn [fst snd List.filter is_generate].
    specialize (IH (snd (use_invite token user_id fs))).
    destruct (fst (use_invite token user_id fs)) eqn:Hok; cbn [id length].
    + pose proof (open_redeem token user_id fs Hok) as H.
      revert IH H.
      generalize (size (open_invites (snd (use_invite token user_id fs)))).
      generalize (size (open_invites (snd (run calls (snd (use_invite token user_id fs)))))).
      generalize (size (open_invites fs)).
      generalize (length (List.filter id (fst (run calls (snd (use_invite token user_id fs)))))).
      intros. lia.
    + destruct (use_invite_cases token user_id fs) as [[Heq _]|(i & _ & _ & Ht & _)];
        [|congruence].
      rewrite Heq in IH |- *. cbn [snd] in IH |- *. exact IH.
  - cbn [run List.filter is_generate].
    specialize (IH (authorize_user user_id fs)). rewrite open_authorize in IH. lia.
Qed.

(** X30: over any sequence of calls the number of redemptions that succeed
    is at most the number of invites generated plus the number of invites
    that were open at the start; starting without files it is at most the
    number of invites generated. *)
Theorem invites_redeemed_at_most_once (calls : list Call) (fs : Files) :
  (length (List.filter id (fst (run calls fs))) ≤
   length (List.filter is_generate calls) + size (open_invites fs))%nat ∧
  (length (List.filter id (fst (run calls no_files))) ≤
   length (List.filter is_generate calls))%nat.
Proof.
  split.
  - pose proof (run_balance calls fs). lia.
  - pose proof (run_balance calls no_files) as H.
    assert (size (open_invites no_files) = 0%nat) as H0 by reflexivity. lia.
Qed.

(** X25: a redemption that fails leaves both files as they were; one that
    succeeds marks the invite used by that user, leaves every other invite
    alone, authorises the user, keeps everyone authorised who was, keeps the
    user list free of duplicates, and makes every later redemption of the
    same token fail, for any user. *)
Theorem use_invite_outcomes (token : string) (user_id : Z) (fs : Files) :
  let fs' := snd (use_invite token user_id fs) in
  if fst (use_invite token user_id fs) then
    is_authorized user_id fs' = true ∧
    (∀ other, use_invite token other fs' = (false, fs')) ∧
    _load_invites fs' !! token = Some {| used := true; redeemed_by := Some user_id |} ∧
    (∀ t, t ≠ token → _load_invites fs' !! t = _load_invites fs !! t) ∧
    (∀ v, is_authorized v fs = true → is_authorized v fs' = true) ∧
    (NoDup (_load_users fs) → NoDup (_load_users fs'))
  else fs' = fs.
Proof.
  cbv zeta.
  destruct (use_invite_cases token user_id fs)
    as [[Heq _]|(invite & Hl & Hu & Hok & Hinv & Husers)].
  { by rewrite Heq. }
  rewrite Hok. clear Hok.
  remember (snd (use_invite token user_id fs)) as fs' eqn:Hfs'. clear Hfs'.
  assert (_load_invites fs' !! token =
          Some {| used := true; redeemed_by := Some user_id |}) as Hused.
  { rewrite Hinv. apply lookup_insert_eq. }
  split; [|split; [|split; [done|split; [|split]]]].
  - unfold is_authorized. rewrite Husers. apply bool_decide_eq_true.
    case_bool_decide as Hin; [done|]. apply elem_of_app. right. by apply list_elem_of_singleton.
  - intros other. unfold use_invite. cbv zeta. by rewrite Hused.
  - intros t Ht. rewrite Hinv. by apply lookup_insert_ne.
  - intros v. unfold is_authorized. rewrite Husers. intros Hv%bool_decide_eq_true.
    apply bool_decide_eq_true. case_bool_decide; [done|]. apply elem_of_app. by left.
  - intros Hnd. rewrite Husers. case_bool_decide as Hin; [done|].
    apply list.NoDup_app. split; [done|]. split; [|apply NoDup_singleton].
    intros x Hx Hx'. apply list_elem_of_singleton in Hx'. by subst x.
Qed.

End InviteFacts.
